(** * AirController Web: the device bridge

    A shallow embedding of the server side of the bridge
    ([server/constants.ts], [server/udp-discovery.ts], [server/tcp-client.ts],
    [server/device-connection-manager.ts] and the [connect:device] case of
    [server/websocket-server.ts]) together with the properties of the
    specification that are stated about it.

    Conventions of the embedding.
    - JavaScript strings are byte strings ([string]); every separator and
      prefix the code tests for is ASCII, so prefix tests and splitting agree
      with the UTF-16 original.
    - JSON numbers are integers ([Z]); what the code computes from them is
      rounded as an IEEE double rounds it ([Js.toDouble]).
    - Objects that the code shares and mutates (connection records, the two
      TCP clients inside them) live in a store and are named by their index.
    - What the Node runtime does (socket events, timers firing, an emitted
      ['error'] without listener) is part of the model and is marked as such. *)

From Stdlib Require Import ZArith Ascii String List Bool Lia.
From stdpp Require Import base option list gmap strings pretty.

Local Open Scope string_scope.
Local Open Scope Z_scope.
Local Open Scope list_scope.

(** ** JavaScript values and the few built-ins the bridge uses *)
Module Js.

#[local] Unset Elimination Schemes.
Inductive Json :=
| JNull
| JBool (b : bool)
| JNum (z : Z)
| JStr (s : string)
| JArr (l : list Json)
| JObj (fields : list (string * Json)).
#[local] Set Elimination Schemes.

(** [o.k]: the value of the last field named [k] ([JSON.parse] keeps the
    last duplicate), [None] for [undefined]. *)
Fixpoint field (k : string) (fields : list (string * Json)) : option Json :=
  match fields with
  | [] => None
  | (k', v) :: rest =>
      match field k rest with
      | Some v' => Some v'
      | None => if String.eqb k k' then Some v else None
      end
  end.

(** Truthiness of a value; [undefined] is [None]. *)
Definition truthy (v : option Json) : bool :=
  match v with
  | None | Some JNull => false
  | Some (JBool b) => b
  | Some (JNum z) => negb (z =? 0)
  | Some (JStr s) => negb (String.eqb s "")
  | Some (JArr _) | Some (JObj _) => true
  end.

(** [v || d] *)
Definition or_else (v : option Json) (d : Json) : Json :=
  match v with
  | Some x => if truthy v then x else d
  | None => d
  end.

Definition join (sep : string) (l : list string) : string :=
  match l with
  | [] => ""
  | x :: rest => fold_left (fun acc y => acc +:+ sep +:+ y) rest x
  end.

(** [String(v)], as a template literal computes it. *)
Fixpoint toString (v : Json) : string :=
  match v with
  | JNull => "null"
  | JBool true => "true"
  | JBool false => "false"
  | JNum z => pretty z
  | JStr s => s
  | JArr l =>
      join "," (map (fun x => match x with JNull => "" | _ => toString x end) l)
  | JObj _ => "[object Object]"
  end.

Definition toStringU (v : option Json) : string :=
  match v with
  | None => "undefined"
  | Some x => toString x
  end.

(** The integer a [Number] holds for the exact integer [z]: [z] itself up
    to 53 significant bits, otherwise the nearest integer with 53
    significant bits, ties going to the even one.  The largest double is not
    modelled: a value of more than 1024 bits, which JavaScript makes
    [Infinity], is rounded like any other.  Adding one to a double never
    gets there; [parseInt] does only on a numeral of more than 308 digits. *)
Definition toDouble (z : Z) : Z :=
  let a := Z.abs z in
  let n := Z.log2 a + 1 in
  if n <=? 53 then z
  else
    let s := n - 53 in
    let q := Z.shiftr a s in
    let r := Z.land a (Z.ones s) in
    let half := Z.shiftl 1 (s - 1) in
    let q' := if (half <? r) || ((r =? half) && Z.odd q) then q + 1 else q in
    Z.sgn z * Z.shiftl q' s.

(** [v + 1] *)
Definition add1 (v : Json) : Json :=
  match v with
  | JNum z => JNum (toDouble (z + 1))
  | JNull => JNum 1
  | JBool true => JNum 2
  | JBool false => JNum 1
  | JStr _ | JArr _ | JObj _ => JStr (toString v +:+ "1")
  end.

Definition hexDigit (n : N) : ascii :=
  match n with
  | 0%N => "0" | 1%N => "1" | 2%N => "2" | 3%N => "3" | 4%N => "4"
  | 5%N => "5" | 6%N => "6" | 7%N => "7" | 8%N => "8" | 9%N => "9"
  | 10%N => "A" | 11%N => "B" | 12%N => "C" | 13%N => "D" | 14%N => "E"
  | _ => "F"
  end%char.

Definition between (lo hi : ascii) (c : ascii) : bool :=
  ((N_of_ascii lo <=? N_of_ascii c) && (N_of_ascii c <=? N_of_ascii hi))%N.

(** The characters [encodeURIComponent] leaves alone. *)
Definition unreserved (c : ascii) : bool :=
  between "a" "z" c || between "A" "Z" c || between "0" "9" c
  || existsb (Ascii.eqb c)
       ["-"; "_"; "."; "!"; "~"; "*"; "'"; "("; ")"]%char.

Fixpoint encodeURIComponent (s : string) : string :=
  match s with
  | EmptyString => EmptyString
  | String c rest =>
      if unreserved c then String c (encodeURIComponent rest)
      else
        let n := N_of_ascii c in
        String "%" (String (hexDigit (n / 16)) (String (hexDigit (n mod 16))
          (encodeURIComponent rest)))
  end.

Definition isSpace (c : ascii) : bool :=
  existsb (Ascii.eqb c) [" "; "009"; "010"; "011"; "012"; "013"]%char.

Fixpoint dropSpaces (s : string) : string :=
  match s with
  | String c rest => if isSpace c then dropSpaces rest else s
  | EmptyString => s
  end.

Fixpoint digits (acc : option Z) (s : string) : option Z :=
  match s with
  | String c rest =>
      if between "0" "9" c
      then digits (Some (10 * default 0 acc + (Z.of_N (N_of_ascii c) - 48))) rest
      else acc
  | EmptyString => acc
  end.

(** [parseInt(s, 10)]; [None] is [NaN].  The digits are read exactly and
    the result is the [Number] for that integer. *)
Definition parseInt (s : string) : option Z :=
  toDouble <$>
    match dropSpaces s with
    | String "-" rest => Z.opp <$> digits None rest
    | String "+" rest => digits None rest
    | t => digits None t
    end.

(** [s.substring(n)] *)
Fixpoint dropChars (n : nat) (s : string) : string :=
  match n, s with
  | S n', String _ rest => dropChars n' rest
  | _, _ => s
  end.

(** [s.split(sep)] for a one-character separator; never empty. *)
Fixpoint split (sep : ascii) (s : string) : list string :=
  match s with
  | EmptyString => [""]
  | String c rest =>
      if Ascii.eqb c sep then "" :: split sep rest
      else
        match split sep rest with
        | x :: xs => String c x :: xs
        | [] => [String c ""]
        end
  end.

(** [s] starts with a decimal digit. *)
Definition headDigit (s : string) : Prop :=
  match s with
  | String c _ => between "0" "9" c = true
  | EmptyString => False
  end.

(** How often the character [c] occurs in [s]. *)
Fixpoint occurs (c : ascii) (s : string) : nat :=
  match s with
  | EmptyString => 0%nat
  | String a rest => ((if Ascii.eqb a c then 1 else 0) + occurs c rest)%nat
  end.

End Js.

(** ** server/constants.ts *)
Module Constants.

Module PORTS.
Definition SEARCH : Z := 20000.
Definition CMD : Z := 20001.
Definition HEARTBEAT : Z := 20002.
Definition HTTP : Z := 9527.
Definition WS : Z := 8080.
End PORTS.

Module PLATFORM.
Definition ANDROID : Z := 1.
Definition IOS : Z := 2.
Definition MACOS : Z := 3.
Definition LINUX : Z := 4.
Definition WINDOWS : Z := 5.
Definition WEB : Z := 6.
End PLATFORM.

Module PROTOCOL.
Definition CMD_SEARCH_PREFIX := "search#".
Definition CMD_SEARCH_RES_PREFIX := "search_msg_received#".
Definition RANDOM_STR_SEARCH := "a2w0nuNyiD6vYogF".
Definition RANDOM_STR_RES_SEARCH := "RBIDoKFHLX9frYTh".
Definition CMD_UPDATE_MOBILE_INFO : Z := 1.
Definition CMD_REPORT_DESKTOP_INFO : Z := 2.
Definition HEARTBEAT_INTERVAL : Z := 2000.
Definition HEARTBEAT_TIMEOUT : Z := 5000.
End PROTOCOL.

Definition searchPrefix : string :=
  PROTOCOL.CMD_SEARCH_PREFIX +:+ PROTOCOL.RANDOM_STR_SEARCH +:+ "#".

Definition isValidDiscoveryPacket (data : string) : bool :=
  String.prefix searchPrefix data.

Record ParsedDevice := {
  platform : option Z;
  name : string;
  ip : string;
}.

Definition parseDiscoveryPacket (data : string) : option ParsedDevice :=
  if negb (isValidDiscoveryPacket data) then None
  else
    let deviceStr := Js.dropChars (String.length searchPrefix) data in
    match Js.split "#" deviceStr with
    | p0 :: p1 :: p2 :: _ =>
        Some {| platform := Js.parseInt p0; name := p1; ip := p2 |}
    | _ => None
    end.

(** [platform] is [process.platform]. *)
Definition getPlatformCode (platform : string) : Z :=
  if String.eqb platform "darwin" then PLATFORM.MACOS
  else if String.eqb platform "linux" then PLATFORM.LINUX
  else if String.eqb platform "win32" then PLATFORM.WINDOWS
  else PLATFORM.WEB.

Definition buildDiscoveryResponse (platform deviceName localIp : string) : string :=
  PROTOCOL.CMD_SEARCH_RES_PREFIX +:+ PROTOCOL.RANDOM_STR_RES_SEARCH +:+ "#"
    +:+ pretty (getPlatformCode platform) +:+ "#" +:+ deviceName +:+ "#" +:+ localIp.

End Constants.

(** [os.networkInterfaces()]: the interfaces of the host, in the order the
    runtime lists them. *)
Record NetworkInterfaceInfo := {
  family : string;
  internal : bool;
  address : string;
}.

Record Host := {
  hostname : string;
  networkInterfaces : list (string * list NetworkInterfaceInfo);
}.

(** The first address that is IPv4 and not internal, else the loopback
    address: [getLocalIPAddress] of the discovery server and [getLocalIP] of
    both TCP clients are this same double loop. *)
Definition getLocalIP (h : Host) : string :=
  match
    filter (fun i => String.eqb (family i) "IPv4" && negb (internal i) = true)
           (concat (map snd (networkInterfaces h)))
  with
  | i :: _ => address i
  | [] => "127.0.0.1"
  end.

(** ** server/udp-discovery.ts *)
Module Discovery.
Import Constants.

(** [udpSocket] is whether the socket field is non-null (between [start]
    and [stop]); [onDeviceDiscovered] whether the optional callback was
    given.  [discoveredDevices] is only tested, extended and cleared by the
    code below, so the insertion order of the JavaScript [Map] plays no
    role. *)
Record UDPDiscoveryServer := {
  udpSocket : bool;
  deviceName : string;
  onDeviceDiscovered : bool;
  discoveredDevices : gmap string ParsedDevice;
}.

(** What a handled packet makes the server do towards the outside. *)
Inductive Effect :=
| DeviceDiscovered (d : ParsedDevice)
| UdpSend (payload : string) (port : Z) (target : string).

Definition deviceKey (d : ParsedDevice) : string :=
  ip d +:+ "_" +:+ name d.

Definition discoveryResponse (h : Host) (srv : UDPDiscoveryServer) : string :=
  "search_msg_received#RBIDoKFHLX9frYTh#" +:+ pretty 6 +:+ "#"
    +:+ deviceName srv +:+ "#" +:+ getLocalIP h.

Definition sendDiscoveryResponse
    (h : Host) (srv : UDPDiscoveryServer) (targetAddress : string) : list Effect :=
  if udpSocket srv
  then [UdpSend (discoveryResponse h srv) PORTS.SEARCH targetAddress]
  else [].

Definition handleDiscoveryPacket
    (h : Host) (srv : UDPDiscoveryServer) (data rinfoAddress : string)
  : UDPDiscoveryServer * list Effect :=
  if negb (isValidDiscoveryPacket data) then (srv, [])
  else
    match parseDiscoveryPacket data with
    | None => (srv, [])
    | Some device =>
        let device :=
          if String.eqb (ip device) "" || String.eqb (ip device) "0.0.0.0"
          then {| platform := platform device; name := name device;
                  ip := rinfoAddress |}
          else device in
        let key := deviceKey device in
        let '(srv', notified) :=
          match discoveredDevices srv !! key with
          | Some _ => (srv, [])
          | None =>
              ({| udpSocket := udpSocket srv; deviceName := deviceName srv;
                  onDeviceDiscovered := onDeviceDiscovered srv;
                  discoveredDevices := <[key := device]> (discoveredDevices srv) |},
               if onDeviceDiscovered srv then [DeviceDiscovered device] else [])
          end in
        (srv', notified ++ sendDiscoveryResponse h srv' rinfoAddress)
    end.

Definition clearDiscoveredDevices (srv : UDPDiscoveryServer) : UDPDiscoveryServer :=
  {| udpSocket := udpSocket srv; deviceName := deviceName srv;
     onDeviceDiscovered := onDeviceDiscovered srv;
     discoveredDevices := ∅ |}.

(** What reaches the server: a datagram with its sender's address, or a
    tick of the timer that empties the cache. *)
Inductive Input :=
| Packet (data rinfoAddress : string)
| ClearTick.

Definition step (h : Host) (srv : UDPDiscoveryServer) (i : Input)
  : UDPDiscoveryServer * list Effect :=
  match i with
  | Packet data a => handleDiscoveryPacket h srv data a
  | ClearTick => (clearDiscoveredDevices srv, [])
  end.

Fixpoint run (h : Host) (srv : UDPDiscoveryServer) (inputs : list Input)
  : UDPDiscoveryServer * list Effect :=
  match inputs with
  | [] => (srv, [])
  | i :: rest =>
      let '(s1, e1) := step h srv i in
      let '(s2, e2) := run h s1 rest in
      (s2, e1 ++ e2)
  end.

Definition isPacket (i : Input) : bool :=
  match i with Packet _ _ => true | ClearTick => false end.

Definition announces (ip0 name0 : string) (e : Effect) : bool :=
  match e with
  | DeviceDiscovered d => String.eqb (ip d) ip0 && String.eqb (name d) name0
  | UdpSend _ _ _ => false
  end.

Definition discoveries (ip0 name0 : string) (es : list Effect) : nat :=
  length (List.filter (announces ip0 name0) es).

Definition isUdpSend (e : Effect) : bool :=
  match e with
  | UdpSend _ _ _ => true
  | DeviceDiscovered _ => false
  end.

(** The server after it has cached [d], and how many announcements of key
    [k] the cache still allows. *)
Definition grown (srv : UDPDiscoveryServer) (d : ParsedDevice) : UDPDiscoveryServer :=
  {| udpSocket := udpSocket srv; deviceName := deviceName srv;
     onDeviceDiscovered := onDeviceDiscovered srv;
     discoveredDevices := <[deviceKey d := d]> (discoveredDevices srv) |}.

Definition cached (srv : UDPDiscoveryServer) (k : string) : nat :=
  match discoveredDevices srv !! k with Some _ => 0%nat | None => 1%nat end.

(** The acknowledgment of section 6 of the specification. *)
Definition acknowledgment (platformCode serverName serverIp : string) : string :=
  "search_msg_received#RBIDoKFHLX9frYTh#" +:+ platformCode +:+ "#"
    +:+ serverName +:+ "#" +:+ serverIp.

(** *** The active broadcast *)

(** An entry of [os.networkInterfaces()] together with its [netmask], which
    only [getBroadcastAddress] reads. *)
Record MaskedInterface := {
  info : NetworkInterfaceInfo;
  netmask : string;
}.

(** The operand of a bitwise operator: [NaN] counts as 0, a number is taken
    modulo [2^32] into the signed range. *)
Definition toInt32 (v : option Z) : Z :=
  match v with
  | None => 0
  | Some z => (z + 2 ^ 31) mod 2 ^ 32 - 2 ^ 31
  end.

(** [(ipOctet | (~netmaskOctet & 0xff)).toString()]; [mask] is
    [netmask[index]], [None] when the netmask has fewer parts. *)
Definition broadcastOctet (octet : string) (mask : option string) : string :=
  let ipOctet := Js.parseInt octet in
  let netmaskOctet := Js.parseInt (default "undefined" mask) in
  pretty (Z.lor (toInt32 ipOctet) (Z.land (Z.lnot (toInt32 netmaskOctet)) 255)).

Definition getBroadcastAddress (interfaces : list (string * list MaskedInterface))
  : string :=
  match
    filter (fun i => negb (internal (info i) || negb (String.eqb (family (info i)) "IPv4")) = true)
           (concat (map snd interfaces))
  with
  | i :: _ =>
      let ip := Js.split "." (address (info i)) in
      let netmask := Js.split "." (netmask i) in
      Js.join "." (imap (fun index octet => broadcastOctet octet (netmask !! index)) ip)
  | [] => "255.255.255.255"
  end.

(** The host as the other functions see it. *)
Definition hostOf (name : string) (interfaces : list (string * list MaskedInterface))
  : Host :=
  {| hostname := name;
     networkInterfaces := map (fun e => (fst e, map info (snd e))) interfaces |}.

(** [broadcastDiscovery]: [inl] is the exception of a server without
    socket, [inr] what is sent. *)
Definition broadcastDiscovery
    (platform name : string) (interfaces : list (string * list MaskedInterface))
    (srv : UDPDiscoveryServer) : string + list Effect :=
  if negb (udpSocket srv) then inl "UDP socket not initialized"
  else
    let localIp := getLocalIP (hostOf name interfaces) in
    let response := buildDiscoveryResponse platform (deviceName srv) localIp in
    inr [UdpSend response PORTS.SEARCH (getBroadcastAddress interfaces)].

End Discovery.

(** ** The bridge: server/tcp-client.ts, server/device-connection-manager.ts
       and the [connect:device] case of server/websocket-server.ts *)
Module Bridge.
Import Js Constants.

Inductive Channel := Command | Heartbeat.

#[global] Instance Channel_eq_dec : EqDecision Channel.
Proof. solve_decision. Defined.

(** *** Data *)

(** [Device] of types/index.ts, as far as the server reads or writes it.
    [pushedInfo] lists the [data] objects of the mobile-info pushes merged
    into [deviceInfo] so far; the arithmetic that derives battery and
    storage figures from such an object is not spelled out. *)
Record Device := {
  dev_id : string;
  dev_name : string;
  dev_ip : string;
  deviceInfo : option Json;
  pushedInfo : list Json;
}.

(** Messages sent to WebSocket clients, before [JSON.stringify]. *)
Inductive ReplyData :=
| DataJson (j : Json)
| DataSuccess
| DataFiles (l : list (list (string * Json)))
| DataVideos (l : list (list (string * Json))).

Inductive WsMsg :=
| Greeting
| ConnectionSuccess (device : Device)
| ConnectionError (error : string) (device : option Device)
| DeviceDisconnected (device : Device)
| ConnectionClosed (device : Device)
| MobileInfoUpdate (deviceId : string) (data : Json)
| CommandReceived (data : Json)
| Reply (id : option Json) (type : string) (data : ReplyData)
| ErrorReply (id : option Json) (error : string)
| HeartbeatAck (timestamp : Z)
| RegisterAck.

(** The [type] field of a message. *)
Definition msgType (m : WsMsg) : string :=
  match m with
  | Greeting => "connected"
  | ConnectionSuccess _ => "connection:success"
  | ConnectionError _ _ => "connection:error"
  | DeviceDisconnected _ => "device:disconnected"
  | ConnectionClosed _ => "connection:closed"
  | MobileInfoUpdate _ _ => "mobile:info:update"
  | CommandReceived _ => "command:received"
  | Reply _ type _ => type
  | ErrorReply _ _ => "error"
  | HeartbeatAck _ => "heartbeat:ack"
  | RegisterAck => "register:ack"
  end.

(** Events of the two [EventEmitter]s. *)
Inductive ClientEvent :=
| EConnected
| EError (e : string)
| EDisconnected
| ETimeout
| EHeartbeat (message : Json)
| EMobileInfo (data : Json)
| ECommand (message : Json).

Record HttpRequest := {
  http_method : string;
  http_url : string;
  http_data : option Json;
  http_timeout : Z;
}.

(** What the device answers to a relayed call: a 2xx body, or a failure
    ([axios] throws on anything else). *)
Inductive HttpResult :=
| HttpOk (body : Json)
| HttpFail (message : string).

(** Everything the bridge does towards the outside, in order. *)
Inductive Effect :=
| WsSend (ws : nat) (m : WsMsg)
| SockConnect (c : nat) (ch : Channel) (sid : nat) (port : Z) (ip : string)
| SockWrite (c : nat) (ch : Channel) (sid : nat) (payload : Json)
| SockDestroy (c : nat) (ch : Channel) (sid : nat)
| Emit (c : nat) (ch : Channel) (ev : ClientEvent)
| HttpCall (req : HttpRequest)
| FetchMobileInfo (c : nat).

(** A [net.Socket] made by one call of [connect], with the locals of that
    call that its handlers close over.  [state], [listeners] and
    [idleTimeout] are the runtime's; [unanswered] is a ghost count of the
    heartbeats written to the socket that no echo has answered yet. *)
Inductive SockState := Connecting | Open | Destroyed | Closed.
Inductive Promise := Pending | Resolved | Rejected (e : string).

Record Sock := {
  listeners : bool;
  state : SockState;
  idleTimeout : Z;
  connectionResolved : bool;
  connectionTimeout : option nat;
  promise : Promise;
  unanswered : nat;
}.

Definition newSock : Sock :=
  {| listeners := true; state := Connecting; idleTimeout := 0;
     connectionResolved := false; connectionTimeout := None;
     promise := Pending; unanswered := 0 |}.

(** [heartbeatInterval] of [HeartbeatClient] is never assigned and is left
    out; [sockets] holds every socket the client has made, the index being
    the socket's name. *)
Record Client := {
  socket : option nat;
  deviceIp : string;
  isConnectedFlag : bool;
  timeoutTimer : option nat;
  lastHeartbeatValue : Json;
  lastHeartbeatTime : Z;
  waitingForResponse : bool;
  sockets : list Sock;
}.

(** [new CommandClient()] and [new HeartbeatClient()]; the command client
    has no use for the heartbeat fields. *)
Definition newClient : Client :=
  {| socket := None; deviceIp := ""; isConnectedFlag := false;
     timeoutTimer := None; lastHeartbeatValue := JNum (-1);
     lastHeartbeatTime := 0; waitingForResponse := false; sockets := [] |}.

(** [forwarding]: [setupEventForwarding] has registered the manager's
    listeners on the two clients.  [pendingConnect]: the call of
    [connectToDevice] that is suspended at an [await] for this record, as
    the awaited channel, the socket whose promise it waits for, and the
    requesting WebSocket client. *)
Record MobileConnection := {
  device : Device;
  commandClient : Client;
  heartbeatClient : Client;
  webSocketClients : list nat;
  connected : bool;
  lastActivity : Z;
  forwarding : bool;
  pendingConnect : option (Channel * nat * nat);
}.

Inductive TimerCb :=
| CmdConnectionTimeout (c sid : nat)
| HbNextBeat (c : nat)
| HbLiveness (c : nat)
| GraceClose (c : nat)
| ReconnectCommand (c : nat)
| ReconnectHeartbeat (c : nat).

Record Timer := {
  tid : nat;
  delay : Z;
  due : Z;
  callback : TimerCb;
}.

(** The process.  [connections] is the manager's [Map] from device IP to
    record, in insertion order; [store] holds the records themselves;
    [openClients] are the WebSocket clients whose [readyState] is OPEN;
    [wsHandlers] the (client, record) pairs for which
    [setupWebSocketHandling] registered handlers.  [crashed] is set when
    an exception leaves an event handler uncaught. *)
Record World := {
  host : Host;
  now : Z;
  connections : list (string * nat);
  store : list MobileConnection;
  timers : list Timer;
  timerCount : nat;
  openClients : list nat;
  wsHandlers : list (nat * nat);
  trace : list Effect;
  crashed : option string;
}.

Definition initial (h : Host) : World :=
  {| host := h; now := 0; connections := []; store := []; timers := [];
     timerCount := 0; openClients := []; wsHandlers := []; trace := [];
     crashed := None |}.

(** Field updates. *)
Definition setSock_listeners v (s : Sock) :=
  {| listeners := v; state := state s; idleTimeout := idleTimeout s;
     connectionResolved := connectionResolved s;
     connectionTimeout := connectionTimeout s; promise := promise s;
     unanswered := unanswered s |}.
Definition setSock_state v (s : Sock) :=
  {| listeners := listeners s; state := v; idleTimeout := idleTimeout s;
     connectionResolved := connectionResolved s;
     connectionTimeout := connectionTimeout s; promise := promise s;
     unanswered := unanswered s |}.
Definition setSock_idleTimeout v (s : Sock) :=
  {| listeners := listeners s; state := state s; idleTimeout := v;
     connectionResolved := connectionResolved s;
     connectionTimeout := connectionTimeout s; promise := promise s;
     unanswered := unanswered s |}.
Definition setSock_connectionResolved v (s : Sock) :=
  {| listeners := listeners s; state := state s; idleTimeout := idleTimeout s;
     connectionResolved := v;
     connectionTimeout := connectionTimeout s; promise := promise s;
     unanswered := unanswered s |}.
Definition setSock_connectionTimeout v (s : Sock) :=
  {| listeners := listeners s; state := state s; idleTimeout := idleTimeout s;
     connectionResolved := connectionResolved s;
     connectionTimeout := v; promise := promise s;
     unanswered := unanswered s |}.
Definition setSock_promise v (s : Sock) :=
  {| listeners := listeners s; state := state s; idleTimeout := idleTimeout s;
     connectionResolved := connectionResolved s;
     connectionTimeout := connectionTimeout s; promise := v;
     unanswered := unanswered s |}.
Definition setSock_unanswered v (s : Sock) :=
  {| listeners := listeners s; state := state s; idleTimeout := idleTimeout s;
     connectionResolved := connectionResolved s;
     connectionTimeout := connectionTimeout s; promise := promise s;
     unanswered := v |}.

Definition set_socket v (k : Client) :=
  {| socket := v; deviceIp := deviceIp k; isConnectedFlag := isConnectedFlag k;
     timeoutTimer := timeoutTimer k; lastHeartbeatValue := lastHeartbeatValue k;
     lastHeartbeatTime := lastHeartbeatTime k;
     waitingForResponse := waitingForResponse k; sockets := sockets k |}.
Definition set_deviceIp v (k : Client) :=
  {| socket := socket k; deviceIp := v; isConnectedFlag := isConnectedFlag k;
     timeoutTimer := timeoutTimer k; lastHeartbeatValue := lastHeartbeatValue k;
     lastHeartbeatTime := lastHeartbeatTime k;
     waitingForResponse := waitingForResponse k; sockets := sockets k |}.
Definition set_isConnectedFlag v (k : Client) :=
  {| socket := socket k; deviceIp := deviceIp k; isConnectedFlag := v;
     timeoutTimer := timeoutTimer k; lastHeartbeatValue := lastHeartbeatValue k;
     lastHeartbeatTime := lastHeartbeatTime k;
     waitingForResponse := waitingForResponse k; sockets := sockets k |}.
Definition set_timeoutTimer v (k : Client) :=
  {| socket := socket k; deviceIp := deviceIp k; isConnectedFlag := isConnectedFlag k;
     timeoutTimer := v; lastHeartbeatValue := lastHeartbeatValue k;
     lastHeartbeatTime := lastHeartbeatTime k;
     waitingForResponse := waitingForResponse k; sockets := sockets k |}.
Definition set_lastHeartbeatValue v (k : Client) :=
  {| socket := socket k; deviceIp := deviceIp k; isConnectedFlag := isConnectedFlag k;
     timeoutTimer := timeoutTimer k; lastHeartbeatValue := v;
     lastHeartbeatTime := lastHeartbeatTime k;
     waitingForResponse := waitingForResponse k; sockets := sockets k |}.
Definition set_lastHeartbeatTime v (k : Client) :=
  {| socket := socket k; deviceIp := deviceIp k; isConnectedFlag := isConnectedFlag k;
     timeoutTimer := timeoutTimer k; lastHeartbeatValue := lastHeartbeatValue k;
     lastHeartbeatTime := v;
     waitingForResponse := waitingForResponse k; sockets := sockets k |}.
Definition set_waitingForResponse v (k : Client) :=
  {| socket := socket k; deviceIp := deviceIp k; isConnectedFlag := isConnectedFlag k;
     timeoutTimer := timeoutTimer k; lastHeartbeatValue := lastHeartbeatValue k;
     lastHeartbeatTime := lastHeartbeatTime k;
     waitingForResponse := v; sockets := sockets k |}.
Definition set_sockets (f : list Sock → list Sock) (k : Client) :=
  {| socket := socket k; deviceIp := deviceIp k; isConnectedFlag := isConnectedFlag k;
     timeoutTimer := timeoutTimer k; lastHeartbeatValue := lastHeartbeatValue k;
     lastHeartbeatTime := lastHeartbeatTime k;
     waitingForResponse := waitingForResponse k; sockets := f (sockets k) |}.

Definition set_device v (x : MobileConnection) :=
  {| device := v; commandClient := commandClient x;
     heartbeatClient := heartbeatClient x;
     webSocketClients := webSocketClients x; connected := connected x;
     lastActivity := lastActivity x; forwarding := forwarding x;
     pendingConnect := pendingConnect x |}.
Definition set_client (ch : Channel) (f : Client → Client) (x : MobileConnection) :=
  {| device := device x;
     commandClient :=
       match ch with Command => f (commandClient x) | Heartbeat => commandClient x end;
     heartbeatClient :=
       match ch with Command => heartbeatClient x | Heartbeat => f (heartbeatClient x) end;
     webSocketClients := webSocketClients x; connected := connected x;
     lastActivity := lastActivity x; forwarding := forwarding x;
     pendingConnect := pendingConnect x |}.
Definition set_webSocketClients v (x : MobileConnection) :=
  {| device := device x; commandClient := commandClient x;
     heartbeatClient := heartbeatClient x;
     webSocketClients := v; connected := connected x;
     lastActivity := lastActivity x; forwarding := forwarding x;
     pendingConnect := pendingConnect x |}.
Definition set_connected v (x : MobileConnection) :=
  {| device := device x; commandClient := commandClient x;
     heartbeatClient := heartbeatClient x;
     webSocketClients := webSocketClients x; connected := v;
     lastActivity := lastActivity x; forwarding := forwarding x;
     pendingConnect := pendingConnect x |}.
Definition set_lastActivity v (x : MobileConnection) :=
  {| device := device x; commandClient := commandClient x;
     heartbeatClient := heartbeatClient x;
     webSocketClients := webSocketClients x; connected := connected x;
     lastActivity := v; forwarding := forwarding x;
     pendingConnect := pendingConnect x |}.
Definition set_forwarding v (x : MobileConnection) :=
  {| device := device x; commandClient := commandClient x;
     heartbeatClient := heartbeatClient x;
     webSocketClients := webSocketClients x; connected := connected x;
     lastActivity := lastActivity x; forwarding := v;
     pendingConnect := pendingConnect x |}.
Definition set_pendingConnect v (x : MobileConnection) :=
  {| device := device x; commandClient := commandClient x;
     heartbeatClient := heartbeatClient x;
     webSocketClients := webSocketClients x; connected := connected x;
     lastActivity := lastActivity x; forwarding := forwarding x;
     pendingConnect := v |}.

Definition set_now v (w : World) :=
  {| host := host w; now := v; connections := connections w; store := store w;
     timers := timers w; timerCount := timerCount w;
     openClients := openClients w; wsHandlers := wsHandlers w;
     trace := trace w; crashed := crashed w |}.
Definition set_connections v (w : World) :=
  {| host := host w; now := now w; connections := v; store := store w;
     timers := timers w; timerCount := timerCount w;
     openClients := openClients w; wsHandlers := wsHandlers w;
     trace := trace w; crashed := crashed w |}.
Definition set_store v (w : World) :=
  {| host := host w; now := now w; connections := connections w; store := v;
     timers := timers w; timerCount := timerCount w;
     openClients := openClients w; wsHandlers := wsHandlers w;
     trace := trace w; crashed := crashed w |}.
Definition set_timers v n (w : World) :=
  {| host := host w; now := now w; connections := connections w;
     store := store w; timers := v; timerCount := n;
     openClients := openClients w; wsHandlers := wsHandlers w;
     trace := trace w; crashed := crashed w |}.
Definition set_openClients v (w : World) :=
  {| host := host w; now := now w; connections := connections w;
     store := store w; timers := timers w; timerCount := timerCount w;
     openClients := v; wsHandlers := wsHandlers w;
     trace := trace w; crashed := crashed w |}.
Definition set_wsHandlers v (w : World) :=
  {| host := host w; now := now w; connections := connections w;
     store := store w; timers := timers w; timerCount := timerCount w;
     openClients := openClients w; wsHandlers := v;
     trace := trace w; crashed := crashed w |}.
Definition set_trace v (w : World) :=
  {| host := host w; now := now w; connections := connections w;
     store := store w; timers := timers w; timerCount := timerCount w;
     openClients := openClients w; wsHandlers := wsHandlers w;
     trace := v; crashed := crashed w |}.
Definition set_crashed v (w : World) :=
  {| host := host w; now := now w; connections := connections w;
     store := store w; timers := timers w; timerCount := timerCount w;
     openClients := openClients w; wsHandlers := wsHandlers w;
     trace := trace w; crashed := v |}.


(** *** Effects: state, exceptions and the trace *)

Inductive Outcome (A : Type) :=
| Done (a : A) (w : World)
| Thrown (e : string) (w : World).
Arguments Done {A} a w.
Arguments Thrown {A} e w.

Definition M (A : Type) : Type := World → Outcome A.

Definition ret {A} (a : A) : M A := λ w, Done a w.
Definition bind {A B} (m : M A) (k : A → M B) : M B :=
  λ w, match m w with
       | Done a w' => k a w'
       | Thrown e w' => Thrown e w'
       end.
Definition throw {A} (e : string) : M A := λ w, Thrown e w.
Definition tryCatch {A} (m : M A) (handler : string → M A) : M A :=
  λ w, match m w with
       | Done a w' => Done a w'
       | Thrown e w' => handler e w'
       end.
Definition get : M World := λ w, Done w w.
Definition modify (f : World → World) : M unit := λ w, Done tt (f w).
Definition final {A} (o : Outcome A) : World :=
  match o with Done _ w | Thrown _ w => w end.

Declare Scope js_scope.
Delimit Scope js_scope with js.
Notation "x <- m ;; k" := (bind m (fun x => k))
  (at level 100, m at next level, right associativity) : js_scope.
Notation "m ;; k" := (bind m (fun _ => k))
  (at level 100, right associativity) : js_scope.
Local Open Scope js_scope.

Definition when (b : bool) (m : M unit) : M unit := if b then m else ret tt.

Fixpoint forEach {A} (l : list A) (f : A → M unit) : M unit :=
  match l with
  | [] => ret tt
  | x :: rest => f x ;; forEach rest f
  end.

Definition effect (e : Effect) : M unit :=
  modify (λ w, set_trace (trace w ++ [e]) w).

Definition wsSend (ws : nat) (m : WsMsg) : M unit := effect (WsSend ws m).

Definition client (ch : Channel) (x : MobileConnection) : Client :=
  match ch with Command => commandClient x | Heartbeat => heartbeatClient x end.

(** Reading through a reference.  A reference always names an object; for
    an index that names nothing a blank object is read, and writing through
    it changes nothing. *)
Definition blankConnection : MobileConnection :=
  {| device := {| dev_id := ""; dev_name := ""; dev_ip := "";
                  deviceInfo := None; pushedInfo := [] |};
     commandClient := newClient; heartbeatClient := newClient;
     webSocketClients := []; connected := false; lastActivity := 0;
     forwarding := false; pendingConnect := None |}.

Definition getConn (c : nat) : M MobileConnection :=
  λ w, Done (default blankConnection (store w !! c)) w.
Definition updConn (c : nat) (f : MobileConnection → MobileConnection) : M unit :=
  modify (λ w, set_store (alter f c (store w)) w).
Definition getClient (c : nat) (ch : Channel) : M Client :=
  x <- getConn c ;; ret (client ch x).
Definition updClient (c : nat) (ch : Channel) (f : Client → Client) : M unit :=
  updConn c (set_client ch f).
Definition getSock (c : nat) (ch : Channel) (sid : nat) : M Sock :=
  k <- getClient c ch ;; ret (default newSock (sockets k !! sid)).
Definition updSock (c : nat) (ch : Channel) (sid : nat) (f : Sock → Sock) : M unit :=
  updClient c ch (set_sockets (alter f sid)).

(** [this.socket?.f()] *)
Definition withSocket (c : nat) (ch : Channel) (f : nat → M unit) : M unit :=
  k <- getClient c ch ;;
  match socket k with
  | Some sid => f sid
  | None => ret tt
  end.

Definition setTimeout (cb : TimerCb) (ms : Z) : M nat :=
  λ w, let t := timerCount w in
       Done t (set_timers
                 (timers w ++ [{| tid := t; delay := ms; due := now w + ms;
                                  callback := cb |}])
                 (S t) w).
Definition clearTimeout (t : nat) : M unit :=
  modify (λ w, set_timers (filter (λ x, tid x ≠ t) (timers w)) (timerCount w) w).

(** [socket.destroy()]: the runtime closes the socket; its ['close'] event
    follows later if handlers are still attached. *)
Definition destroy (c : nat) (ch : Channel) (sid : nat) : M unit :=
  s <- getSock c ch sid ;;
  match state s with
  | Connecting | Open =>
      updSock c ch sid (setSock_state Destroyed) ;;
      effect (SockDestroy c ch sid)
  | Destroyed | Closed => ret tt
  end.
Definition removeAllListeners (c : nat) (ch : Channel) (sid : nat) : M unit :=
  updSock c ch sid (setSock_listeners false).
Definition socketSetTimeout (c : nat) (ch : Channel) (sid : nat) (ms : Z) : M unit :=
  updSock c ch sid (setSock_idleTimeout ms).

(** The JavaScript [Map] of the manager. *)
Fixpoint mapGet {V} (k : string) (m : list (string * V)) : option V :=
  match m with
  | [] => None
  | (k', v) :: rest => if String.eqb k k' then Some v else mapGet k rest
  end.
Fixpoint mapSet {V} (k : string) (v : V) (m : list (string * V)) : list (string * V) :=
  match m with
  | [] => [(k, v)]
  | (k', v') :: rest =>
      if String.eqb k k' then (k', v) :: rest else (k', v') :: mapSet k v rest
  end.
Definition mapDelete {V} (k : string) (m : list (string * V)) : list (string * V) :=
  List.filter (λ kv, negb (String.eqb k (fst kv))) m.

(** *** tcp-client.ts: both clients *)

Definition isConnected (c : nat) (ch : Channel) : M bool :=
  k <- getClient c ch ;; ret (isConnectedFlag k).

Definition stopTimeoutTimer (c : nat) : M unit :=
  k <- getClient c Heartbeat ;;
  match timeoutTimer k with
  | Some t =>
      clearTimeout t ;;
      updClient c Heartbeat (set_timeoutTimer None)
  | None => ret tt
  end.

Definition stopHeartbeat (c : nat) : M unit := stopTimeoutTimer c.

Definition startTimeoutTimer (c : nat) : M unit :=
  stopTimeoutTimer c ;;
  t <- setTimeout (HbLiveness c) 5000 ;;
  updClient c Heartbeat (set_timeoutTimer (Some t)).

Definition sendHeartbeat (c : nat) : M unit :=
  k <- getClient c Heartbeat ;;
  match socket k with
  | Some sid =>
      if negb (isConnectedFlag k) || waitingForResponse k then ret tt
      else
        w <- get ;;
        effect (SockWrite c Heartbeat sid
                  (JObj [("ip", JStr (getLocalIP (host w)));
                         ("value", add1 (lastHeartbeatValue k));
                         ("time", JNum (now w))])) ;;
        updSock c Heartbeat sid (λ s, setSock_unanswered (S (unanswered s)) s) ;;
        updClient c Heartbeat (set_waitingForResponse true) ;;
        updClient c Heartbeat (set_lastHeartbeatTime (now w)) ;;
        startTimeoutTimer c
  | None => ret tt
  end.

Definition sendCommand (c : nat) (cmd : Z) (data : Json) : M unit :=
  k <- getClient c Command ;;
  match socket k with
  | Some sid =>
      if negb (isConnectedFlag k) then ret tt
      else effect (SockWrite c Command sid
                     (JObj [("cmd", JNum cmd); ("data", data)]))
  | None => ret tt
  end.

Definition desktopInfo (h : Host) : Json :=
  JObj [("name", JStr (if String.eqb (hostname h) ""
                       then "AirController Server" else hostname h));
        ("platform", JNum 6);
        ("ip", JStr (getLocalIP h));
        ("version", JStr "1.0.0")].

Definition reportDesktopInfo (c : nat) : M unit :=
  w <- get ;;
  sendCommand c PROTOCOL.CMD_REPORT_DESKTOP_INFO (desktopInfo (host w)).

Definition cmd_disconnect (c : nat) : M unit :=
  withSocket c Command (λ sid,
    destroy c Command sid ;;
    updClient c Command (set_socket None)) ;;
  updClient c Command (set_isConnectedFlag false).

Definition hb_disconnect (c : nat) : M unit :=
  stopHeartbeat c ;;
  withSocket c Heartbeat (λ sid,
    destroy c Heartbeat sid ;;
    updClient c Heartbeat (set_socket None)) ;;
  updClient c Heartbeat (set_isConnectedFlag false).

(** The synchronous part of [connect]: everything the promise executor
    does.  The result names the new socket; the promise of the call is the
    [promise] of that socket. *)
Definition cmd_connect (c : nat) (ip : string) : M nat :=
  updClient c Command (set_deviceIp ip) ;;
  withSocket c Command (λ old,
    removeAllListeners c Command old ;;
    destroy c Command old) ;;
  k <- getClient c Command ;;
  let sid := length (sockets k) in
  updClient c Command (λ k, set_socket (Some sid) (set_sockets (λ l, l ++ [newSock]) k)) ;;
  t <- setTimeout (CmdConnectionTimeout c sid) 10000 ;;
  updSock c Command sid (setSock_connectionTimeout (Some t)) ;;
  effect (SockConnect c Command sid PORTS.CMD ip) ;;
  ret sid.

Definition hb_connect (c : nat) (ip : string) : M nat :=
  updClient c Heartbeat (set_deviceIp ip) ;;
  updClient c Heartbeat (set_lastHeartbeatValue (JNum (-1))) ;;
  updClient c Heartbeat (set_lastHeartbeatTime 0) ;;
  updClient c Heartbeat (set_waitingForResponse false) ;;
  withSocket c Heartbeat (λ old,
    stopHeartbeat c ;;
    removeAllListeners c Heartbeat old ;;
    destroy c Heartbeat old) ;;
  k <- getClient c Heartbeat ;;
  let sid := length (sockets k) in
  updClient c Heartbeat (λ k, set_socket (Some sid) (set_sockets (λ l, l ++ [newSock]) k)) ;;
  socketSetTimeout c Heartbeat sid 10000 ;;
  effect (SockConnect c Heartbeat sid PORTS.HEARTBEAT ip) ;;
  ret sid.


(** *** device-connection-manager.ts: fan-out and disconnection *)

Definition isOpen (ws : nat) (w : World) : bool :=
  bool_decide (ws ∈ openClients w).

Definition broadcastToClients (clients : list nat) (message : WsMsg) : M unit :=
  forEach clients (λ ws,
    w <- get ;;
    when (isOpen ws w) (wsSend ws message)).

Definition handleDeviceDisconnection (c : nat) : M unit :=
  commandConnected <- isConnected c Command ;;
  heartbeatConnected <- isConnected c Heartbeat ;;
  if negb commandConnected && negb heartbeatConnected then
    updConn c (set_connected false) ;;
    x <- getConn c ;;
    broadcastToClients (webSocketClients x) (DeviceDisconnected (device x)) ;;
    _ <- setTimeout (GraceClose c) 5000 ;;
    ret tt
  else
    (if negb commandConnected && heartbeatConnected
     then _ <- setTimeout (ReconnectCommand c) 2000 ;; ret tt
     else ret tt) ;;
    (if commandConnected && negb heartbeatConnected
     then _ <- setTimeout (ReconnectHeartbeat c) 2000 ;; ret tt
     else ret tt).

Definition closeConnection (deviceIp : string) : M unit :=
  w <- get ;;
  match mapGet deviceIp (connections w) with
  | Some c =>
      cmd_disconnect c ;;
      hb_disconnect c ;;
      x <- getConn c ;;
      broadcastToClients (webSocketClients x) (ConnectionClosed (device x)) ;;
      modify (λ w, set_connections (mapDelete deviceIp (connections w)) w)
  | None => ret tt
  end.

Definition pushInfo (data : Json) (d : Device) : Device :=
  {| dev_id := dev_id d; dev_name := dev_name d; dev_ip := dev_ip d;
     deviceInfo := deviceInfo d; pushedInfo := pushedInfo d ++ [data] |}.

(** [this.emit(ev)] on the client of channel [ch] of record [c]: the
    listeners registered by [setupEventForwarding] run at once.  No
    listener for ['error'] is registered anywhere in the server, and an
    [EventEmitter] throws an ['error'] that nobody listens to. *)
Definition emit (c : nat) (ch : Channel) (ev : ClientEvent) : M unit :=
  effect (Emit c ch ev) ;;
  x <- getConn c ;;
  match ev, ch with
  | EError e, _ => throw e
  | EDisconnected, _ => when (forwarding x) (handleDeviceDisconnection c)
  | EHeartbeat _, Heartbeat =>
      when (forwarding x)
        (w <- get ;; updConn c (set_lastActivity (now w)))
  | EMobileInfo data, Command =>
      when (forwarding x)
        (updConn c (λ x, set_device (pushInfo data (device x)) x) ;;
         broadcastToClients (webSocketClients x)
           (MobileInfoUpdate (dev_id (device x)) data))
  | ECommand message, Command =>
      when (forwarding x)
        (broadcastToClients (webSocketClients x) (CommandReceived message))
  | _, _ => ret tt
  end.

(** *** device-connection-manager.ts: connectToDevice *)

Definition setAdd (ws : nat) (s : list nat) : list nat :=
  if bool_decide (ws ∈ s) then s else s ++ [ws].
Definition setDelete (ws : nat) (s : list nat) : list nat :=
  filter (λ x, x ≠ ws) s.

Definition setupWebSocketHandling (ws c : nat) : M unit :=
  modify (λ w, set_wsHandlers (wsHandlers w ++ [(ws, c)]) w).

Definition setupEventForwarding (c : nat) : M unit :=
  updConn c (set_forwarding true).

(** Lines 100-104: what follows the [if] in both branches. *)
Definition attach (c ws : nat) : M unit :=
  updConn c (λ x, set_webSocketClients (setAdd ws (webSocketClients x)) x) ;;
  setupWebSocketHandling ws c.

Definition newConnection (d : Device) (t : Z) : MobileConnection :=
  {| device := d; commandClient := newClient; heartbeatClient := newClient;
     webSocketClients := []; connected := false; lastActivity := t;
     forwarding := false; pendingConnect := None |}.

(** The call up to its first [await]. *)
Definition connectToDevice (d : Device) (ws : nat) : M unit :=
  w <- get ;;
  match mapGet (dev_ip d) (connections w) with
  | None =>
      let c := length (store w) in
      modify (λ w, set_store (store w ++ [newConnection d (now w)]) w) ;;
      modify (λ w, set_connections (mapSet (dev_ip d) c (connections w)) w) ;;
      sid <- cmd_connect c (dev_ip d) ;;
      updConn c (set_pendingConnect (Some (Command, sid, ws)))
  | Some c =>
      wsSend ws (ConnectionSuccess d) ;;
      attach c ws
  end.

(** The [catch] block, lines 73-89. *)
Definition connectToDevice_catch (c ws : nat) (error : string) : M unit :=
  x <- getConn c ;;
  cmd_disconnect c ;;
  hb_disconnect c ;;
  modify (λ w, set_connections (mapDelete (dev_ip (device x)) (connections w)) w) ;;
  wsSend ws (ConnectionError "Failed to connect to device" (Some (device x))) ;;
  throw error.

(** The call from the [await] on channel [ch] onwards, the awaited promise
    having settled as [r]. *)
Definition connectToDevice_resume (c : nat) (ch : Channel) (r : Promise) (ws : nat)
  : M unit :=
  match r, ch with
  | Rejected error, _ => connectToDevice_catch c ws error
  | _, Command =>
      x <- getConn c ;;
      sid <- hb_connect c (dev_ip (device x)) ;;
      updConn c (set_pendingConnect (Some (Heartbeat, sid, ws)))
  | _, Heartbeat =>
      updConn c (set_connected true) ;;
      setupEventForwarding c ;;
      effect (FetchMobileInfo c) ;;
      x <- getConn c ;;
      wsSend ws (ConnectionSuccess (device x)) ;;
      attach c ws
  end.

(** websocket-server.ts, case ['connect:device']: the [try]/[catch] around
    the awaited [connectToDevice]. *)
Definition router_connectDevice (d : Device) (ws : nat) : M unit :=
  tryCatch (connectToDevice d ws)
           (λ error, wsSend ws (ConnectionError error None)).

Definition router_resume (c : nat) (ch : Channel) (r : Promise) (ws : nat) : M unit :=
  tryCatch (connectToDevice_resume c ch r ws)
           (λ error, wsSend ws (ConnectionError error None)).

(** [resolve()] or [reject(e)] of the [connect] call that made socket
    [sid]; a settled promise stays as it is.  The suspended
    [connectToDevice], if it waits for this promise, goes on. *)
Definition settle (c : nat) (ch : Channel) (sid : nat) (r : Promise) : M unit :=
  s <- getSock c ch sid ;;
  match promise s with
  | Pending =>
      updSock c ch sid (setSock_promise r) ;;
      x <- getConn c ;;
      match pendingConnect x with
      | Some (ch', sid', ws) =>
          if bool_decide (ch' = ch ∧ sid' = sid) then
            updConn c (set_pendingConnect None) ;;
            router_resume c ch r ws
          else ret tt
      | None => ret tt
      end
  | _ => ret tt
  end.


(** *** tcp-client.ts: the handlers of the command socket *)

(** The callback of [socket.connect], lines 45-59. *)
Definition cmd_onConnect (c sid : nat) : M unit :=
  s <- getSock c Command sid ;;
  match connectionTimeout s with
  | Some t => clearTimeout t
  | None => ret tt
  end ;;
  updClient c Command (set_isConnectedFlag true) ;;
  updSock c Command sid (setSock_connectionResolved true) ;;
  emit c Command EConnected ;;
  reportDesktopInfo c ;;
  withSocket c Command (λ cur, socketSetTimeout c Command cur 0) ;;
  settle c Command sid Resolved.

(** [o.k] as an expression: a [TypeError] on [null]. *)
Definition prop (o : Json) (k : string) : M (option Json) :=
  match o with
  | JNull => throw "TypeError"
  | JObj fields => ret (field k fields)
  | _ => ret None
  end.

Definition handleCommand (c : nat) (message : Json) : M unit :=
  cmd <- prop message "cmd" ;;
  data <- prop message "data" ;;
  match cmd with
  | Some (JNum 1) =>
      match data with
      | None | Some JNull => throw "TypeError"
      | Some d => emit c Command (EMobileInfo d)
      end
  | _ => emit c Command (ECommand message)
  end.

(** [payload] is what [JSON.parse] makes of the received bytes, [None] when
    it throws. *)
Definition cmd_onData (c : nat) (payload : option Json) : M unit :=
  tryCatch
    (match payload with
     | Some message => handleCommand c message
     | None => throw "SyntaxError"
     end)
    (λ _, ret tt).

Definition cmd_onError (c sid : nat) (error : string) : M unit :=
  updClient c Command (set_isConnectedFlag false) ;;
  emit c Command (EError error) ;;
  s <- getSock c Command sid ;;
  if negb (connectionResolved s) then settle c Command sid (Rejected error)
  else emit c Command EDisconnected.

Definition cmd_onClose (c : nat) : M unit :=
  updClient c Command (set_isConnectedFlag false) ;;
  emit c Command EDisconnected.

(** The [connectionTimeout] timer of the call that made socket [sid]. *)
Definition cmd_connectionTimeout (c sid : nat) : M unit :=
  connected <- isConnected c Command ;;
  if negb connected then
    withSocket c Command (λ cur, destroy c Command cur) ;;
    settle c Command sid (Rejected "Connection timeout")
  else ret tt.

(** *** tcp-client.ts: the handlers of the heartbeat socket *)

Definition hb_onConnect (c sid : nat) : M unit :=
  updClient c Heartbeat (set_isConnectedFlag true) ;;
  updSock c Heartbeat sid (setSock_connectionResolved true) ;;
  emit c Heartbeat EConnected ;;
  withSocket c Heartbeat (λ cur, socketSetTimeout c Heartbeat cur 0) ;;
  sendHeartbeat c ;;
  settle c Heartbeat sid Resolved.

Definition hb_onData (c sid : nat) (payload : option Json) : M unit :=
  tryCatch
    (match payload with
     | Some message =>
         stopTimeoutTimer c ;;
         updClient c Heartbeat (set_waitingForResponse false) ;;
         updSock c Heartbeat sid (λ s, setSock_unanswered (Nat.pred (unanswered s)) s) ;;
         value <- prop message "value" ;;
         updClient c Heartbeat (set_lastHeartbeatValue (or_else value (JNum 0))) ;;
         _ <- setTimeout (HbNextBeat c) 2000 ;;
         emit c Heartbeat (EHeartbeat message)
     | None => throw "SyntaxError"
     end)
    (λ _, ret tt).

Definition hb_onError (c sid : nat) (error : string) : M unit :=
  updClient c Heartbeat (set_isConnectedFlag false) ;;
  stopHeartbeat c ;;
  emit c Heartbeat (EError error) ;;
  s <- getSock c Heartbeat sid ;;
  if negb (connectionResolved s) then settle c Heartbeat sid (Rejected error)
  else emit c Heartbeat EDisconnected.

Definition hb_onClose (c : nat) : M unit :=
  updClient c Heartbeat (set_isConnectedFlag false) ;;
  stopHeartbeat c ;;
  emit c Heartbeat EDisconnected.

Definition hb_onTimeout (c sid : nat) : M unit :=
  connected <- isConnected c Heartbeat ;;
  if negb connected then
    withSocket c Heartbeat (λ cur, destroy c Heartbeat cur) ;;
    s <- getSock c Heartbeat sid ;;
    if negb (connectionResolved s)
    then settle c Heartbeat sid (Rejected "Connection timeout")
    else ret tt
  else ret tt.

(** The timer set by the data handler, lines 251-255. *)
Definition hb_nextBeat (c : nat) : M unit :=
  connected <- isConnected c Heartbeat ;;
  when connected (sendHeartbeat c).

(** The timer set by [startTimeoutTimer], lines 330-339. *)
Definition hb_liveness (c : nat) : M unit :=
  emit c Heartbeat ETimeout ;;
  connected <- isConnected c Heartbeat ;;
  when connected (hb_disconnect c ;; emit c Heartbeat EDisconnected).

(** *** device-connection-manager.ts: the timers of handleDeviceDisconnection *)

Definition graceClose (c : nat) : M unit :=
  commandConnected <- isConnected c Command ;;
  heartbeatConnected <- isConnected c Heartbeat ;;
  if negb commandConnected && negb heartbeatConnected then
    x <- getConn c ;;
    closeConnection (dev_ip (device x))
  else ret tt.

Definition reconnectCommand (c : nat) : M unit :=
  commandConnected <- isConnected c Command ;;
  heartbeatConnected <- isConnected c Heartbeat ;;
  if negb commandConnected && heartbeatConnected then
    x <- getConn c ;;
    _ <- cmd_connect c (dev_ip (device x)) ;;
    ret tt
  else ret tt.

Definition reconnectHeartbeat (c : nat) : M unit :=
  commandConnected <- isConnected c Command ;;
  heartbeatConnected <- isConnected c Heartbeat ;;
  if commandConnected && negb heartbeatConnected then
    x <- getConn c ;;
    _ <- hb_connect c (dev_ip (device x)) ;;
    ret tt
  else ret tt.

Definition runTimer (cb : TimerCb) : M unit :=
  match cb with
  | CmdConnectionTimeout c sid => cmd_connectionTimeout c sid
  | HbNextBeat c => hb_nextBeat c
  | HbLiveness c => hb_liveness c
  | GraceClose c => graceClose c
  | ReconnectCommand c => reconnectCommand c
  | ReconnectHeartbeat c => reconnectHeartbeat c
  end.

(** The handlers that [setupWebSocketHandling] put on a WebSocket client:
    lines 187-202. *)
Definition ws_onClose (ws c : nat) : M unit :=
  updConn c (λ x, set_webSocketClients (setDelete ws (webSocketClients x)) x).


(** *** device-connection-manager.ts: the queries *)

Definition getConnections (w : World) : list MobileConnection :=
  map (λ c, default blankConnection (store w !! c)) (map snd (connections w)).

Definition isDeviceConnected (deviceIp : string) (w : World) : bool :=
  match mapGet deviceIp (connections w) with
  | Some c => connected (default blankConnection (store w !! c))
  | None => false
  end.

Definition hasActiveConnections (w : World) : bool :=
  existsb connected (getConnections w).


(** *** device-connection-manager.ts: the relay to the device's HTTP API *)

(** A message of a WebSocket client after [JSON.parse]. *)
Record Message := {
  msg_type : string;
  msg_payload : option Json;
  msg_id : option Json;
}.

(** [o?.k] *)
Definition optProp (o : option Json) (k : string) : option Json :=
  match o with
  | Some (JObj fields) => field k fields
  | _ => None
  end.

Fixpoint mapM {A B} (f : A → M B) (l : list A) : M (list B) :=
  match l with
  | [] => ret []
  | x :: rest => y <- f x ;; ys <- mapM f rest ;; ret (y :: ys)
  end.

(** [a.map(f)]: a [TypeError] unless [a] is an array. *)
Definition arrayMap {B} (a : Json) (f : Json → M B) : M (list B) :=
  match a with
  | JArr l => mapM f l
  | _ => throw "TypeError"
  end.

Definition deviceUrl (x : MobileConnection) (endpoint : string) : string :=
  "http://" +:+ dev_ip (device x) +:+ ":" +:+ pretty PORTS.HTTP +:+ endpoint.

(** [resp] is the device's answer to the call. *)
Definition makeHttpRequest
    (c : nat) (endpoint method : string) (data : option Json) (resp : HttpResult)
  : M Json :=
  x <- getConn c ;;
  effect (HttpCall {| http_method := method; http_url := deviceUrl x endpoint;
                      http_data := data; http_timeout := 30000 |}) ;;
  match resp with
  | HttpOk body => ret body
  | HttpFail message => throw message
  end.

Definition relay (ws : nat) (id : option Json) (failure : string) (m : M unit) : M unit :=
  tryCatch m (λ _, wsSend ws (ErrorReply id failure)).

Definition getDeviceInfo (c ws : nat) (id : option Json) (resp : HttpResult) : M unit :=
  relay ws id "Failed to get device info"
    (info <- makeHttpRequest c "/device/info" "GET" None resp ;;
     wsSend ws (Reply id "device:info:response" (DataJson info))).

Definition lowerChar (a : ascii) : ascii :=
  if between "A" "Z" a then ascii_of_N (N_of_ascii a + 32) else a.

Fixpoint toLowerCase (s : string) : string :=
  match s with
  | EmptyString => EmptyString
  | String a rest => String (lowerChar a) (toLowerCase rest)
  end.

Definition mimeTypes : list (string * string) :=
  [("pdf", "application/pdf");
   ("doc", "application/msword");
   ("docx", "application/vnd.openxmlformats-officedocument.wordprocessingml.document");
   ("xls", "application/vnd.ms-excel");
   ("xlsx", "application/vnd.openxmlformats-officedocument.spreadsheetml.sheet");
   ("ppt", "application/vnd.ms-powerpoint");
   ("pptx", "application/vnd.openxmlformats-officedocument.presentationml.presentation");
   ("txt", "text/plain");
   ("jpg", "image/jpeg");
   ("jpeg", "image/jpeg");
   ("png", "image/png");
   ("gif", "image/gif");
   ("mp4", "video/mp4");
   ("mp3", "audio/mpeg");
   ("zip", "application/zip");
   ("rar", "application/x-rar-compressed")].

(** Properties that [mimeTypes] inherits from [Object.prototype] are not
    looked at. *)
Definition getMimeType (filename : option Json) : M (option string) :=
  match filename with
  | Some (JStr s) =>
      let ext := toLowerCase (List.last (split "." s) "") in
      ret (if String.eqb ext "" then None else mapGet ext mimeTypes)
  | _ => throw "TypeError"
  end.

Definition optField (k : string) (v : option Json) : list (string * Json) :=
  match v with
  | Some x => [(k, x)]
  | None => []
  end.

(** One entry of the reshaped file list; ["modified"] holds the argument of
    [new Date], not the date made from it. *)
Definition fileItem (file : Json) : M (list (string * Json)) :=
  folder <- prop file "folder" ;;
  name <- prop file "name" ;;
  isDir <- prop file "isDir" ;;
  size <- prop file "size" ;;
  changeDate <- prop file "changeDate" ;;
  let fullPath := toStringU folder +:+ "/" +:+ toStringU name in
  mimeType <- (if truthy isDir then ret None else getMimeType name) ;;
  ret ([("id", JStr fullPath)] ++ optField "name" name
       ++ [("path", JStr fullPath);
           ("type", JStr (if truthy isDir then "folder" else "file"));
           ("size", or_else size (JNum 0))]
       ++ optField "modified" changeDate
       ++ optField "mimeType" (JStr <$> mimeType)).

(** [response?.data] of a response body. *)
Definition dataOf (body : Json) : option Json :=
  match body with
  | JObj fields => field "data" fields
  | _ => None
  end.

Definition getFileList (c ws : nat) (path : Json) (id : option Json) (resp : HttpResult)
  : M unit :=
  relay ws id "Failed to get file list"
    (response <- makeHttpRequest c "/file/list" "POST"
                   (Some (JObj [("path", or_else (Some path) (JStr ""))])) resp ;;
     files <- arrayMap (or_else (dataOf response) (JArr [])) fileItem ;;
     wsSend ws (Reply id "file:list:response" (DataFiles files))).

Definition downloadFile (c ws : nat) (path : option Json) (id : option Json)
    (resp : HttpResult) : M unit :=
  relay ws id "Failed to download file"
    (data <- makeHttpRequest c
               ("/file/download?path=" +:+ encodeURIComponent (toStringU path))
               "GET" None resp ;;
     wsSend ws (Reply id "file:download:response" (DataJson data))).

Definition uploadFile (c ws : nat) (payload : option Json) (id : option Json) : M unit :=
  relay ws id "Failed to upload file"
    (wsSend ws (Reply id "file:upload:response" DataSuccess)).

Definition deleteFile (c ws : nat) (path : option Json) (id : option Json)
    (resp : HttpResult) : M unit :=
  relay ws id "Failed to delete file"
    (_ <- makeHttpRequest c "/file" "DELETE" (Some (JObj (optField "path" path))) resp ;;
     wsSend ws (Reply id "file:delete:response" DataSuccess)).

(** [{...image}]: the own enumerable properties of a value. *)
Definition spread (v : Json) : list (string * Json) :=
  match v with
  | JObj fields => fields
  | JArr l => imap (λ i x, (pretty i, x)) l
  | JStr s => imap (λ i a, (pretty i, JStr (String a ""))) (list_ascii_of_string s)
  | _ => []
  end.

(** [{...o, k: v}] *)
Definition withField (k : string) (v : Json) (fields : list (string * Json))
  : list (string * Json) :=
  if bool_decide (k ∈ map fst fields)
  then map (λ kv, if String.eqb (fst kv) k then (k, v) else kv) fields
  else fields ++ [(k, v)].

Definition thumbnailUrl (x : MobileConnection) (image : Json) : M string :=
  path <- prop image "path" ;;
  ret (deviceUrl x ("/stream/thumbnail?path=" +:+ encodeURIComponent (toStringU path))).

Definition getImages (c ws : nat) (id : option Json) (albumId : option Json)
    (resp : HttpResult) : M unit :=
  relay ws id "Failed to get images"
    (let endpoint := if truthy albumId then "/image/imagesOfAlbum" else "/image/all" in
     let body := if truthy albumId then JObj (optField "id" albumId) else JObj [] in
     response <- makeHttpRequest c endpoint "POST" (Some body) resp ;;
     x <- getConn c ;;
     images <- arrayMap (or_else (dataOf response) (JArr []))
                 (λ image,
                    url <- thumbnailUrl x image ;;
                    ret (JObj (withField "thumbnailUrl" (JStr url) (spread image)))) ;;
     wsSend ws (Reply id "image:list:response" (DataJson (JArr images)))).

Definition getAlbums (c ws : nat) (id : option Json) (resp : HttpResult) : M unit :=
  relay ws id "Failed to get albums"
    (response <- makeHttpRequest c "/image/albums" "POST" (Some (JObj [])) resp ;;
     wsSend ws (Reply id "album:list:response"
                  (DataJson (or_else (dataOf response) (JArr []))))).

Definition getContacts (c ws : nat) (id : option Json) (resp : HttpResult) : M unit :=
  relay ws id "Failed to get contacts"
    (contacts <- makeHttpRequest c "/contacts" "GET" None resp ;;
     wsSend ws (Reply id "contact:list:response" (DataJson contacts))).

Definition getApps (c ws : nat) (id : option Json) (resp : HttpResult) : M unit :=
  relay ws id "Failed to get apps"
    (apps <- makeHttpRequest c "/apps" "GET" None resp ;;
     wsSend ws (Reply id "app:list:response" (DataJson apps))).

(** One entry of the reshaped video list.  ["modified"] holds the argument
    of [new Date]; ["duration"] is computed for numbers only and is left out
    otherwise. *)
Definition videoItem (x : MobileConnection) (now : Z) (video : Json)
  : M (list (string * Json)) :=
  vid <- prop video "id" ;;
  name <- prop video "name" ;;
  path <- prop video "path" ;;
  size <- prop video "size" ;;
  lastModifyTime <- prop video "lastModifyTime" ;;
  duration <- prop video "duration" ;;
  let idString :=
    match vid with
    | None | Some JNull => ""
    | Some v => toString v
    end in
  ret ([("id", JStr idString);
        ("name", or_else name (JStr ""));
        ("path", or_else path (JStr ""));
        ("type", JStr "file");
        ("size", or_else size (JNum 0));
        ("modified", or_else lastModifyTime (JNum now))]
       ++ match or_else duration (JNum 0) with
          | JNum z => [("duration", JNum (z / 1000))]
          | _ => []
          end
       ++ [("thumbnailUrl",
            JStr (deviceUrl x ("/stream/video/thumbnail/" +:+ toStringU vid +:+ "/200/200")))]).

Definition getVideos (c ws : nat) (id : option Json) (resp : HttpResult) : M unit :=
  relay ws id "Failed to get videos"
    (response <- makeHttpRequest c "/video/videos" "POST" (Some (JObj [])) resp ;;
     x <- getConn c ;;
     w <- get ;;
     videos <- arrayMap (or_else (dataOf response) (JArr [])) (videoItem x (now w)) ;;
     wsSend ws (Reply id "video:list:response" (DataVideos videos))).

(** The record a message is for when the caller names none: the first one
    the client is attached to, else the first one of the table. *)
Definition resolveConnection (ws : nat) (w : World) : option nat :=
  match
    List.filter
      (λ c, match store w !! c with
            | Some x => bool_decide (ws ∈ webSocketClients x)
            | None => false
            end)
      (map snd (connections w))
  with
  | c :: _ => Some c
  | [] => head (map snd (connections w))
  end.

Definition dispatch (message : Message) (c ws : nat) (resp : HttpResult) : M unit :=
  let type := msg_type message in
  let payload := msg_payload message in
  let id := msg_id message in
  if String.eqb type "device:info" then getDeviceInfo c ws id resp
  else if String.eqb type "file:list" then
    getFileList c ws (or_else (optProp payload "path") (JStr "/")) id resp
  else if String.eqb type "file:download" then
    downloadFile c ws (optProp payload "path") id resp
  else if String.eqb type "file:upload" then uploadFile c ws payload id
  else if String.eqb type "file:delete" then
    deleteFile c ws (optProp payload "path") id resp
  else if String.eqb type "image:list" then
    getImages c ws id (optProp payload "albumId") resp
  else if String.eqb type "album:list" then getAlbums c ws id resp
  else if String.eqb type "contact:list" then getContacts c ws id resp
  else if String.eqb type "app:list" then getApps c ws id resp
  else if String.eqb type "video:list" then getVideos c ws id resp
  else if String.eqb type "heartbeat" then
    w <- get ;; wsSend ws (HeartbeatAck (now w))
  else if String.eqb type "register" then wsSend ws RegisterAck
  else
    when (truthy id)
      (wsSend ws (ErrorReply id ("Unknown message type: " +:+ type))).

Definition handleWebSocketMessage
    (message : Message) (connection : option nat) (ws : nat) (resp : HttpResult)
  : M unit :=
  w <- get ;;
  match
    match connection with
    | Some c => Some c
    | None => resolveConnection ws w
    end
  with
  | Some c => dispatch message c ws resp
  | None =>
      when (truthy (msg_id message))
        (wsSend ws (ErrorReply (msg_id message) "No device connected"))
  end.

(** The ['message'] handler that [setupWebSocketHandling] put on [ws] for
    record [c], lines 174-185. *)
Definition ws_onMessage (ws c : nat) (message : Message) (resp : HttpResult) : M unit :=
  tryCatch (handleWebSocketMessage message (Some c) ws resp)
           (λ _, wsSend ws (ErrorReply None "Failed to process message")).


(** *** The event loop *)

Inductive SockEvent :=
| SConnect
| SData (payload : option Json)
| SError (error : string)
| SClose
| STimeout.

(** What the runtime hands to the process: a new WebSocket client, a
    client's [connect:device] message, a message or the close of an attached
    client, an event of a TCP socket, a timer that is due, or time passing. *)
Inductive Event :=
| EvWsOpen (ws : nat)
| EvConnectDevice (ws : nat) (d : Device)
| EvMessage (ws c : nat) (message : Message) (resp : HttpResult)
| EvWsClose (ws : nat)
| EvSocket (c : nat) (ch : Channel) (sid : nat) (ev : SockEvent)
| EvTimer (t : nat)
| EvAdvance (ms : Z).

(** Which events a socket can still deliver: none once its handlers are
    removed; after [destroy] only ['close'], once; ['timeout'] only with an
    idle timeout set. *)
Definition sockEnabled (s : Sock) (ev : SockEvent) : bool :=
  listeners s &&
  match ev, state s with
  | SConnect, Connecting => true
  | SData _, Open => true
  | SError _, (Connecting | Open) => true
  | STimeout, (Connecting | Open) => 0 <? idleTimeout s
  | SClose, (Open | Destroyed) => true
  | _, _ => false
  end.

(** The state the runtime gives the socket before its handler runs. *)
Definition sockAfter (ev : SockEvent) (s : Sock) : Sock :=
  match ev with
  | SConnect => setSock_state Open s
  | SError _ => setSock_state Destroyed s
  | SClose => setSock_state Closed s
  | SData _ | STimeout => s
  end.

Definition onSocket (c : nat) (ch : Channel) (sid : nat) (ev : SockEvent) : M unit :=
  match ch, ev with
  | Command, SConnect => cmd_onConnect c sid
  | Command, SData payload => cmd_onData c payload
  | Command, SError e => cmd_onError c sid e
  | Command, SClose => cmd_onClose c
  | Command, STimeout => ret tt
  | Heartbeat, SConnect => hb_onConnect c sid
  | Heartbeat, SData payload => hb_onData c sid payload
  | Heartbeat, SError e => hb_onError c sid e
  | Heartbeat, SClose => hb_onClose c
  | Heartbeat, STimeout => hb_onTimeout c sid
  end.

Definition sockOf (w : World) (c : nat) (ch : Channel) (sid : nat) : option Sock :=
  x ← store w !! c; sockets (client ch x) !! sid.

(** The handler an event runs, [None] when the runtime cannot deliver the
    event in this state. *)
Definition handler (ev : Event) (w : World) : option (M unit) :=
  match ev with
  | EvWsOpen ws =>
      if isOpen ws w then None
      else Some (modify (λ w, set_openClients (openClients w ++ [ws]) w) ;;
                 wsSend ws Greeting)
  | EvConnectDevice ws d =>
      if isOpen ws w then Some (router_connectDevice d ws) else None
  | EvMessage ws c message resp =>
      if isOpen ws w && bool_decide ((ws, c) ∈ wsHandlers w)
      then Some (ws_onMessage ws c message resp) else None
  | EvWsClose ws =>
      if isOpen ws w
      then Some (modify (λ w, set_openClients (setDelete ws (openClients w)) w) ;;
                 forEach (filter (λ h, h.1 = ws) (wsHandlers w))
                         (λ h, ws_onClose ws h.2))
      else None
  | EvSocket c ch sid e =>
      match sockOf w c ch sid with
      | Some s =>
          if sockEnabled s e
          then Some (updSock c ch sid (sockAfter e) ;; onSocket c ch sid e)
          else None
      | None => None
      end
  | EvTimer t =>
      match filter (λ x, tid x = t) (timers w) with
      | x :: _ =>
          if due x <=? now w
          then Some (clearTimeout t ;; runTimer (callback x))
          else None
      | [] => None
      end
  | EvAdvance ms =>
      if 0 <=? ms then Some (modify (λ w, set_now (now w + ms) w)) else None
  end.

(** One turn of the loop.  An exception that no handler catches ends the
    process. *)
Definition deliver (w : World) (ev : Event) : World :=
  match crashed w with
  | Some _ => w
  | None =>
      match handler ev w with
      | None => w
      | Some m =>
          match m w with
          | Done _ w' => w'
          | Thrown e w' => set_crashed (Some e) w'
          end
      end
  end.

Definition run (w : World) (evs : list Event) : World := fold_left deliver evs w.

(** Every event of the list finds its handler when its turn comes, and the
    process is alive to run it. *)
Fixpoint allDelivered (w : World) (evs : list Event) : bool :=
  match evs with
  | [] => true
  | ev :: evs =>
      bool_decide (crashed w = None) && bool_decide (is_Some (handler ev w))
      && allDelivered (deliver w ev) evs
  end.

(** *** Observations on traces *)

Definition sentTo (ws : nat) (type : string) (e : Effect) : bool :=
  match e with
  | WsSend ws' m => (ws' =? ws)%nat && String.eqb (msgType m) type
  | _ => false
  end.

Definition isTcpWrite (e : Effect) : bool :=
  match e with SockWrite _ _ _ _ => true | _ => false end.

Definition isHttpCall (e : Effect) : bool :=
  match e with HttpCall _ => true | _ => false end.

Definition isSent (type : string) (e : Effect) : bool :=
  match e with
  | WsSend _ m => String.eqb (msgType m) type
  | _ => false
  end.

Definition count (p : Effect → bool) (es : list Effect) : nat :=
  length (List.filter p es).

Fixpoint position (p : Effect → bool) (es : list Effect) : option nat :=
  match es with
  | [] => None
  | e :: rest => if p e then Some 0%nat else S <$> position p rest
  end.

(** The first [p] in the trace comes before the first [q]. *)
Definition before (p q : Effect → bool) (es : list Effect) : bool :=
  match position p es, position q es with
  | Some i, Some j => (i <? j)%nat
  | _, _ => false
  end.

Definition isEmitted (ch : Channel) (ev : ClientEvent) (e : Effect) : bool :=
  match e, ev with
  | Emit _ ch' EConnected, EConnected
  | Emit _ ch' EDisconnected, EDisconnected
  | Emit _ ch' ETimeout, ETimeout => bool_decide (ch' = ch)
  | _, _ => false
  end.

Definition isSockConnect (ch : Channel) (e : Effect) : bool :=
  match e with
  | SockConnect _ ch' _ _ _ => bool_decide (ch' = ch)
  | _ => false
  end.

Definition isSockDestroy (e : Effect) : bool :=
  match e with SockDestroy _ _ _ => true | _ => false end.

(** The effects of [w'] that [w] did not have yet. *)
Definition since (w w' : World) : list Effect :=
  drop (length (trace w)) (trace w').

(** What [disconnect] of a client tells the runtime: to destroy the current
    socket, unless that socket is destroyed or closed already. *)
Definition destroys (c : nat) (ch : Channel) (k : Client) : list Effect :=
  match socket k with
  | Some sid =>
      match state (default newSock (sockets k !! sid)) with
      | Connecting | Open => [SockDestroy c ch sid]
      | Destroyed | Closed => []
      end
  | None => []
  end.

(** The state of a socket after [destroy]. *)
Definition afterDestroy (st : SockState) : SockState :=
  match st with
  | Connecting | Open => Destroyed
  | Destroyed | Closed => st
  end.



Definition bothDown (x : MobileConnection) : bool :=
  negb (isConnectedFlag (commandClient x)) && negb (isConnectedFlag (heartbeatClient x)).

Definition clientDown (k : Client) : bool :=
  negb (isConnectedFlag k) && bool_decide (socket k = None).

(** A state of a socket in which the runtime delivers nothing but the
    close. *)
Definition spent (s : Sock) : Prop :=
  listeners s = false ∨ state s = Destroyed ∨ state s = Closed.

(** The heartbeat frame with value [v] sent at time [t]. *)
Definition heartbeatFrame (h : Host) (v : Json) (t : Z) : Json :=
  JObj [("ip", JStr (getLocalIP h)); ("value", v); ("time", JNum t)].

Definition pendingCallbacks (w : World) : list (Z * TimerCb) :=
  map (λ t, (delay t, callback t)) (timers w).

(** *** Assertions about computations *)

(** From a world with [P], [m] returns [a] in a world with [Q a], or throws
    in a world with [E]. *)
Definition hoare {A} (P : World → Prop) (m : M A)
    (Q : A → World → Prop) (E : World → Prop) : Prop :=
  ∀ w, P w → match m w with
             | Done a w' => Q a w'
             | Thrown _ w' => E w'
             end.

(** [m] returns, whatever the world it starts in. *)
Definition returns {A} (m : M A) : Prop := ∀ w, ∃ a w', m w = Done a w'.

(** The link of a TCP client: while the client reports connected its
    current socket is open and has its handlers, and every socket that is
    not the current one delivers nothing but its close. *)
Definition linkOk (k : Client) : Prop :=
  (isConnectedFlag k = true →
     ∃ sid s, socket k = Some sid ∧ sockets k !! sid = Some s
              ∧ state s = Open ∧ listeners s = true)
  ∧ (∀ sid s, sockets k !! sid = Some s → socket k ≠ Some sid → spent s).

(** Every record satisfies [R]; every record but [c] satisfies [R] and
    record [c], if there is one, satisfies [φ]. *)
Definition allRecords (R : MobileConnection → Prop) (w : World) : Prop :=
  ∀ c x, store w !! c = Some x → R x.

Definition onRecord (R : MobileConnection → Prop) (c : nat)
    (φ : MobileConnection → Prop) (w : World) : Prop :=
  (∀ c' x, c' ≠ c → store w !! c' = Some x → R x)
  ∧ (∀ x, store w !! c = Some x → φ x).

(** The command client of a record has a sound link. *)
Definition commandOk (x : MobileConnection) : Prop := linkOk (commandClient x).

(** The table of the manager is consistent: no address and no record
    occurs twice, and every address names the record of a device with that
    address. *)
Definition tableOk (w : World) : Prop :=
  NoDup (map fst (connections w)) ∧ NoDup (map snd (connections w))
  ∧ ∀ ip c, (ip, c) ∈ connections w →
      ∃ x, store w !! c = Some x ∧ dev_ip (device x) = ip.

(** [m] only reads the world: it returns or throws in the world it
    started in. *)
Definition reads {A} (m : M A) : Prop :=
  ∀ w, (∃ a, m w = Done a w) ∨ (∃ e, m w = Thrown e w).

(** [t] sends one message with [Φ] to WebSocket client [ws] and returns,
    doing nothing else, or throws without having done anything. *)
Definition replies (ws : nat) (Φ : WsMsg → Prop) (t : M unit) : Prop :=
  ∀ w, (∃ m, Φ m ∧ t w = Done tt (set_trace (trace w ++ [WsSend ws m]) w))
       ∨ (∃ e, t w = Thrown e w).

(** [m] answers the request with correlation id [id]. *)
Definition answersTo (id : option Json) (m : WsMsg) : Prop :=
  (∃ type data, m = Reply id type data) ∨ (∃ error, m = ErrorReply id error).

(** The request types that [handleWebSocketMessage] knows. *)
Definition requestTypes : list string :=
  ["device:info"; "file:list"; "file:download"; "file:upload"; "file:delete";
   "image:list"; "album:list"; "contact:list"; "app:list"; "video:list";
   "heartbeat"; "register"].

(** [m] keeps [P]: from a world with [P] it ends, normally or by an
    exception, in a world with [P]. *)
Definition pres {A} (P : World → Prop) (m : M A) : Prop :=
  ∀ w, P w → P (final (m w)).

(** The trace so far starts with [t0]. *)
Definition extends (t0 : list Effect) (w : World) : Prop :=
  ∃ es, trace w = t0 ++ es.

(** The heartbeat protocol on one client: no socket has more than one
    unanswered heartbeat; a socket that is not the client's current one
    delivers nothing but its close; and while the client is not waiting for
    a response its current socket has no unanswered heartbeat. *)
Record beatOk (k : Client) : Prop := {
  beat_le : ∀ sid s, sockets k !! sid = Some s → (unanswered s ≤ 1)%nat;
  beat_old : ∀ sid s, sockets k !! sid = Some s → socket k ≠ Some sid → spent s;
  beat_cur : ∀ sid s, socket k = Some sid → sockets k !! sid = Some s →
             waitingForResponse k = false → unanswered s = 0%nat;
}.

Definition beatsOk (w : World) : Prop :=
  ∀ c x, store w !! c = Some x → beatOk (heartbeatClient x).

(** Every record but [c] has an acceptable heartbeat client, and that of
    [c], if there is such a record, satisfies [φ]. *)
Definition focus (c : nat) (φ : Client → Prop) (w : World) : Prop :=
  (∀ c' x, c' ≠ c → store w !! c' = Some x → beatOk (heartbeatClient x))
  ∧ (∀ x, store w !! c = Some x → φ (heartbeatClient x)).

(** [beatOk] without its last clause, and the current socket being spent. *)
Definition beatWeak (k : Client) : Prop :=
  (∀ sid s, sockets k !! sid = Some s → (unanswered s ≤ 1)%nat)
  ∧ (∀ sid s, sockets k !! sid = Some s → socket k ≠ Some sid → spent s).

Definition currentSpent (k : Client) : Prop :=
  ∀ sid s, socket k = Some sid → sockets k !! sid = Some s → spent s.

(** [k'] differs from [k] in nothing the heartbeat protocol looks at. *)
Definition sameBeat (k k' : Client) : Prop :=
  socket k' = socket k ∧ waitingForResponse k' = waitingForResponse k
  ∧ sockets k' = sockets k.

(** [k'] is [k] after its current socket, if any, has been taken out of
    service: the same sockets with the same counts, none revived, the
    current one spent. *)
Definition retired (k k' : Client) : Prop :=
  socket k' = socket k
  ∧ length (sockets k') = length (sockets k)
  ∧ ∀ j s', sockets k' !! j = Some s' →
      ∃ s, sockets k !! j = Some s ∧ unanswered s' = unanswered s
           ∧ (spent s → spent s') ∧ (socket k = Some j → spent s').

(** [k'] is [k] after [stopTimeoutTimer]. *)
Definition stopped (k k' : Client) : Prop :=
  k' = k ∨ k' = set_timeoutTimer None k.

(** Record [c] exists. *)
Definition alive (c : nat) (w : World) : Prop := is_Some (store w !! c).

(** [k] as [connect] leaves it: on socket [sid], reset, not waiting. *)
Definition justConnected (sid : nat) (k : Client) : Prop :=
  socket k = Some sid ∧ lastHeartbeatValue k = JNum (-1)
  ∧ waitingForResponse k = false.

(** [k'] is [k] after [destroy] of socket [sid]. *)
Definition destroyed (sid : nat) (k k' : Client) : Prop :=
  (k' = k ∧ ∀ s, sockets k !! sid = Some s → spent s)
  ∨ k' = set_sockets (alter (setSock_state Destroyed) sid) k.

(** Every record satisfies [R], which may depend on the index of the
    record. *)
Definition eachRecord (R : nat → MobileConnection → Prop) (w : World) : Prop :=
  ∀ c x, store w !! c = Some x → R c x.

(** How far a record has come: 0 while [connectToDevice] sets it up, 1
    while it is marked connected, 2 once it has been marked disconnected. *)
Definition stage (x : MobileConnection) : nat :=
  if forwarding x then (if connected x then 1 else 2) else 0.

(** A record is marked connected only after [setupEventForwarding], and no
    call of [connectToDevice] is suspended on a record that has been set
    up. *)
Definition setupOk (x : MobileConnection) : Prop :=
  (connected x = true → forwarding x = true)
  ∧ (forwarding x = true → pendingConnect x = None).

(** The record is sound, and record [c0] has come to stage [n] at least. *)
Definition life (n c0 : nat) (c : nat) (x : MobileConnection) : Prop :=
  setupOk x ∧ (c = c0 → (n ≤ stage x)%nat).

(** As [life], but record [c'] is between two steps of [connectToDevice]:
    not set up, awaited by nobody, [connected] being [b]. *)
Definition settingUp (b : bool) (n c0 c' : nat) (c : nat) (x : MobileConnection) : Prop :=
  if decide (c = c') then
    forwarding x = false ∧ connected x = b ∧ pendingConnect x = None
    ∧ (c = c0 → n = 0%nat)
  else life n c0 c x.

(** [y] has the flags of [x]. *)
Definition sameFlags (x y : MobileConnection) : Prop :=
  connected y = connected x ∧ forwarding y = forwarding x
  ∧ pendingConnect y = pendingConnect x.

(** The store holds [L] records at least. *)
Definition keeps (L : nat) (w : World) : Prop := (L ≤ length (store w))%nat.

(** The frame of [reportDesktopInfo]: command 2 with the description of
    this server. *)
Definition handshakeFrame (h : Host) : Json :=
  JObj [("cmd", JNum 2); ("data", desktopInfo h)].

(** What the server of host [h] may do on the TCP side: write the handshake
    to a command socket and heartbeats to a heartbeat socket, and connect to
    the port of the channel. *)
Definition wireOk (h : Host) (e : Effect) : Prop :=
  match e with
  | SockWrite _ Command _ p => p = handshakeFrame h
  | SockWrite _ Heartbeat _ p => ∃ v t, p = heartbeatFrame h v t
  | SockConnect _ Command _ port _ => port = 20001
  | SockConnect _ Heartbeat _ port _ => port = 20002
  | _ => True
  end.

Definition wired (h : Host) (w : World) : Prop :=
  host w = h ∧ Forall (wireOk h) (trace w).

(** A record that is marked connected has a client that reports
    connected. *)
Definition live (x : MobileConnection) : Prop :=
  connected x = true →
  isConnectedFlag (commandClient x) = true ∨ isConnectedFlag (heartbeatClient x) = true.

(** Record [c] is in the table of the manager. *)
Definition tabled (c : nat) (w : World) : Prop := c ∈ map snd (connections w).

(** Every record is sound, and the mark of every record of the table is
    backed by a client. *)
Definition syncOk (w : World) : Prop :=
  ∀ c x, store w !! c = Some x → setupOk x ∧ (tabled c w → live x).

(** As [syncOk] for every record but [c]; record [c], if there is one,
    satisfies [φ]. *)
Definition syncAt (c : nat) (φ : MobileConnection → Prop) (w : World) : Prop :=
  (∀ c' x, c' ≠ c → store w !! c' = Some x → setupOk x ∧ (tabled c' w → live x))
  ∧ (∀ x, store w !! c = Some x → φ x).

(** The record is between two steps of [connectToDevice]. *)
Definition notSetUp (x : MobileConnection) : Prop :=
  forwarding x = false ∧ connected x = false ∧ pendingConnect x = None.

Definition heartbeatUp (x : MobileConnection) : Prop :=
  setupOk x ∧ isConnectedFlag (heartbeatClient x) = true.

Definition settled (x : MobileConnection) : Prop := setupOk x ∧ live x.

(** Record [c] is in the table under [ip] only. *)
Definition onlyUnder (ip : string) (c : nat) (w : World) : Prop :=
  ∀ ip', (ip', c) ∈ connections w → ip' = ip.

(** The timers of the runtime have distinct ids below the counter, and a
    pending liveness timer was set for 5000 ms on a record whose heartbeat
    client remembers it in [timeoutTimer]. *)
Definition livenessOk (w : World) : Prop :=
  NoDup (map tid (timers w))
  ∧ (∀ t, t ∈ timers w → (tid t < timerCount w)%nat)
  ∧ (∀ t c, t ∈ timers w → callback t = HbLiveness c →
       delay t = 5000
       ∧ ∃ x, store w !! c = Some x
              ∧ timeoutTimer (heartbeatClient x) = Some (tid t)).

(** No liveness timer of record [c] is pending. *)
Definition quiet (c : nat) (w : World) : Prop :=
  ∀ t, t ∈ timers w → callback t ≠ HbLiveness c.

End Bridge.

(** ** Concrete hosts, devices and runs used to exercise the model *)
Module Samples.
Import Js Constants.

Definition sampleHost : Host :=
  {| hostname := "bridge";
     networkInterfaces :=
       [("lo", [{| family := "IPv4"; internal := true; address := "127.0.0.1" |}]);
        ("eth0", [{| family := "IPv6"; internal := false; address := "fe80::1" |};
                  {| family := "IPv4"; internal := false; address := "192.168.1.10" |}])] |}.

Definition sampleServer : Discovery.UDPDiscoveryServer :=
  {| Discovery.udpSocket := true; Discovery.deviceName := "bridge";
     Discovery.onDeviceDiscovered := true; Discovery.discoveredDevices := ∅ |}.

Definition fullPacket : string := "search#a2w0nuNyiD6vYogF#1#Pixel#192.168.1.50".
Definition shortPacket : string := "search#a2w0nuNyiD6vYogF#1#Pixel".

Definition pixel : Bridge.Device :=
  {| Bridge.dev_id := "device_192_168_1_50"; Bridge.dev_name := "Pixel";
     Bridge.dev_ip := "192.168.1.50"; Bridge.deviceInfo := None;
     Bridge.pushedInfo := [] |}.

Import Bridge.

(** Two browsers are connected; the first has asked for the device and the
    command socket is still connecting. *)
Definition inFlight : World :=
  run (initial sampleHost) [EvWsOpen 1; EvWsOpen 2; EvConnectDevice 1 pixel].

(** The command channel is up, the heartbeat channel is being opened. *)
Definition halfOpen : World :=
  deliver inFlight (EvSocket 0 Command 0 SConnect).

(** Both channels are up; the first heartbeat is on its way. *)
Definition linked : World :=
  deliver halfOpen (EvSocket 0 Heartbeat 0 SConnect).

(** The device closed both sockets, the command socket first; the grace
    timer has not fired yet. *)
Definition dropped : World :=
  run linked [EvSocket 0 Command 0 SClose; EvSocket 0 Heartbeat 0 SClose].

(** The heartbeat port accepts no connection: the socket of the heartbeat
    client reports its idle timeout after ten seconds. *)
Definition heartbeatTimesOut : World :=
  run halfOpen [EvAdvance 10000; EvSocket 0 Heartbeat 0 STimeout].

(** The heartbeat port refuses the connection. *)
Definition heartbeatRefused : World :=
  deliver halfOpen (EvSocket 0 Heartbeat 0 (SError "ECONNREFUSED")).

(** No echo arrives for the first heartbeat: the liveness timer (timer 1)
    fires after five seconds, and the runtime closes the destroyed socket. *)
Definition silent : World :=
  run linked [EvAdvance 5000; EvTimer 1; EvSocket 0 Heartbeat 0 SClose].

(** Two seconds later the reconnect timers (timers 2 and 3) fire. *)
Definition silentLater : World :=
  run silent [EvAdvance 2000; EvTimer 2; EvTimer 3].

(** The device closes the command socket; two seconds later the reconnect
    timer (timer 2) opens a new command socket, which is still connecting
    when, a second later, the heartbeat socket closes as well: the disconnect
    is broadcast and the grace timer (timer 4) is set. *)
Definition lostRun : list Event :=
  [EvSocket 0 Command 0 SClose; EvAdvance 2000; EvTimer 2;
   EvAdvance 1000; EvSocket 0 Heartbeat 0 SClose].

Definition lost : World := run linked lostRun.

(** Five seconds later the grace timer closes the connection.  The runtime
    then closes the command socket that was destroyed on the way, and the
    close handler of that socket reports the removed record as disconnected
    once more. *)
Definition cleanupRun : list Event :=
  [EvAdvance 5000; EvTimer 4; EvSocket 0 Command 1 SClose].

Definition cleanedUp : World := run lost cleanupRun.

(** A second later the browser asks for the device again, and both channels
    of the new record come up. *)
Definition reconnectRun : list Event :=
  [EvAdvance 1000; EvConnectDevice 1 pixel;
   EvSocket 1 Command 0 SConnect; EvSocket 1 Heartbeat 0 SConnect].

Definition reconnected : World := run cleanedUp reconnectRun.

(** Four seconds later the timer left over from the cleanup (timer 5) fires. *)
Definition staleRun : list Event := [EvAdvance 4000; EvTimer 5].

Definition imageListRequest : Message :=
  {| msg_type := "image:list"; msg_payload := None; msg_id := Some (JStr "x") |}.

Definition imageAt (id : Z) (path : string) : Json :=
  JObj [("id", JNum id); ("path", JStr path)].

Definition imagesAnswer (images : list Json) : HttpResult :=
  HttpOk (JObj [("code", JNum 0); ("data", JArr images)]).

Definition uploadRequest : Message :=
  {| msg_type := "file:upload";
     msg_payload := Some (JObj [("path", JStr "/sdcard/a.txt"); ("content", JStr "aGk=")]);
     msg_id := Some (JStr "u1") |}.

End Samples.

(** * Properties *)

(** ** Discovery *)
Module DiscoveryFacts.
Import Js Constants Discovery Samples.

Lemma parse_valid data d :
  parseDiscoveryPacket data = Some d → isValidDiscoveryPacket data = true.
Proof.
  unfold parseDiscoveryPacket.
  destruct (isValidDiscoveryPacket data); simpl; congruence.
Qed.

Lemma handle_unparsed h srv data a :
  parseDiscoveryPacket data = None → handleDiscoveryPacket h srv data a = (srv, []).
Proof.
  intros Hp. unfold handleDiscoveryPacket. rewrite Hp.
  destruct (negb _); reflexivity.
Qed.

Lemma handle_ack h srv data a d :
  udpSocket srv = true → parseDiscoveryPacket data = Some d →
  List.filter isUdpSend (handleDiscoveryPacket h srv data a).2
  = [UdpSend (acknowledgment "6" (deviceName srv) (getLocalIP h)) PORTS.SEARCH a].
Proof.
  intros Hs Hp. unfold handleDiscoveryPacket.
  rewrite (parse_valid _ _ Hp), Hp. cbn [negb].
  match goal with |- context [deviceKey ?x] => set (dev := x) end.
  destruct (discoveredDevices srv !! deviceKey dev); cbn;
    unfold sendDiscoveryResponse; cbn; rewrite Hs.
  - reflexivity.
  - destruct (onDeviceDiscovered srv); reflexivity.
Qed.

(** The three ways a packet can be handled: nothing new, a new device that
    nobody is told of, a new device that is announced. *)
Lemma handle_cases h srv data a :
  ∃ ack, Forall (λ e, isUdpSend e = true) ack ∧
    (handleDiscoveryPacket h srv data a = (srv, ack)
     ∨ ∃ d, discoveredDevices srv !! deviceKey d = None ∧
         (handleDiscoveryPacket h srv data a = (grown srv d, ack)
          ∨ handleDiscoveryPacket h srv data a = (grown srv d, DeviceDiscovered d :: ack))).
Proof.
  unfold handleDiscoveryPacket.
  destruct (negb _); [exists []; split; [constructor | left; reflexivity] |].
  destruct (parseDiscoveryPacket data) as [d0|];
    [|exists []; split; [constructor | left; reflexivity]].
  match goal with |- context [deviceKey ?x] => set (dev := x) end.
  destruct (discoveredDevices srv !! deviceKey dev) eqn:Hk.
  - exists (sendDiscoveryResponse h srv a). split; [|left; reflexivity].
    unfold sendDiscoveryResponse. destruct (udpSocket srv); repeat constructor.
  - exists (sendDiscoveryResponse h (grown srv dev) a). split.
    + unfold sendDiscoveryResponse. destruct (udpSocket _); repeat constructor.
    + right. exists dev. split; [exact Hk|].
      unfold grown. destruct (onDeviceDiscovered srv); [right | left]; reflexivity.
Qed.

Lemma discoveries_ack ip0 name0 ack :
  Forall (λ e, isUdpSend e = true) ack → discoveries ip0 name0 ack = 0%nat.
Proof.
  induction 1 as [|e l He _ IH]; [reflexivity|].
  destruct e; [discriminate|]. exact IH.
Qed.

Lemma announces_key ip0 name0 d :
  announces ip0 name0 (DeviceDiscovered d) = true → deviceKey d = ip0 +:+ "_" +:+ name0.
Proof.
  cbn. intros H. apply andb_prop in H as [H1 H2].
  apply String.eqb_eq in H1, H2. unfold deviceKey. congruence.
Qed.

Lemma discoveries_app ip0 name0 l1 l2 :
  discoveries ip0 name0 (l1 ++ l2) = (discoveries ip0 name0 l1 + discoveries ip0 name0 l2)%nat.
Proof. unfold discoveries. rewrite List.filter_app, length_app. reflexivity. Qed.

Lemma cached_grown srv d k : (cached (grown srv d) k ≤ cached srv k)%nat.
Proof.
  unfold cached, grown; cbn. destruct (decide (deviceKey d = k)) as [<-|Hne].
  - rewrite lookup_insert_eq. lia.
  - rewrite lookup_insert_ne by done. reflexivity.
Qed.

Lemma run_discoveries h inputs : ∀ srv ip0 name0,
  forallb isPacket inputs = true →
  (discoveries ip0 name0 (run h srv inputs).2 ≤ cached srv (ip0 +:+ "_" +:+ name0))%nat.
Proof.
  induction inputs as [|i rest IH]; intros srv ip0 name0 Hall; [cbn; lia|].
  cbn in Hall. apply andb_prop in Hall as [Hi Hrest].
  destruct i as [data a|]; [|discriminate]. cbn [run step].
  destruct (handle_cases h srv data a) as (ack & Hack & Hcase).
  pose proof (discoveries_ack ip0 name0 ack Hack) as H0.
  destruct Hcase as [-> | (d & Hnew & [-> | ->])].
  - specialize (IH srv ip0 name0 Hrest). destruct (run h srv rest) as [s2 e2].
    cbn [snd] in *. rewrite discoveries_app. lia.
  - specialize (IH (grown srv d) ip0 name0 Hrest).
    pose proof (cached_grown srv d (ip0 +:+ "_" +:+ name0)).
    destruct (run h (grown srv d) rest) as [s2 e2].
    cbn [snd] in *. rewrite discoveries_app. lia.
  - specialize (IH (grown srv d) ip0 name0 Hrest).
    pose proof (cached_grown srv d (ip0 +:+ "_" +:+ name0)) as Hg.
    destruct (run h (grown srv d) rest) as [s2 e2].
    cbn [snd] in *. rewrite discoveries_app.
    change (DeviceDiscovered d :: ack) with ([DeviceDiscovered d] ++ ack).
    rewrite discoveries_app, H0. unfold discoveries at 1. cbn [List.filter].
    destruct (announces ip0 name0 (DeviceDiscovered d)) eqn:Ha; cbn [length]; [|lia].
    apply announces_key in Ha. rewrite <- Ha in *.
    unfold cached in *. cbn [grown discoveredDevices] in IH.
    rewrite lookup_insert_eq in IH. rewrite Hnew. lia.
Qed.

Lemma filter_unusable l :
  Forall (λ j, family j ≠ "IPv4" ∨ internal j = true) l →
  filter (λ j, String.eqb (family j) "IPv4" && negb (internal j) = true) l = [].
Proof.
  induction 1 as [|j l Hj _ IH]; [reflexivity|].
  rewrite filter_cons_False; [exact IH|].
  intros Hb. apply andb_prop in Hb as [H1 H2]. apply String.eqb_eq in H1.
  destruct Hj as [Hj|Hj]; [congruence|]. rewrite Hj in H2. discriminate.
Qed.

(** [getLocalIP] is the address of the first interface entry that is IPv4
    and not internal, and the loopback address when there is none. *)
Lemma getLocalIP_first h pre i post :
  concat (map snd (networkInterfaces h)) = pre ++ i :: post →
  Forall (λ j, family j ≠ "IPv4" ∨ internal j = true) pre →
  family i = "IPv4" → internal i = false →
  getLocalIP h = address i.
Proof.
  intros Hc Hpre Hf Hi. unfold getLocalIP.
  rewrite Hc, filter_app, (filter_unusable _ Hpre). cbn [app].
  rewrite filter_cons_True; [reflexivity|]. rewrite Hf, Hi. reflexivity.
Qed.

Lemma getLocalIP_none h :
  Forall (λ j, family j ≠ "IPv4" ∨ internal j = true)
         (concat (map snd (networkInterfaces h))) →
  getLocalIP h = "127.0.0.1".
Proof. intros Hall. unfold getLocalIP. rewrite (filter_unusable _ Hall). reflexivity. Qed.

(** C3, as amended: a packet that parses is acknowledged in the fixed
    format, to its sender on the discovery port, with platform code 6, the
    server's name and the first IPv4 address that is not internal (the
    loopback address when there is none); a packet that does not parse, even
    with the right prefix and token, changes nothing and is not answered;
    and as long as the cache is not cleared at most one discovery event
    fires per (ip, name). *)
Theorem discovery_acknowledges_and_announces_once
    (h : Host) (srv : UDPDiscoveryServer) (Hsock : udpSocket srv = true) :
  (∀ data a d, parseDiscoveryPacket data = Some d →
     List.filter isUdpSend (handleDiscoveryPacket h srv data a).2
     = [UdpSend (acknowledgment "6" (deviceName srv) (getLocalIP h)) PORTS.SEARCH a])
  ∧ (∀ pre i post,
       concat (map snd (networkInterfaces h)) = pre ++ i :: post →
       Forall (λ j, family j ≠ "IPv4" ∨ internal j = true) pre →
       family i = "IPv4" → internal i = false → getLocalIP h = address i)
  ∧ (Forall (λ j, family j ≠ "IPv4" ∨ internal j = true)
            (concat (map snd (networkInterfaces h))) → getLocalIP h = "127.0.0.1")
  ∧ (∀ data a, parseDiscoveryPacket data = None →
       handleDiscoveryPacket h srv data a = (srv, []))
  ∧ (∀ inputs ip0 name0, forallb isPacket inputs = true →
       (discoveries ip0 name0 (run h srv inputs).2 ≤ 1)%nat).
Proof.
  split; [intros; eapply handle_ack; eauto|].
  split; [apply getLocalIP_first|].
  split; [apply getLocalIP_none|].
  split; [intros; apply handle_unparsed; assumption|].
  intros inputs ip0 name0 Hall.
  pose proof (run_discoveries h inputs srv ip0 name0 Hall) as H.
  unfold cached in H. destruct (_ !! _); lia.
Qed.

Lemma discovery_acknowledges_and_announces_once_witness :
  List.filter isUdpSend (handleDiscoveryPacket sampleHost sampleServer fullPacket "192.168.1.50").2
  = [UdpSend "search_msg_received#RBIDoKFHLX9frYTh#6#bridge#192.168.1.10" 20000 "192.168.1.50"].
Proof.
  exact (proj1 (discovery_acknowledges_and_announces_once sampleHost sampleServer eq_refl)
           fullPacket "192.168.1.50"
           {| platform := Some 1; name := "Pixel"; ip := "192.168.1.50" |} eq_refl).
Defined.

(** C3 as stated fails: a packet with the right prefix and token but fewer
    than three fields is not acknowledged, and after the periodic clearing
    of the cache the same (ip, name) is announced a second time. *)
Lemma discovery_claim_fails :
  isValidDiscoveryPacket shortPacket = true
  ∧ (handleDiscoveryPacket sampleHost sampleServer shortPacket "192.168.1.50").2 = []
  ∧ isValidDiscoveryPacket fullPacket = true
  ∧ discoveries "192.168.1.50" "Pixel"
      (run sampleHost sampleServer
         [Packet fullPacket "192.168.1.50"; ClearTick;
          Packet fullPacket "192.168.1.50"]).2 = 2%nat.
Proof. vm_compute. repeat split; reflexivity. Qed.

(** *** Splitting and parsing *)

Lemma append_nil s : "" +:+ s = s.
Proof. reflexivity. Qed.

Lemma append_cons c a s : String c a +:+ s = String c (a +:+ s).
Proof. reflexivity. Qed.

Lemma split_field sep a b :
  occurs sep a = 0%nat → split sep (a +:+ String sep b) = a :: split sep b.
Proof.
  induction a as [|c a IH]; rewrite ?append_nil, ?append_cons; cbn [split occurs]; intros H.
  - rewrite Ascii.eqb_refl. reflexivity.
  - destruct (Ascii.eqb c sep); [discriminate|]. rewrite IH by exact H. reflexivity.
Qed.

Lemma split_whole sep a : occurs sep a = 0%nat → split sep a = [a].
Proof.
  induction a as [|c a IH]; cbn [split occurs]; intros H; [reflexivity|].
  destruct (Ascii.eqb c sep); [discriminate|]. rewrite IH by exact H. reflexivity.
Qed.

Lemma length_split sep s : length (split sep s) = S (occurs sep s).
Proof.
  induction s as [|c s IH]; [reflexivity|]. cbn [split occurs].
  destruct (Ascii.eqb c sep); cbn; [rewrite IH; reflexivity|].
  destruct (split sep s); cbn in *; congruence.
Qed.

Lemma dropChars_app p s : dropChars (String.length p) (p +:+ s) = s.
Proof.
  induction p as [|c p IH]; [destruct s; reflexivity|].
  rewrite append_cons. exact IH.
Qed.

Lemma prefix_app p s : String.prefix p (p +:+ s) = true.
Proof.
  induction p as [|c p IH]; [destruct s; reflexivity|].
  rewrite append_cons. cbn [String.prefix]. destruct (ascii_dec c c); [exact IH | congruence].
Qed.

Lemma valid_packet s : isValidDiscoveryPacket (searchPrefix +:+ s) = true.
Proof. apply prefix_app. Qed.

(** *** Decimal numerals *)

Lemma digit_char d :
  (d < 10)%N →
  between "0" "9" (pretty_N_char d) = true
  ∧ Z.of_N (N_of_ascii (pretty_N_char d)) - 48 = Z.of_N d.
Proof.
  intros Hd.
  assert (Hc : d ∈ [0; 1; 2; 3; 4; 5; 6; 7; 8; 9]%N).
  { destruct d as [|p]; [set_solver|].
    do 10 (destruct p as [p|p|]; try lia; try set_solver). }
  repeat (apply elem_of_cons in Hc as [-> | Hc]; [split; reflexivity|]).
  apply not_elem_of_nil in Hc. contradiction.
Qed.

Lemma numeral_digits x : ∀ s acc,
  (0 < x)%N →
  digits acc (pretty_N_go x s)
  = digits acc (pretty_N_go (x `div` 10) (String (pretty_N_char (x `mod` 10)) s)).
Proof. intros s acc Hx. rewrite pretty_N_go_step by exact Hx. reflexivity. Qed.

Lemma digits_numeral x : ∀ s,
  (0 < x)%N → digits None (pretty_N_go x s) = digits (Some (Z.of_N x)) s.
Proof.
  induction x as [x IH] using (well_founded_induction N.lt_wf_0); intros s Hx.
  rewrite pretty_N_go_step by exact Hx.
  destruct (digit_char (x `mod` 10)) as [Hb Hv]; [apply N.mod_lt; lia|].
  destruct (decide (x `div` 10 = 0)%N) as [Hz|Hnz].
  - rewrite Hz, pretty_N_go_0. cbn [digits]. rewrite Hb, Hv. cbn -[Z.mul Z.add Z.of_N N.div N.modulo digits].
    f_equal. f_equal. pose proof (N.div_mod x 10 ltac:(lia)). lia.
  - rewrite IH; [|apply N.div_lt; lia|apply N.neq_0_lt_0; exact Hnz].
    cbn [digits]. rewrite Hb, Hv. cbn -[Z.mul Z.add Z.of_N N.div N.modulo digits]. f_equal. f_equal.
    pose proof (N.div_mod x 10 ltac:(lia)). lia.
Qed.

Lemma head_numeral x : ∀ s, (0 < x)%N → headDigit (pretty_N_go x s).
Proof.
  induction x as [x IH] using (well_founded_induction N.lt_wf_0); intros s Hx.
  rewrite pretty_N_go_step by exact Hx.
  destruct (decide (x `div` 10 = 0)%N) as [Hz|Hnz].
  - rewrite Hz, pretty_N_go_0. cbn. apply digit_char, N.mod_lt. lia.
  - apply IH; [apply N.div_lt; lia | apply N.neq_0_lt_0; exact Hnz].
Qed.

(** Up to [2 ^ 53] in absolute value an integer is its own [Number]. *)
Lemma toDouble_exact z : - 2 ^ 53 ≤ z ≤ 2 ^ 53 → toDouble z = z.
Proof.
  intros Hz. unfold toDouble. cbv zeta.
  destruct (Z.leb_spec (Z.log2 (Z.abs z) + 1) 53) as [_|Hn]; [reflexivity|].
  assert (Ha : Z.abs z = 2 ^ 53).
  { destruct (Z.eq_dec (Z.abs z) 0) as [E|E]; [rewrite E in Hn; cbn in Hn; lia|].
    destruct (Z.lt_ge_cases (Z.abs z) (2 ^ 53)) as [Hlt|Hge]; [|lia].
    apply Z.log2_lt_pow2 in Hlt; lia. }
  destruct (Z.abs_eq_cases z (2 ^ 53)) as [-> | ->];
    [exact Ha | vm_compute; reflexivity | vm_compute; reflexivity].
Qed.

Lemma parseInt_head s : headDigit s → parseInt s = toDouble <$> digits None s.
Proof.
  destruct s as [|c s]; [contradiction|]. cbn [headDigit]. intros Hc.
  destruct c as [[] [] [] [] [] [] [] []]; first [discriminate Hc | reflexivity].
Qed.

(** [parseInt] reads back what the decimal notation of a natural number
    writes. *)
Lemma parseInt_pretty (n : N) :
  (n ≤ 9007199254740992)%N → parseInt (pretty n) = Some (Z.of_N n).
Proof.
  intros Hle. unfold pretty, pretty_N.
  destruct (decide (n = 0%N)) as [->|Hn]; [reflexivity|].
  rewrite parseInt_head by (apply head_numeral; lia).
  rewrite digits_numeral by lia. cbn [digits fmap option_fmap option_map].
  rewrite toDouble_exact; [reflexivity|].
  change (2 ^ 53) with 9007199254740992. lia.
Qed.

Lemma occurs_numeral c x : ∀ s,
  between "0" "9" c = false → occurs c (pretty_N_go x s) = occurs c s.
Proof.
  induction x as [x IH] using (well_founded_induction N.lt_wf_0); intros s Hc.
  destruct (decide (x = 0)%N) as [->|Hx]; [rewrite pretty_N_go_0; reflexivity|].
  rewrite pretty_N_go_step by lia.
  rewrite IH; [|apply N.div_lt; lia|exact Hc]. cbn [occurs].
  destruct (Ascii.eqb_spec (pretty_N_char (x `mod` 10)) c) as [<-|_]; [|reflexivity].
  destruct (digit_char (x `mod` 10)) as [Hb _]; [apply N.mod_lt; lia|]. congruence.
Qed.

Lemma occurs_pretty c (n : N) : between "0" "9" c = false → occurs c (pretty n) = 0%nat.
Proof.
  intros Hc. unfold pretty, pretty_N. destruct (decide (n = 0%N)).
  - cbn [occurs]. destruct (Ascii.eqb_spec "0" c) as [<-|_]; [discriminate|reflexivity].
  - apply occurs_numeral, Hc.
Qed.

(** *** Discovery packets *)

Lemma parse_fields pf nm addr tail :
  occurs "#" pf = 0%nat → occurs "#" nm = 0%nat →
  split "#" addr = tail →
  parseDiscoveryPacket (searchPrefix +:+ pf +:+ "#" +:+ nm +:+ "#" +:+ addr)
  = match tail with
    | a :: _ => Some {| platform := parseInt pf; name := nm; ip := a |}
    | [] => None
    end.
Proof.
  intros Hp Hn Ht. unfold parseDiscoveryPacket.
  rewrite valid_packet. cbn [negb]. rewrite dropChars_app.
  rewrite !append_cons, !append_nil.
  rewrite (split_field "#" pf) by exact Hp.
  rewrite (split_field "#" nm) by exact Hn.
  rewrite Ht. reflexivity.
Qed.

(** X1: A packet made of a platform field, a name and an address, none of
    which contains the separator, is parsed into exactly these; if the
    platform is written as a natural number up to [2 ^ 53] it is read back
    as that number; anything after a further separator is ignored. *)
Theorem announced_fields_are_parsed_back (pf nm addr : string)
    (Hp : occurs "#" pf = 0%nat) (Hn : occurs "#" nm = 0%nat)
    (Ha : occurs "#" addr = 0%nat) :
  parseDiscoveryPacket (searchPrefix +:+ pf +:+ "#" +:+ nm +:+ "#" +:+ addr)
  = Some {| platform := parseInt pf; name := nm; ip := addr |}
  ∧ (∀ more,
       parseDiscoveryPacket
         (searchPrefix +:+ pf +:+ "#" +:+ nm +:+ "#" +:+ addr +:+ "#" +:+ more)
       = Some {| platform := parseInt pf; name := nm; ip := addr |})
  ∧ (∀ p : N, (p ≤ 9007199254740992)%N → pf = pretty p →
       parseInt pf = Some (Z.of_N p)).
Proof.
  split; [|split].
  - rewrite (parse_fields pf nm addr [addr]); [reflexivity|assumption..|].
    apply split_whole, Ha.
  - intros more.
    rewrite (parse_fields pf nm (addr +:+ "#" +:+ more) (addr :: split "#" more));
      [reflexivity|assumption..|].
    rewrite append_cons, append_nil. apply split_field, Ha.
  - intros p Hle ->. apply parseInt_pretty, Hle.
Qed.

Lemma announced_fields_are_parsed_back_witness :
  parseDiscoveryPacket fullPacket
  = Some {| platform := Some 1; name := "Pixel"; ip := "192.168.1.50" |}.
Proof.
  exact (proj1 (announced_fields_are_parsed_back "1" "Pixel" "192.168.1.50"
                  eq_refl eq_refl eq_refl)).
Defined.

(** X2: A packet is parsed exactly when it starts with the prefix and the
    token and at least two separators follow them. *)
Theorem packet_is_parsed_iff (data : string) :
  is_Some (parseDiscoveryPacket data)
  ↔ isValidDiscoveryPacket data = true
    ∧ (2 ≤ occurs "#" (dropChars (String.length searchPrefix) data))%nat.
Proof.
  unfold parseDiscoveryPacket.
  destruct (isValidDiscoveryPacket data); cbn [negb];
    [|split; [intros [? ?]; discriminate | intros [? _]; discriminate]].
  pose proof (length_split "#" (dropChars (String.length searchPrefix) data)) as Hl.
  destruct (split "#" _) as [|p0 [|p1 [|p2 rest]]]; cbn in Hl.
  - lia.
  - split; [intros [? ?]; discriminate | intros [_ ?]; lia].
  - split; [intros [? ?]; discriminate | intros [_ ?]; lia].
  - split; [intros _; split; [reflexivity | lia] | intros _; eexists; reflexivity].
Qed.

(** X3: The address of a discovered device is the one the packet names; only
    when the packet names none (an empty field or 0.0.0.0) is it the
    address the datagram came from.  The device is cached and announced
    under that address, and the acknowledgment goes to the sender either
    way. *)
Theorem sender_address_fills_missing_ip
    (h : Host) (srv : UDPDiscoveryServer) (data sender : string) (d : ParsedDevice)
    (Hd : parseDiscoveryPacket data = Some d)
    (Hcb : onDeviceDiscovered srv = true) :
  let d' := if bool_decide (ip d = "" ∨ ip d = "0.0.0.0")
            then {| platform := platform d; name := name d; ip := sender |}
            else d in
  discoveredDevices srv !! deviceKey d' = None →
  handleDiscoveryPacket h srv data sender
  = (grown srv d', DeviceDiscovered d' :: sendDiscoveryResponse h srv sender).
Proof.
  intros d' Hnew. unfold handleDiscoveryPacket.
  rewrite (parse_valid _ _ Hd), Hd. cbn [negb].
  assert (He : (if String.eqb (ip d) "" || String.eqb (ip d) "0.0.0.0"
                then {| platform := platform d; name := name d; ip := sender |}
                else d) = d').
  { subst d'. destruct (String.eqb_spec (ip d) "") as [E1|E1];
      [rewrite bool_decide_eq_true_2 by (left; exact E1); reflexivity|].
    destruct (String.eqb_spec (ip d) "0.0.0.0") as [E2|E2]; cbn [orb].
    - rewrite bool_decide_eq_true_2 by (right; exact E2). reflexivity.
    - rewrite bool_decide_eq_false_2 by (intros [?|?]; contradiction). reflexivity. }
  rewrite He, Hnew. unfold grown, sendDiscoveryResponse. cbn. rewrite Hcb. reflexivity.
Qed.

Lemma sender_address_fills_missing_ip_witness :
  (handleDiscoveryPacket sampleHost sampleServer
     "search#a2w0nuNyiD6vYogF#1#Pixel#0.0.0.0" "192.168.1.77").2
  = [DeviceDiscovered {| platform := Some 1; name := "Pixel"; ip := "192.168.1.77" |};
     UdpSend "search_msg_received#RBIDoKFHLX9frYTh#6#bridge#192.168.1.10" 20000
       "192.168.1.77"].
Proof.
  rewrite (sender_address_fills_missing_ip sampleHost sampleServer
             "search#a2w0nuNyiD6vYogF#1#Pixel#0.0.0.0" "192.168.1.77"
             {| platform := Some 1; name := "Pixel"; ip := "0.0.0.0" |}
             eq_refl eq_refl eq_refl).
  reflexivity.
Defined.

(** X4: Neither the acknowledgment the server sends nor the packet it
    broadcasts is a discovery packet: a bridge that receives one, its own or
    another bridge's, neither answers nor caches anything. *)
Theorem responses_are_not_discovery_packets
    (h h' : Host) (srv srv' : UDPDiscoveryServer) (pl nm addr sender : string) :
  handleDiscoveryPacket h srv (discoveryResponse h' srv') sender = (srv, [])
  ∧ handleDiscoveryPacket h srv (buildDiscoveryResponse pl nm addr) sender = (srv, []).
Proof. split; reflexivity. Qed.

Lemma step_keeps_name h srv i : deviceName (step h srv i).1 = deviceName srv.
Proof.
  destruct i as [data a|]; [|reflexivity]. cbn [step].
  destruct (handle_cases h srv data a) as (ack & _ & [->|(d & _ & [->| ->])]); reflexivity.
Qed.

Lemma step_sends h srv i payload port target :
  UdpSend payload port target ∈ (step h srv i).2 →
  payload = discoveryResponse h srv ∧ port = PORTS.SEARCH
  ∧ ∃ data, i = Packet data target ∧ isValidDiscoveryPacket data = true.
Proof.
  destruct i as [data a|]; cbn [step]; [|intros H; apply not_elem_of_nil in H; contradiction].
  unfold handleDiscoveryPacket.
  destruct (isValidDiscoveryPacket data) eqn:Hv; cbn [negb];
    [|intros H; apply not_elem_of_nil in H; contradiction].
  destruct (parseDiscoveryPacket data) as [d|];
    [|intros H; apply not_elem_of_nil in H; contradiction].
  match goal with |- context [deviceKey ?x] => set (dev := x) end.
  assert (Hsend : ∀ srv', deviceName srv' = deviceName srv →
            UdpSend payload port target ∈ sendDiscoveryResponse h srv' a →
            payload = discoveryResponse h srv ∧ port = PORTS.SEARCH
            ∧ ∃ data0, Packet data a = Packet data0 target
                       ∧ isValidDiscoveryPacket data0 = true).
  { intros srv' Hname. unfold sendDiscoveryResponse.
    destruct (udpSocket srv'); [|intros H; apply not_elem_of_nil in H; contradiction].
    intros H. apply list_elem_of_singleton in H. injection H as -> -> ->.
    split; [unfold discoveryResponse; rewrite Hname; reflexivity|].
    split; [reflexivity|]. exists data. split; [reflexivity | exact Hv]. }
  destruct (discoveredDevices srv !! deviceKey dev); cbn.
  - apply Hsend. reflexivity.
  - intros H. apply elem_of_app in H as [H|H]; [|revert H; apply Hsend; reflexivity].
    destruct (onDeviceDiscovered srv);
      [apply list_elem_of_singleton in H; discriminate
      |apply not_elem_of_nil in H; contradiction].
Qed.

Lemma run_keeps_name h inputs : ∀ srv, deviceName (run h srv inputs).1 = deviceName srv.
Proof.
  induction inputs as [|i rest IH]; intros srv; [reflexivity|].
  cbn [run]. pose proof (step_keeps_name h srv i) as Hs.
  destruct (step h srv i) as [s1 e1]. specialize (IH s1).
  destruct (run h s1 rest) as [s2 e2]. cbn in *. congruence.
Qed.

(** X5: Whatever arrives, the server sends nothing but its acknowledgment, to
    port 20000 of an address from which a datagram with the prefix and the
    token came. *)
Theorem server_only_acknowledges_senders
    (h : Host) (srv : UDPDiscoveryServer) (inputs : list Input)
    (payload : string) (port : Z) (target : string)
    (Hsent : UdpSend payload port target ∈ (run h srv inputs).2) :
  payload = acknowledgment "6" (deviceName srv) (getLocalIP h)
  ∧ port = 20000
  ∧ ∃ data, Packet data target ∈ inputs ∧ isValidDiscoveryPacket data = true.
Proof.
  revert srv Hsent. induction inputs as [|i rest IH]; intros srv Hsent.
  - apply not_elem_of_nil in Hsent. contradiction.
  - cbn [run] in Hsent.
    pose proof (step_keeps_name h srv i) as Hname.
    pose proof (step_sends h srv i payload port target) as Hstep.
    destruct (step h srv i) as [s1 e1]. specialize (IH s1).
    destruct (run h s1 rest) as [s2 e2]. cbn in *.
    apply elem_of_app in Hsent as [Hin|Hin].
    + destruct (Hstep Hin) as (-> & -> & data & -> & Hv).
      split; [reflexivity|]. split; [reflexivity|].
      exists data. split; [left | exact Hv].
    + destruct (IH Hin) as (-> & -> & data & Hd & Hv).
      split; [unfold acknowledgment; rewrite Hname; reflexivity|].
      split; [reflexivity|]. exists data. split; [right; exact Hd | exact Hv].
Qed.

Lemma server_only_acknowledges_senders_witness :
  ∃ data, Packet data "192.168.1.50" ∈ [Packet fullPacket "192.168.1.50"]
          ∧ isValidDiscoveryPacket data = true.
Proof.
  refine (proj2 (proj2 (server_only_acknowledges_senders sampleHost sampleServer
            [Packet fullPacket "192.168.1.50"]
            "search_msg_received#RBIDoKFHLX9frYTh#6#bridge#192.168.1.10" 20000
            "192.168.1.50" _))).
  vm_compute. right. left.
Defined.

(** *** The broadcast address *)

Lemma split_nonempty sep s : split sep s ≠ [].
Proof.
  pose proof (length_split sep s) as H. destruct (split sep s); [discriminate|congruence].
Qed.

Lemma split_append sep a b :
  split sep (a +:+ String sep b) = split sep a ++ split sep b.
Proof.
  induction a as [|c a IH]; rewrite ?append_nil, ?append_cons; cbn [split].
  - rewrite Ascii.eqb_refl. reflexivity.
  - destruct (Ascii.eqb c sep); [rewrite IH; reflexivity|].
    rewrite IH. pose proof (split_nonempty sep a) as Hne.
    destruct (split sep a); [contradiction|reflexivity].
Qed.

Lemma split_join_from sep rest : ∀ acc,
  Forall (λ y, occurs sep y = 0%nat) rest →
  split sep (fold_left (λ acc y, acc +:+ String sep "" +:+ y) rest acc)
  = split sep acc ++ rest.
Proof.
  induction rest as [|y rest IH]; intros acc Hall; [cbn; rewrite app_nil_r; reflexivity|].
  inversion Hall as [|? ? Hy Hrest]; subst. cbn [fold_left].
  rewrite IH by exact Hrest.
  rewrite append_cons, append_nil, split_append, (split_whole sep y Hy), <- app_assoc.
  reflexivity.
Qed.

Lemma split_join sep l :
  l ≠ [] → Forall (λ y, occurs sep y = 0%nat) l →
  split sep (join (String sep "") l) = l.
Proof.
  destruct l as [|x rest]; [contradiction|]. intros _ Hall.
  inversion Hall as [|? ? Hx Hrest]; subst. unfold join.
  rewrite split_join_from by exact Hrest. rewrite (split_whole sep x Hx). reflexivity.
Qed.

Lemma toInt32_octet (x : N) : (x ≤ 255)%N → toInt32 (Some (Z.of_N x)) = Z.of_N x.
Proof.
  intros Hx. unfold toInt32.
  rewrite Z.mod_small by (change (2 ^ 32) with 4294967296; change (2 ^ 31) with 2147483648; lia).
  lia.
Qed.

(** The octet the code computes from an address octet [x] and a netmask
    octet [y]. *)
Lemma octet_bits (x y : N) :
  (x ≤ 255)%N → (y ≤ 255)%N →
  ∃ z : N,
    Z.lor (Z.of_N x) (Z.land (Z.lnot (Z.of_N y)) 255) = Z.of_N z
    ∧ (z ≤ 255)%N ∧ N.land z y = N.land x y ∧ N.lor z y = 255%N.
Proof.
  intros Hx Hy.
  set (ok := λ a b : nat,
         let z := Z.lor (Z.of_nat a) (Z.land (Z.lnot (Z.of_nat b)) 255) in
         (0 <=? z) && (z <=? 255)
         && (N.land (Z.to_N z) (N.of_nat b) =? N.land (N.of_nat a) (N.of_nat b))%N
         && (N.lor (Z.to_N z) (N.of_nat b) =? 255)%N).
  assert (Hall : forallb (λ a, forallb (ok a) (seq 0 256)) (seq 0 256) = true)
    by (vm_compute; reflexivity).
  rewrite forallb_forall in Hall.
  specialize (Hall (N.to_nat x)). rewrite forallb_forall in Hall.
  assert (Hok : ok (N.to_nat x) (N.to_nat y) = true).
  { apply Hall; apply in_seq; lia. }
  unfold ok in Hok. cbv zeta in Hok.
  rewrite !N2Nat.id, !N_nat_Z in Hok.
  apply andb_prop in Hok as [Hok H4]. apply andb_prop in Hok as [Hok H3].
  apply andb_prop in Hok as [H1 H2].
  apply Z.leb_le in H1, H2. apply N.eqb_eq in H3, H4.
  exists (Z.to_N (Z.lor (Z.of_N x) (Z.land (Z.lnot (Z.of_N y)) 255))).
  split; [rewrite Z2N.id by exact H1; reflexivity|].
  split; [lia|]. split; assumption.
Qed.

Lemma pretty_Z_of_N (n : N) : pretty (Z.of_N n) = pretty n.
Proof. destruct n; reflexivity. Qed.

Lemma broadcastOctet_numerals (x y : N) :
  (x ≤ 255)%N → (y ≤ 255)%N →
  ∃ z : N, broadcastOctet (pretty x) (Some (pretty y)) = pretty z
           ∧ (z ≤ 255)%N ∧ N.land z y = N.land x y ∧ N.lor z y = 255%N.
Proof.
  intros Hx Hy. destruct (octet_bits x y Hx Hy) as (z & Hz & Hrest).
  exists z. split; [|exact Hrest].
  unfold broadcastOctet.
  change (default "undefined" (Some (pretty y))) with (pretty y). cbv zeta.
  rewrite !parseInt_pretty by lia. rewrite !toInt32_octet by assumption.
  rewrite Hz. apply pretty_Z_of_N.
Qed.

Lemma broadcast_octets (a : list N) : ∀ m : list N,
  length m = length a → Forall (λ x, (x ≤ 255)%N) a → Forall (λ x, (x ≤ 255)%N) m →
  ∃ b : list N,
    zip_with (λ octet mask, broadcastOctet octet (Some mask))
             (map pretty a) (map pretty m) = map pretty b
    ∧ length b = length a
    ∧ ∀ k x y z, a !! k = Some x → m !! k = Some y → b !! k = Some z →
        (z ≤ 255)%N ∧ N.land z y = N.land x y ∧ N.lor z y = 255%N.
Proof.
  induction a as [|x a IH]; intros m Hlen Ha Hm.
  - exists []. destruct m; [|discriminate].
    split; [reflexivity|]. split; [reflexivity|].
    intros k ? ? ? Hk. rewrite lookup_nil in Hk. discriminate.
  - destruct m as [|y m]; [discriminate|].
    inversion Ha as [|? ? Hx Ha']; inversion Hm as [|? ? Hy Hm']; subst.
    destruct (IH m ltac:(cbn in Hlen; lia) Ha' Hm') as (b & Hb & Hlb & Hbits).
    destruct (broadcastOctet_numerals x y Hx Hy) as (z & Hz & Hzb).
    exists (z :: b). cbn [map zip_with]. rewrite Hz, Hb.
    split; [reflexivity|]. split; [cbn; lia|].
    intros [|k] x' y' z' Hx' Hy' Hz'; cbn in *.
    + injection Hx' as <-. injection Hy' as <-. injection Hz' as <-. exact Hzb.
    + eapply Hbits; eauto.
Qed.

Lemma imap_lookup_zip {A B C} (f : A → option B → C) (l : list A) (m : list B) :
  length m = length l →
  imap (λ index x, f x (m !! index)) l = zip_with (λ x y, f x (Some y)) l m.
Proof.
  revert m. induction l as [|x l IH]; intros [|y m] Hlen; try discriminate; [reflexivity|].
  cbn [imap zip_with]. f_equal. rewrite <- IH by (cbn in Hlen; lia).
  apply imap_ext. intros i z _. reflexivity.
Qed.

Lemma first_external pre (i : MaskedInterface) post :
  Forall (λ j, internal (info j) = true ∨ family (info j) ≠ "IPv4") pre →
  internal (info i) = false → family (info i) = "IPv4" →
  filter (λ i, negb (internal (info i) || negb (String.eqb (family (info i)) "IPv4")) = true)
         (pre ++ i :: post)
  = i :: filter (λ i, negb (internal (info i) || negb (String.eqb (family (info i)) "IPv4")) = true)
                post.
Proof.
  intros Hpre Hint Hfam. induction Hpre as [|j pre Hj _ IH]; cbn [app].
  - rewrite filter_cons, decide_True; [reflexivity|].
    rewrite Hint, Hfam. reflexivity.
  - rewrite filter_cons, decide_False; [exact IH|].
    destruct Hj as [-> | Hf]; [cbn; discriminate|].
    destruct (String.eqb_spec (family (info j)) "IPv4"); [contradiction|].
    rewrite orb_true_r. cbn. discriminate.
Qed.

(** X6: For the first interface that is IPv4 and not internal, with an address
    and a netmask written as equally many octets between 0 and 255, the
    broadcast address has as many octets, each between 0 and 255, each
    agreeing with the address where the netmask has a 1 and having a 1
    where the netmask has a 0. *)
Theorem broadcast_address_sets_host_bits
    (interfaces : list (string * list MaskedInterface))
    (pre : list MaskedInterface) (i : MaskedInterface) (post : list MaskedInterface)
    (a m : list N)
    (Hifs : concat (map snd interfaces) = pre ++ i :: post)
    (Hpre : Forall (λ j, internal (info j) = true ∨ family (info j) ≠ "IPv4") pre)
    (Hint : internal (info i) = false) (Hfam : family (info i) = "IPv4")
    (Haddr : address (info i) = join "." (map pretty a))
    (Hmask : netmask i = join "." (map pretty m))
    (Hne : a ≠ []) (Hlen : length m = length a)
    (Ha : Forall (λ x, (x ≤ 255)%N) a) (Hm : Forall (λ x, (x ≤ 255)%N) m) :
  ∃ b : list N,
    getBroadcastAddress interfaces = join "." (map pretty b)
    ∧ length b = length a
    ∧ ∀ k x y z, a !! k = Some x → m !! k = Some y → b !! k = Some z →
        (z ≤ 255)%N ∧ N.land z y = N.land x y ∧ N.lor z y = 255%N.
Proof.
  destruct (broadcast_octets a m Hlen Ha Hm) as (b & Hb & Hlb & Hbits).
  exists b. split; [|split; assumption].
  unfold getBroadcastAddress. rewrite Hifs, first_external by assumption.
  rewrite Haddr, Hmask.
  assert (Hdot : ∀ l : list N, Forall (λ y, occurs "." y = 0%nat) (map pretty l)).
  { intros l. apply Forall_forall. intros s Hs. apply list_elem_of_fmap in Hs as (n & -> & _).
    apply occurs_pretty. reflexivity. }
  assert (Hnm : m ≠ []) by (destruct m; [destruct a; [contradiction|discriminate]|discriminate]).
  rewrite (split_join "." (map pretty a)), (split_join "." (map pretty m));
    [|destruct m; [contradiction|discriminate]|apply Hdot
     |destruct a; [contradiction|discriminate]|apply Hdot].
  rewrite imap_lookup_zip by (rewrite !length_map; exact Hlen).
  rewrite Hb. reflexivity.
Qed.

Lemma broadcast_address_sets_host_bits_witness :
  ∃ b : list N,
    getBroadcastAddress
      [("lo", [{| info := {| family := "IPv4"; internal := true; address := "127.0.0.1" |};
                  netmask := "255.0.0.0" |}]);
       ("eth0", [{| info := {| family := "IPv4"; internal := false;
                               address := "192.168.1.10" |};
                    netmask := "255.255.255.0" |}])]
    = join "." (map pretty b)
    ∧ length b = 4%nat.
Proof.
  destruct (broadcast_address_sets_host_bits
              [("lo", [{| info := {| family := "IPv4"; internal := true;
                                      address := "127.0.0.1" |};
                          netmask := "255.0.0.0" |}]);
               ("eth0", [{| info := {| family := "IPv4"; internal := false;
                                       address := "192.168.1.10" |};
                            netmask := "255.255.255.0" |}])]
              [{| info := {| family := "IPv4"; internal := true; address := "127.0.0.1" |};
                  netmask := "255.0.0.0" |}]
              {| info := {| family := "IPv4"; internal := false; address := "192.168.1.10" |};
                 netmask := "255.255.255.0" |}
              [] [192; 168; 1; 10]%N [255; 255; 255; 0]%N)
    as (b & Hb & Hl & _);
    [reflexivity
    |constructor; [left; reflexivity | constructor]
    |reflexivity|reflexivity|reflexivity|reflexivity|discriminate|reflexivity
    |repeat constructor; cbn; lia
    |repeat constructor; cbn; lia
    |].
  exists b. split; assumption.
Defined.

(** Without an interface that is IPv4 and not internal the broadcast goes
    to 255.255.255.255. *)
Lemma broadcast_fallback interfaces :
  Forall (λ j, internal (info j) = true ∨ family (info j) ≠ "IPv4")
         (concat (map snd interfaces)) →
  getBroadcastAddress interfaces = "255.255.255.255".
Proof.
  intros Hall. unfold getBroadcastAddress.
  induction Hall as [|j l Hj _ IH]; [reflexivity|].
  rewrite filter_cons, decide_False; [exact IH|].
  destruct Hj as [-> | Hf]; [cbn; discriminate|].
  destruct (String.eqb_spec (family (info j)) "IPv4"); [contradiction|].
  rewrite orb_true_r. cbn. discriminate.
Qed.

Lemma info_unusable (l : list MaskedInterface) :
  Forall (λ j, internal (info j) = true ∨ family (info j) ≠ "IPv4") l →
  Forall (λ j, family j ≠ "IPv4" ∨ internal j = true) (map info l).
Proof.
  intros H. apply Forall_fmap. eapply Forall_impl; [exact H|].
  intros j [?|?]; [right | left]; assumption.
Qed.

Lemma hostOf_interfaces name interfaces :
  concat (map snd (networkInterfaces (hostOf name interfaces)))
  = map info (concat (map snd interfaces)).
Proof.
  unfold hostOf. cbn [networkInterfaces].
  induction interfaces as [|[n l] rest IH]; [reflexivity|].
  cbn. rewrite map_app, <- IH. reflexivity.
Qed.

(** X16: [broadcastDiscovery] of a server without socket fails without sending.
    Otherwise it sends one datagram, to port 20000.  On a host without an
    interface that is IPv4 and not internal the datagram announces 127.0.0.1
    to 255.255.255.255.  On a host whose first such interface has an address
    and a netmask of equally many octets between 0 and 255, it announces
    that address and goes to an address of as many octets that agrees with
    the announced one wherever the netmask has a 1. *)
Theorem broadcast_announces_first_interface
    (platform name : string) (interfaces : list (string * list MaskedInterface))
    (srv : UDPDiscoveryServer) :
  (udpSocket srv = false →
     broadcastDiscovery platform name interfaces srv = inl "UDP socket not initialized")
  ∧ (udpSocket srv = true →
     Forall (λ j, internal (info j) = true ∨ family (info j) ≠ "IPv4")
            (concat (map snd interfaces)) →
     broadcastDiscovery platform name interfaces srv
     = inr [UdpSend (buildDiscoveryResponse platform (deviceName srv) "127.0.0.1")
                    20000 "255.255.255.255"])
  ∧ (∀ pre i post (a m : list N),
       udpSocket srv = true →
       concat (map snd interfaces) = pre ++ i :: post →
       Forall (λ j, internal (info j) = true ∨ family (info j) ≠ "IPv4") pre →
       internal (info i) = false → family (info i) = "IPv4" →
       address (info i) = join "." (map pretty a) →
       netmask i = join "." (map pretty m) →
       a ≠ [] → length m = length a →
       Forall (λ x, (x ≤ 255)%N) a → Forall (λ x, (x ≤ 255)%N) m →
       ∃ b : list N,
         broadcastDiscovery platform name interfaces srv
         = inr [UdpSend (buildDiscoveryResponse platform (deviceName srv)
                           (join "." (map pretty a)))
                        20000 (join "." (map pretty b))]
         ∧ length b = length a
         ∧ ∀ k x y z, a !! k = Some x → m !! k = Some y → b !! k = Some z →
             N.land z y = N.land x y).
Proof.
  unfold broadcastDiscovery. split; [|split].
  - intros ->. reflexivity.
  - intros -> Hall. cbn [negb].
    rewrite (getLocalIP_none (hostOf name interfaces))
      by (rewrite hostOf_interfaces; apply info_unusable, Hall).
    rewrite (broadcast_fallback interfaces Hall). reflexivity.
  - intros pre i post a m -> Hifs Hpre Hint Hfam Haddr Hmask Hne Hlen Ha Hm. cbn [negb].
    destruct (broadcast_octets a m Hlen Ha Hm) as (b & Hb & Hlb & Hbits).
    exists b. split; [|split; [exact Hlb | intros k x y z Hx Hy Hz; eapply Hbits; eassumption]].
    rewrite (getLocalIP_first (hostOf name interfaces) (map info pre) (info i) (map info post));
      [|rewrite hostOf_interfaces, Hifs, map_app; reflexivity
       |apply info_unusable, Hpre|exact Hfam|exact Hint].
    unfold getBroadcastAddress. rewrite Hifs, first_external by assumption.
    rewrite Haddr, Hmask.
    assert (Hdot : ∀ l : list N, Forall (λ y, occurs "." y = 0%nat) (map pretty l)).
    { intros l. apply Forall_forall. intros s Hs.
      apply list_elem_of_fmap in Hs as (n & -> & _). apply occurs_pretty. reflexivity. }
    rewrite (split_join "." (map pretty a)), (split_join "." (map pretty m));
      [|destruct m; [destruct a; [contradiction|discriminate]|discriminate]|apply Hdot
       |destruct a; [contradiction|discriminate]|apply Hdot].
    rewrite imap_lookup_zip by (rewrite !length_map; exact Hlen).
    rewrite Hb. reflexivity.
Qed.

Lemma broadcast_announces_first_interface_witness :
  ∃ b : list N,
    broadcastDiscovery "linux" "bridge"
      [("lo", [{| info := {| family := "IPv4"; internal := true; address := "127.0.0.1" |};
                  netmask := "255.0.0.0" |}]);
       ("eth0", [{| info := {| family := "IPv4"; internal := false;
                               address := "192.168.1.10" |};
                    netmask := "255.255.255.0" |}])]
      {| udpSocket := true; deviceName := "bridge"; onDeviceDiscovered := true;
         discoveredDevices := ∅ |}
    = inr [UdpSend "search_msg_received#RBIDoKFHLX9frYTh#4#bridge#192.168.1.10" 20000
                   (join "." (map pretty b))]
    ∧ length b = 4%nat.
Proof.
  destruct (proj2 (proj2 (broadcast_announces_first_interface "linux" "bridge"
              [("lo", [{| info := {| family := "IPv4"; internal := true;
                                      address := "127.0.0.1" |};
                          netmask := "255.0.0.0" |}]);
               ("eth0", [{| info := {| family := "IPv4"; internal := false;
                                       address := "192.168.1.10" |};
                            netmask := "255.255.255.0" |}])]
              {| udpSocket := true; deviceName := "bridge"; onDeviceDiscovered := true;
                 discoveredDevices := ∅ |}))
              [{| info := {| family := "IPv4"; internal := true; address := "127.0.0.1" |};
                  netmask := "255.0.0.0" |}]
              {| info := {| family := "IPv4"; internal := false; address := "192.168.1.10" |};
                 netmask := "255.255.255.0" |}
              [] [192; 168; 1; 10]%N [255; 255; 255; 0]%N)
    as (b & Hb & Hl & _);
    [reflexivity
    |reflexivity
    |constructor; [left; reflexivity | constructor]
    |reflexivity|reflexivity|reflexivity|reflexivity|discriminate|reflexivity
    |repeat constructor; cbn; lia
    |repeat constructor; cbn; lia
    |].
  exists b. split; [exact Hb | exact Hl].
Defined.

End DiscoveryFacts.

(** ** The bridge *)
Module BridgeFacts.
Import Js Constants Bridge Samples.
Local Open Scope js_scope.

Create HintDb pres.

(** *** Rules for [pres] *)
Section Rules.
Context (P : World → Prop).

Lemma pres_ret {A} (a : A) : pres P (ret a).
Proof. intros w H. exact H. Qed.

Lemma pres_throw {A} e : pres P (@throw A e).
Proof. intros w H. exact H. Qed.

Lemma pres_get : pres P get.
Proof. intros w H. exact H. Qed.

Lemma pres_getConn c : pres P (getConn c).
Proof. intros w H. exact H. Qed.

Lemma pres_bind {A B} (m : M A) (k : A → M B) :
  pres P m → (∀ a, pres P (k a)) → pres P (bind m k).
Proof.
  intros Hm Hk w H. specialize (Hm w H). unfold bind.
  destruct (m w) as [a w'|e w']; cbn in *; [apply Hk; exact Hm | exact Hm].
Qed.

Lemma pres_tryCatch {A} (m : M A) h :
  pres P m → (∀ e, pres P (h e)) → pres P (tryCatch m h).
Proof.
  intros Hm Hh w H. specialize (Hm w H). unfold tryCatch.
  destruct (m w) as [a w'|e w']; cbn in *; [exact Hm | apply Hh; exact Hm].
Qed.

Lemma pres_modify f : (∀ w, P w → P (f w)) → pres P (modify f).
Proof. intros Hf w H. apply Hf, H. Qed.

Lemma pres_when b m : pres P m → pres P (when b m).
Proof. intros Hm. destruct b; [exact Hm | apply pres_ret]. Qed.

Lemma pres_forEach {A} (l : list A) f : (∀ x, pres P (f x)) → pres P (forEach l f).
Proof.
  intros Hf. induction l as [|x l IH]; cbn [forEach]; [apply pres_ret|].
  apply pres_bind; [apply Hf | intros _; exact IH].
Qed.

Lemma pres_mapM {A B} (f : A → M B) l : (∀ x, pres P (f x)) → pres P (mapM f l).
Proof.
  intros Hf. induction l as [|x l IH]; cbn [mapM]; [apply pres_ret|].
  apply pres_bind; [apply Hf | intros y].
  apply pres_bind; [exact IH | intros ys; apply pres_ret].
Qed.

Lemma pres_setTimeout cb ms :
  (∀ w ts n, P w → P (set_timers ts n w)) → pres P (setTimeout cb ms).
Proof. intros Hf w H. apply Hf, H. Qed.

End Rules.

Ltac head_of t := lazymatch t with ?f _ => head_of f | _ => t end.

(** Take a computation apart down to its state updates. *)
Ltac pres_step :=
  lazymatch goal with
  | |- pres _ (bind _ _) => apply pres_bind; [|intros ?]
  | |- pres _ (ret _) => apply pres_ret
  | |- pres _ (throw _) => apply pres_throw
  | |- pres _ get => apply pres_get
  | |- pres _ (getConn _) => apply pres_getConn
  | |- pres _ (tryCatch _ _) => apply pres_tryCatch; [|intros ?]
  | |- pres _ (when _ _) => apply pres_when
  | |- pres _ (forEach _ _) => apply pres_forEach; intros ?
  | |- pres _ (mapM _ _) => apply pres_mapM; intros ?
  | |- pres _ (if ?b then _ else _) => destruct b
  | |- pres _ (match _ with _ => _ end) => case_match
  | |- pres _ (modify _) => fail
  | |- pres _ (setTimeout _ _) => fail
  | |- pres _ (let _ := _ in _) => cbv zeta
  | |- pres _ ?m =>
      first [ solve [eauto 2 with pres]
            | let h := head_of m in unfold h ]
  end.
Ltac pres_go := repeat pres_step.

(** *** The trace only grows *)
Lemma extends_effect t0 e : pres (extends t0) (effect e).
Proof.
  apply pres_modify. intros w [es H]. exists (es ++ [e]). cbn. rewrite H, app_assoc. reflexivity.
Qed.
#[local] Hint Resolve extends_effect : pres.

Ltac extends_prim :=
  lazymatch goal with
  | |- pres (extends _) (modify _) =>
      apply pres_modify; intros ? [? ?]; eexists; cbn; eassumption
  | |- pres (extends _) (setTimeout _ _) =>
      apply pres_setTimeout; intros ? ? ? [? ?]; eexists; cbn; eassumption
  end.

Lemma extends_settle t0 c ch sid r : pres (extends t0) (settle c ch sid r).
Proof. repeat (pres_step || extends_prim). Qed.




Ltac unfold_ops :=
  unfold getSock, getClient, isConnected, clearTimeout, updClient, updSock,
    updConn, effect, wsSend, withSocket, socketSetTimeout, removeAllListeners,
    when in *;
  unfold getConn, bind, ret, get, modify, throw, tryCatch, setTimeout in *.

(** Run a computation on a world whose record [c] is known. *)
Ltac look extra :=
  repeat first
    [ rewrite list_lookup_alter_eq
    | extra
    | progress cbn -[settle handleDeviceDisconnection broadcastToClients] ].

Lemma trace_after {A} (m : M A) w t :
  pres (extends t) m → extends t w → ∃ es, trace (final (m w)) = t ++ es.
Proof. intros Hm Hw. exact (Hm w Hw). Qed.

Lemma command_connect_order w c sid x :
  store w !! c = Some x → socket (commandClient x) = Some sid →
  ∃ rest, trace (final (cmd_onConnect c sid w))
          = trace w ++ Emit c Command EConnected
              :: SockWrite c Command sid
                   (JObj [("cmd", JNum 2); ("data", desktopInfo (host w))]) :: rest.
Proof.
  intros Hx Hs.
  unfold cmd_onConnect, emit, reportDesktopInfo, sendCommand. unfold_ops.
  look ltac:(first [rewrite Hx | rewrite Hs]).
  destruct (connectionTimeout _); look ltac:(first [rewrite Hx | rewrite Hs]).
  all: match goal with
       | |- ∃ _, trace (final (settle _ _ _ _ ?W)) = _ =>
           destruct (trace_after (settle c Command sid Resolved) W (trace W)
                       (extends_settle _ _ _ _ _)) as [es Hes];
             [exists []; symmetry; apply app_nil_r|]; rewrite Hes; cbn;
             exists es; rewrite <- !app_assoc; reflexivity
       end.
Qed.

(** *** The command channel's connect callback (C6) *)

(** C6, as amended: when the TCP connect of the command channel succeeds,
    the callback first emits "connected" and then writes the handshake frame
    (command 2 with the server's name, platform code 6, local IP and version
    1.0.0) to the socket; whatever resolving the promise sets off comes
    after both. *)
Theorem handshake_follows_connected (w : World) (c sid : nat) (x : MobileConnection)
    (Hx : store w !! c = Some x) (Hs : socket (commandClient x) = Some sid) :
  ∃ rest, trace (final (cmd_onConnect c sid w))
          = trace w ++ Emit c Command EConnected
              :: SockWrite c Command sid
                   (JObj [("cmd", JNum 2); ("data", desktopInfo (host w))]) :: rest.
Proof. exact (command_connect_order w c sid x Hx Hs). Qed.

Lemma handshake_follows_connected_witness :
  ∃ rest, trace (final (cmd_onConnect 0 0 inFlight))
          = trace inFlight ++ Emit 0 Command EConnected
              :: SockWrite 0 Command 0
                   (JObj [("cmd", JNum 2); ("data", desktopInfo (host inFlight))]) :: rest.
Proof.
  refine (handshake_follows_connected inFlight 0 0 _ _ _);
    vm_compute; reflexivity.
Defined.

(** C6 as stated fails: in the run where the command socket of the sample
    device connects, "connected" is emitted before anything is written to
    the socket. *)
Lemma handshake_before_connected_fails :
  before isTcpWrite (isEmitted Command EConnected) (since inFlight halfOpen) = false
  ∧ position (isEmitted Command EConnected) (since inFlight halfOpen) = Some 0%nat
  ∧ position isTcpWrite (since inFlight halfOpen) = Some 1%nat.
Proof. vm_compute. repeat split; reflexivity. Qed.

(** *** connectToDevice on an existing record (C10) *)

(** C10: for a device IP that has a record in the table, [connectToDevice]
    sends connection:success to the requester and attaches it; it reads
    neither the record's [connected] flag nor the two TCP clients.  So the
    second browser gets connection:success while the first connect is still
    in flight, and also after both channels have dropped.  Attached means:
    afterwards the requester is in the client set of that record, which
    holds it and the clients it held before and nobody else (unchanged when
    the requester was in it, with the requester added at the end otherwise);
    nothing else of the record and no other record has changed; and the
    requester's message and close handlers are bound to that record. *)
Theorem connect_reuses_record_unchecked
    (w : World) (d : Device) (ws c : nat)
    (Hc : mapGet (dev_ip d) (connections w) = Some c) :
  connectToDevice d ws w
  = Done tt (set_wsHandlers (wsHandlers w ++ [(ws, c)])
               (set_store
                  (alter (λ x, set_webSocketClients (setAdd ws (webSocketClients x)) x)
                         c (store w))
                  (set_trace (trace w ++ [WsSend ws (ConnectionSuccess d)]) w)))
  ∧ (connected <$> store inFlight !! 0%nat = Some false
     ∧ since inFlight (deliver inFlight (EvConnectDevice 2 pixel))
       = [WsSend 2 (ConnectionSuccess pixel)])
  ∧ (isConnectedFlag ∘ commandClient <$> store dropped !! 0%nat = Some false
     ∧ isConnectedFlag ∘ heartbeatClient <$> store dropped !! 0%nat = Some false
     ∧ since dropped (deliver dropped (EvConnectDevice 2 pixel))
       = [WsSend 2 (ConnectionSuccess pixel)])
  ∧ (let w' := final (connectToDevice d ws w) in
     (∀ x, store w !! c = Some x →
        ∃ x', store w' !! c = Some x'
          ∧ ws ∈ webSocketClients x'
          ∧ (∀ ws', ws' ∈ webSocketClients x' ↔ ws' = ws ∨ ws' ∈ webSocketClients x)
          ∧ (ws ∈ webSocketClients x → webSocketClients x' = webSocketClients x)
          ∧ (ws ∉ webSocketClients x → webSocketClients x' = webSocketClients x ++ [ws])
          ∧ x' = set_webSocketClients (webSocketClients x') x)
     ∧ (∀ c', c' ≠ c → store w' !! c' = store w !! c')
     ∧ (ws, c) ∈ wsHandlers w'
     ∧ connections w' = connections w).
Proof.
  assert (Hrun : connectToDevice d ws w
    = Done tt (set_wsHandlers (wsHandlers w ++ [(ws, c)])
                 (set_store
                    (alter (λ x, set_webSocketClients (setAdd ws (webSocketClients x)) x)
                           c (store w))
                    (set_trace (trace w ++ [WsSend ws (ConnectionSuccess d)]) w)))).
  { unfold connectToDevice, attach, setupWebSocketHandling. unfold_ops.
    rewrite Hc. reflexivity. }
  split; [exact Hrun|].
  split; [vm_compute; repeat split; reflexivity|].
  split; [vm_compute; repeat split; reflexivity|].
  cbv zeta. rewrite Hrun. cbn [final wsHandlers store connections
    set_wsHandlers set_store set_trace].
  split; [|split; [|split]].
  - intros x Hx. eexists. split; [rewrite list_lookup_alter_eq, Hx; reflexivity|].
    cbn [webSocketClients set_webSocketClients]. unfold setAdd.
    case_bool_decide as Hin.
    + split; [exact Hin|]. split; [intros ws'; split; [auto | intros [->|?]; assumption]|].
      split; [reflexivity|]. split; [intros Hn; contradiction|].
      destruct x; reflexivity.
    + split; [apply elem_of_app; right; apply list_elem_of_singleton; reflexivity|].
      split.
      { intros ws'. rewrite elem_of_app, list_elem_of_singleton. tauto. }
      split; [intros Hy; contradiction|]. split; [reflexivity|].
      destruct x; reflexivity.
  - intros c' Hne. apply list_lookup_alter_ne. congruence.
  - apply elem_of_app. right. apply list_elem_of_singleton. reflexivity.
  - destruct w; reflexivity.
Qed.

Lemma connect_reuses_record_unchecked_witness :
  final (connectToDevice pixel 2 inFlight) = deliver inFlight (EvConnectDevice 2 pixel).
Proof.
  assert (Hc : mapGet (dev_ip pixel) (connections inFlight) = Some 0%nat)
    by (vm_compute; reflexivity).
  rewrite (proj1 (connect_reuses_record_unchecked inFlight pixel 2 0 Hc)).
  vm_compute. reflexivity.
Defined.

(** *** A WebSocket client closes (C9) *)









(** *** handleDeviceDisconnection and its timers (C2) *)

Lemma broadcast_run clients message : ∀ w,
  broadcastToClients clients message w
  = Done tt (set_trace (trace w ++ map (λ ws, WsSend ws message)
                                    (List.filter (λ ws, isOpen ws w) clients)) w).
Proof.
  induction clients as [|ws rest IH]; intros w.
  - cbn. rewrite app_nil_r. destruct w; reflexivity.
  - unfold broadcastToClients in *. cbn [forEach List.filter].
    unfold bind at 1, bind at 1, get.
    destruct (isOpen ws w) eqn:Ho; cbn [when].
    + unfold wsSend, effect, modify. rewrite IH. cbn [map]. unfold isOpen. cbn.
      rewrite <- app_assoc. reflexivity.
    + unfold ret. apply IH.
Qed.

Lemma handleDeviceDisconnection_run w c x :
  store w !! c = Some x →
  handleDeviceDisconnection c w
  = Done tt
      (if bothDown x then
         set_timers
           (timers w ++ [{| tid := timerCount w; delay := 5000; due := now w + 5000;
                            callback := GraceClose c |}])
           (S (timerCount w))
           (set_trace
              (trace w ++ map (λ ws, WsSend ws (DeviceDisconnected (device x)))
                              (List.filter (λ ws, isOpen ws w) (webSocketClients x)))
              (set_store (alter (set_connected false) c (store w)) w))
       else if negb (isConnectedFlag (commandClient x)) then
         set_timers
           (timers w ++ [{| tid := timerCount w; delay := 2000; due := now w + 2000;
                            callback := ReconnectCommand c |}])
           (S (timerCount w)) w
       else if negb (isConnectedFlag (heartbeatClient x)) then
         set_timers
           (timers w ++ [{| tid := timerCount w; delay := 2000; due := now w + 2000;
                            callback := ReconnectHeartbeat c |}])
           (S (timerCount w)) w
       else w).
Proof.
  intros Hx. unfold handleDeviceDisconnection, bothDown. unfold_ops.
  cbn -[broadcastToClients]. rewrite Hx. cbn -[broadcastToClients].
  destruct (isConnectedFlag (commandClient x)), (isConnectedFlag (heartbeatClient x));
    cbn -[broadcastToClients]; try reflexivity.
  rewrite list_lookup_alter_eq, Hx. cbn -[broadcastToClients].
  rewrite broadcast_run. reflexivity.
Qed.


Lemma graceClose_idle w c x :
  store w !! c = Some x → bothDown x = false → graceClose c w = Done tt w.
Proof.
  intros Hx Hb. unfold graceClose. unfold_ops. cbn. rewrite Hx. cbn.
  unfold bothDown in Hb. rewrite Hb. reflexivity.
Qed.

Lemma timer_not_due w t tm rest :
  filter (λ y, tid y = t) (timers w) = tm :: rest → now w < due tm →
  deliver w (EvTimer t) = w.
Proof.
  intros Hf Hlt. unfold deliver, handler. rewrite Hf.
  destruct (crashed w); [reflexivity|].
  destruct (due tm <=? now w) eqn:Hle; [|reflexivity].
  apply Z.leb_le in Hle. lia.
Qed.

Lemma since_append w w' es : trace w' = trace w ++ es → since w w' = es.
Proof. intros H. unfold since. rewrite H, drop_app_length. reflexivity. Qed.

Lemma drop_map_app {A B} (f : A → B) l r :
  drop (length l) (map f (l ++ r)) = map f r.
Proof.
  rewrite map_app. rewrite <- (length_map f l). apply drop_app_length.
Qed.

(** X21: one call of [handleDeviceDisconnection] sends device:disconnected,
    to the open clients attached to the record, only when both TCP clients
    report not-connected; otherwise it sends nothing at all and only
    schedules a reconnect.  It never touches the table of records: with both
    channels down it sets a timer of 5000 ms, which cannot fire earlier, and
    whose callback leaves the world as it is when the clients of the record
    it was set for do not both report not-connected. *)
Theorem disconnect_reported_only_when_both_down
    (w : World) (c : nat) (x : MobileConnection) (Hx : store w !! c = Some x) :
  let w' := final (handleDeviceDisconnection c w) in
  handleDeviceDisconnection c w = Done tt w'
  ∧ connections w' = connections w
  ∧ (bothDown x = true →
       since w w' = map (λ ws, WsSend ws (DeviceDisconnected (device x)))
                        (List.filter (λ ws, isOpen ws w) (webSocketClients x))
       ∧ timers w' = timers w ++ [{| tid := timerCount w; delay := 5000;
                                     due := now w + 5000; callback := GraceClose c |}])
  ∧ (bothDown x = false →
       trace w' = trace w ∧ store w' = store w
       ∧ Forall (λ dc, dc = (2000, ReconnectCommand c) ∨ dc = (2000, ReconnectHeartbeat c))
                (drop (length (timers w)) (pendingCallbacks w')))
  ∧ (∀ w0 x0, store w0 !! c = Some x0 → bothDown x0 = false →
       graceClose c w0 = Done tt w0)
  ∧ (∀ w0 t tm rest, filter (λ y, tid y = t) (timers w0) = tm :: rest →
       now w0 < due tm → deliver w0 (EvTimer t) = w0).
Proof.
  cbv zeta. rewrite (handleDeviceDisconnection_run w c x Hx). cbn [final].
  split; [reflexivity|].
  split; [destruct (bothDown x), (isConnectedFlag (commandClient x)),
            (isConnectedFlag (heartbeatClient x)); reflexivity|].
  split.
  { intros ->. split; [apply since_append|]; reflexivity. }
  split.
  { intros ->. unfold pendingCallbacks.
    destruct (isConnectedFlag (commandClient x)), (isConnectedFlag (heartbeatClient x));
      try discriminate; cbn; (split; [reflexivity|]); (split; [reflexivity|]);
      rewrite ?drop_map_app;
      [ rewrite drop_ge by (rewrite length_map; lia); constructor
      | constructor; [cbn; auto | constructor] .. ]. }
  split; [intros w0 x0; apply graceClose_idle | apply timer_not_due].
Qed.

Lemma disconnect_reported_only_when_both_down_witness :
  (bothDown <$> store dropped !! 0%nat) = Some true
  ∧ since dropped (final (handleDeviceDisconnection 0 dropped))
    = [WsSend 1 (DeviceDisconnected pixel)].
Proof.
  assert (Hx : store dropped !! 0%nat
               = Some (default blankConnection (store dropped !! 0%nat)))
    by (vm_compute; reflexivity).
  destruct (disconnect_reported_only_when_both_down dropped 0 _ Hx)
    as (_ & _ & Hdown & _).
  split; [vm_compute; reflexivity|].
  rewrite (proj1 (Hdown ltac:(vm_compute; reflexivity))).
  vm_compute. reflexivity.
Defined.

(** C2 fails in the code: a grace timer outlives the record it was set for,
    and destroys a record whose channels are both up.  From the world in
    which both channels are up, every event below is delivered:
    - the command socket closes, its reconnect is started two seconds later
      and is still connecting when the heartbeat socket closes (3 s);
    - the grace timer fires (8 s) and closes the connection; the command
      socket destroyed by it is closed by the runtime, and its close handler
      sets a second grace timer for the record, which is no longer in the
      table (timer 5, due at 13 s);
    - the browser connects to the device again (9 s): a new record 1 is
      registered under the same IP, both its channels come up, and nothing
      else happens to it;
    - at 13 s timer 5 fires.  It finds the clients of record 0 down, closes
      the connection registered under the IP, and so destroys both sockets
      of record 1 and removes it from the table, four seconds after it was
      made, while its two clients report connected, and without any grace
      timer having been set for it. *)
Theorem stale_grace_timer_closes_new_connection :
  allDelivered linked (lostRun ++ cleanupRun ++ reconnectRun ++ staleRun) = true
  ∧ connections cleanedUp = []
  ∧ map (λ t, (tid t, due t, callback t)) (timers cleanedUp)
    = [(3%nat, 12000, CmdConnectionTimeout 0 1); (5%nat, 13000, GraceClose 0)]
  ∧ now (deliver cleanedUp (EvAdvance 1000)) = 9000
  ∧ since cleanedUp reconnected
    = [SockConnect 1 Command 0 20001 "192.168.1.50";
       Emit 1 Command EConnected;
       SockWrite 1 Command 0 (handshakeFrame sampleHost);
       SockConnect 1 Heartbeat 0 20002 "192.168.1.50";
       Emit 1 Heartbeat EConnected;
       SockWrite 1 Heartbeat 0 (heartbeatFrame sampleHost (JNum 0) 9000);
       FetchMobileInfo 1;
       WsSend 1 (ConnectionSuccess pixel)]
  ∧ connections reconnected = [("192.168.1.50", 1%nat)]
  ∧ ((λ x, (connected x, isConnectedFlag (commandClient x),
            isConnectedFlag (heartbeatClient x), bothDown x))
       <$> store reconnected !! 1%nat) = Some (true, true, true, false)
  ∧ map (λ t, (tid t, due t, callback t)) (timers reconnected)
    = [(3%nat, 12000, CmdConnectionTimeout 0 1); (5%nat, 13000, GraceClose 0);
       (7%nat, 14000, HbLiveness 1)]
  ∧ (bothDown <$> store reconnected !! 0%nat) = Some true
  ∧ now (run reconnected staleRun) = 13000
  ∧ since reconnected (run reconnected staleRun)
    = [SockDestroy 1 Command 0; SockDestroy 1 Heartbeat 0;
       WsSend 1 (ConnectionClosed pixel)]
  ∧ connections (run reconnected staleRun) = []
  ∧ crashed (run reconnected staleRun) = None.
Proof. vm_compute. repeat split; reflexivity. Qed.

(** *** The heartbeat channel fails during the first connect (C1) *)

(** C1 at its failing input: the command socket connects, the heartbeat
    socket reports its idle timeout.  The rollback is complete (both clients
    are disconnected, both sockets destroyed, no record for the IP is left)
    but the requester is sent connection:error twice, once by the [catch]
    of [connectToDevice] and once more by the [catch] of the router. *)
Theorem failed_connect_reports_error_twice :
  mapGet "192.168.1.50" (connections heartbeatTimesOut) = None
  ∧ (clientDown ∘ commandClient <$> store heartbeatTimesOut !! 0%nat) = Some true
  ∧ (clientDown ∘ heartbeatClient <$> store heartbeatTimesOut !! 0%nat) = Some true
  ∧ crashed heartbeatTimesOut = None
  ∧ List.filter (sentTo 1 "connection:error") (since halfOpen heartbeatTimesOut)
    = [WsSend 1 (ConnectionError "Failed to connect to device" (Some pixel));
       WsSend 1 (ConnectionError "Connection timeout" None)]
  ∧ count (sentTo 1 "connection:error") (trace heartbeatTimesOut) = 2%nat.
Proof. vm_compute. repeat split; reflexivity. Qed.

(** The other way for the heartbeat connect to fail: the socket reports an
    error.  The client re-emits it as ['error'], nobody listens, and the
    exception ends the process before anything is rolled back or sent. *)
Lemma refused_connect_ends_process :
  crashed heartbeatRefused = Some "ECONNREFUSED"
  ∧ mapGet "192.168.1.50" (connections heartbeatRefused) = Some 0%nat
  ∧ count (sentTo 1 "connection:error") (trace heartbeatRefused) = 0%nat.
Proof. vm_compute. repeat split; reflexivity. Qed.

(** *** A heartbeat without echo (C5) *)

(** C5 at its failing input: both channels are up and the first heartbeat
    gets no echo.  When the liveness timer fires the client disconnects and
    emits "disconnected"; the close of the socket it destroyed emits
    "disconnected" again.  The manager handles both, so two reconnect timers
    of 2000 ms are pending, and both call [connect] on the heartbeat
    client. *)
Theorem silent_heartbeat_disconnects_twice :
  count (isEmitted Heartbeat EDisconnected) (since linked silent) = 2%nat
  ∧ count (isEmitted Heartbeat ETimeout) (since linked silent) = 1%nat
  ∧ (isConnectedFlag ∘ commandClient <$> store silent !! 0%nat) = Some true
  ∧ pendingCallbacks silent = [(2000, ReconnectHeartbeat 0%nat); (2000, ReconnectHeartbeat 0%nat)]
  ∧ count (isSockConnect Heartbeat) (since silent silentLater) = 2%nat
  ∧ crashed silentLater = None.
Proof. vm_compute. repeat split; reflexivity. Qed.

(** *** The relay (C7, C8) *)

(** C7 at its failing input: a [file:upload] request is answered with
    success at once; no HTTP call is made and nothing is written to a TCP
    socket, whatever the world, the record and the payload. *)
Theorem upload_is_not_relayed
    (w : World) (c ws : nat) (payload id : option Json) (resp : HttpResult) :
  handleWebSocketMessage
    {| msg_type := "file:upload"; msg_payload := payload; msg_id := id |}
    (Some c) ws resp w
  = Done tt (set_trace
               (trace w ++ [WsSend ws (Reply id "file:upload:response" DataSuccess)]) w).
Proof. reflexivity. Qed.

(** The sibling requests do reach the device: [file:delete] makes one HTTP
    call with the 30 s timeout to the device's port 9527. *)
Lemma delete_is_relayed :
  List.filter isHttpCall
    (since linked
       (final (handleWebSocketMessage
                 {| msg_type := "file:delete";
                    msg_payload := Some (JObj [("path", JStr "/sdcard/a.txt")]);
                    msg_id := Some (JStr "d1") |}
                 (Some 0%nat) 1 (HttpOk (JObj [("code", JNum 0)])) linked)))
  = [HttpCall {| http_method := "DELETE"; http_url := "http://192.168.1.50:9527/file";
                 http_data := Some (JObj [("path", JStr "/sdcard/a.txt")]);
                 http_timeout := 30000 |}].
Proof. vm_compute. reflexivity. Qed.

Lemma upload_sample_answered_at_once :
  since linked (final (ws_onMessage 1 0 uploadRequest (HttpFail "unused") linked))
  = [WsSend 1 (Reply (Some (JStr "u1")) "file:upload:response" DataSuccess)].
Proof. vm_compute. reflexivity. Qed.

(** C8 at its failing input: one image with id 7.  The request is relayed
    to /image/all and answered under the request's id, but the
    [thumbnailUrl] is made of the device's address and the image's path;
    changing the id to 8 leaves it as it is. *)
Theorem image_thumbnail_is_built_from_path :
  since linked
    (final (handleWebSocketMessage imageListRequest (Some 0%nat) 1
              (imagesAnswer [imageAt 7 "/sdcard/DCIM/a b.jpg"]) linked))
  = [HttpCall {| http_method := "POST"; http_url := "http://192.168.1.50:9527/image/all";
                 http_data := Some (JObj []); http_timeout := 30000 |};
     WsSend 1 (Reply (Some (JStr "x")) "image:list:response"
        (DataJson (JArr [JObj
           [("id", JNum 7); ("path", JStr "/sdcard/DCIM/a b.jpg");
            ("thumbnailUrl",
             JStr "http://192.168.1.50:9527/stream/thumbnail?path=%2Fsdcard%2FDCIM%2Fa%20b.jpg")]])))]
  ∧ (thumbnailUrl (default blankConnection (store linked !! 0%nat))
       (imageAt 7 "/sdcard/DCIM/a b.jpg") linked
     = thumbnailUrl (default blankConnection (store linked !! 0%nat))
         (imageAt 8 "/sdcard/DCIM/a b.jpg") linked).
Proof. vm_compute. split; reflexivity. Qed.

(** *** The heartbeat protocol (C4) *)

(** A client whose heartbeat-relevant fields are those of an acceptable
    client is acceptable. *)
Lemma beatOk_same k k' :
  socket k' = socket k → waitingForResponse k' = waitingForResponse k →
  sockets k' = sockets k → beatOk k → beatOk k'.
Proof.
  intros Hs Hw Hl [H1 H2 H3]. constructor; rewrite ?Hs, ?Hw, ?Hl; assumption.
Qed.

Lemma lookup_alter_inv {A} (h : A → A) (l : list A) i j y :
  alter h i l !! j = Some y →
  (j = i ∧ ∃ s, l !! i = Some s ∧ y = h s) ∨ (j ≠ i ∧ l !! j = Some y).
Proof.
  destruct (decide (j = i)) as [->|Hne].
  - rewrite list_lookup_alter_eq. destruct (l !! i) as [s|]; cbn; [|discriminate].
    intros [= <-]. left. eauto.
  - rewrite list_lookup_alter_ne by congruence. auto.
Qed.

(** An update of one socket that leaves its count alone and does not
    revive it. *)
Lemma beatOk_sock k sid (h : Sock → Sock) :
  (∀ s, unanswered (h s) = unanswered s) →
  (∀ s, spent s → spent (h s)) →
  beatOk k → beatOk (set_sockets (alter h sid) k).
Proof.
  intros Hu Hsp [H1 H2 H3]. constructor; cbn.
  - intros j y Hy. apply lookup_alter_inv in Hy as [(-> & s & Hs & ->)|(_ & Hy)].
    + rewrite Hu. eauto.
    + eauto.
  - intros j y Hy Hne. apply lookup_alter_inv in Hy as [(-> & s & Hs & ->)|(_ & Hy)].
    + apply Hsp. eauto.
    + eauto.
  - intros j y Hc Hy Hw. apply lookup_alter_inv in Hy as [(-> & s & Hs & ->)|(_ & Hy)].
    + rewrite Hu. eauto.
    + eauto.
Qed.

(** The same for the current socket, which may change state freely. *)
Lemma beatOk_current k sid (h : Sock → Sock) :
  socket k = Some sid →
  (∀ s, unanswered (h s) = unanswered s) →
  beatOk k → beatOk (set_sockets (alter h sid) k).
Proof.
  intros Hcur Hu [H1 H2 H3]. constructor; cbn.
  - intros j y Hy. apply lookup_alter_inv in Hy as [(-> & s & Hs & ->)|(_ & Hy)].
    + rewrite Hu. eauto.
    + eauto.
  - intros j y Hy Hne. apply lookup_alter_inv in Hy as [(-> & s & Hs & ->)|(_ & Hy)].
    + congruence.
    + eauto.
  - intros j y Hc Hy Hw. apply lookup_alter_inv in Hy as [(-> & s & Hs & ->)|(_ & Hy)].
    + rewrite Hu. eauto.
    + eauto.
Qed.

(** A heartbeat is written: allowed when the client was not waiting. *)
Lemma beatOk_sent k sid :
  socket k = Some sid → waitingForResponse k = false → beatOk k →
  beatOk (set_waitingForResponse true
            (set_sockets (alter (λ s, setSock_unanswered (S (unanswered s)) s) sid) k)).
Proof.
  intros Hcur Hw [H1 H2 H3]. constructor; cbn.
  - intros j y Hy. apply lookup_alter_inv in Hy as [(-> & s & Hs & ->)|(_ & Hy)].
    + cbn. rewrite (H3 _ _ Hcur Hs Hw). lia.
    + eauto.
  - intros j y Hy Hne. apply lookup_alter_inv in Hy as [(-> & s & Hs & ->)|(_ & Hy)].
    + congruence.
    + eauto.
  - discriminate.
Qed.

(** An echo is handled on the current socket. *)
Lemma beatOk_answered k sid :
  socket k = Some sid → beatOk k →
  beatOk (set_sockets (alter (λ s, setSock_unanswered (Nat.pred (unanswered s)) s) sid)
            (set_waitingForResponse false k)).
Proof.
  intros Hcur [H1 H2 H3]. constructor; cbn.
  - intros j y Hy. apply lookup_alter_inv in Hy as [(-> & s & Hs & ->)|(_ & Hy)].
    + cbn. specialize (H1 _ _ Hs). lia.
    + eauto.
  - intros j y Hy Hne. apply lookup_alter_inv in Hy as [(-> & s & Hs & ->)|(_ & Hy)].
    + congruence.
    + eauto.
  - intros j y Hc Hy _. assert (j = sid) as -> by congruence.
    apply lookup_alter_inv in Hy as [(_ & s & Hs & ->)|(Hne & _)]; [|congruence].
    cbn. specialize (H1 _ _ Hs). lia.
Qed.

(** The current socket is given up, having been destroyed. *)
Lemma beatOk_dropped k :
  (∀ sid s, socket k = Some sid → sockets k !! sid = Some s → spent s) →
  beatOk k → beatOk (set_socket None k).
Proof.
  intros Hsp [H1 H2 H3]. constructor; cbn.
  - exact H1.
  - intros j y Hy _. destruct (decide (socket k = Some j)) as [Hc|Hc]; eauto.
  - discriminate.
Qed.

(** A fresh socket replaces the current one. *)
Lemma beatOk_fresh k :
  (∀ sid s, socket k = Some sid → sockets k !! sid = Some s → spent s) →
  beatOk k →
  beatOk (set_socket (Some (length (sockets k))) (set_sockets (λ l, l ++ [newSock]) k)).
Proof.
  intros Hsp [H1 H2 H3]. constructor; cbn.
  - intros j y Hy. apply lookup_app_Some in Hy as [Hy|[_ Hy]]; [eauto|].
    apply list_lookup_singleton_Some in Hy as [_ <-]. cbn. lia.
  - intros j y Hy Hne. apply lookup_app_Some in Hy as [Hy|[Hge Hy]].
    + destruct (decide (socket k = Some j)) as [Hc|Hc]; eauto.
    + apply list_lookup_singleton_Some in Hy as [Hj _].
      exfalso. apply Hne. f_equal. lia.
  - intros j y [= <-] Hy _. rewrite lookup_app_r in Hy by lia.
    rewrite Nat.sub_diag in Hy. injection Hy as <-. reflexivity.
Qed.

Lemma beatOk_new : beatOk newClient.
Proof. constructor; cbn; intros; simplify_eq. Qed.

(** Worlds: an update of one record, and a new record. *)
Lemma beatsOk_upd w c (g : MobileConnection → MobileConnection) :
  (∀ x, store w !! c = Some x → beatOk (heartbeatClient x) →
        beatOk (heartbeatClient (g x))) →
  beatsOk w → beatsOk (set_store (alter g c (store w)) w).
Proof.
  intros Hg Hw c' x' Hx'. cbn in Hx'.
  apply lookup_alter_inv in Hx' as [(-> & x & Hx & ->)|(_ & Hx')]; eauto.
Qed.

Lemma beatsOk_store w w' : store w' = store w → beatsOk w → beatsOk w'.
Proof. intros He Hw c x. rewrite He. apply Hw. Qed.

Lemma beatsOk_final w w' c (g : MobileConnection → MobileConnection) :
  store w' = alter g c (store w) →
  (∀ x, store w !! c = Some x → beatOk (heartbeatClient x) →
        beatOk (heartbeatClient (g x))) →
  beatsOk w → beatsOk w'.
Proof.
  intros He Hg Hw. apply (beatsOk_store (set_store (alter g c (store w)) w)).
  - exact He.
  - apply beatsOk_upd; assumption.
Qed.

Ltac merge_alters :=
  cbn [store set_store set_trace set_timers set_connections set_wsHandlers
       set_openClients set_now set_crashed];
  rewrite ?list_alter_alter_eq.

Lemma beats_sendHeartbeat c : pres beatsOk (sendHeartbeat c).
Proof.
  intros w Hw. unfold sendHeartbeat, startTimeoutTimer, stopTimeoutTimer. unfold_ops.
  cbn. destruct (store w !! c) as [x|] eqn:Hx; cbn; [|exact Hw].
  destruct (socket (heartbeatClient x)) as [sid|] eqn:Hs; [|exact Hw].
  destruct (isConnectedFlag (heartbeatClient x)); cbn; [|exact Hw].
  destruct (waitingForResponse (heartbeatClient x)) eqn:Hwait; cbn; [exact Hw|].
  repeat (rewrite list_lookup_alter_eq, ?Hx; cbn).
  destruct (timeoutTimer (heartbeatClient x)); cbn.
  all: eapply beatsOk_final; [merge_alters; reflexivity | | exact Hw].
  all: intros x0 Hx0 Hok; assert (x0 = x) as -> by congruence; cbn.
  all: eapply beatOk_same;
         [| | | exact (beatOk_sent (heartbeatClient x) sid Hs Hwait Hok)];
         reflexivity.
Qed.

(** *** Rules for [hoare] *)
Section HoareRules.
Context {A : Type}.

Lemma hoare_ret (a : A) (Q : A → World → Prop) E : hoare (Q a) (ret a) Q E.
Proof. intros w H. exact H. Qed.

Lemma hoare_skip (a : A) P E : hoare P (ret a) (λ _, P) E.
Proof. intros w H. exact H. Qed.

Lemma hoare_bind {B} P (m : M A) (k : A → M B) R Q E :
  hoare P m R E → (∀ a, hoare (R a) (k a) Q E) → hoare P (bind m k) Q E.
Proof.
  intros Hm Hk w H. specialize (Hm w H). unfold bind.
  destruct (m w) as [a w'|e w']; [apply Hk; exact Hm | exact Hm].
Qed.

Lemma hoare_conseq (P P' : World → Prop) (m : M A) (Q Q' : A → World → Prop) E :
  (∀ w, P w → P' w) → (∀ a w, Q' a w → Q a w) →
  hoare P' m Q' E → hoare P m Q E.
Proof.
  intros HP HQ Hm w H. specialize (Hm w (HP w H)).
  destruct (m w); [apply HQ; exact Hm | exact Hm].
Qed.

Lemma hoare_of_pres P (m : M A) : pres P m → hoare P m (λ _, P) P.
Proof. intros Hm w H. specialize (Hm w H). destruct (m w); exact Hm. Qed.

Lemma pres_of_hoare P (m : M A) : hoare P m (λ _, P) P → pres P m.
Proof. intros Hm w H. specialize (Hm w H). destruct (m w); exact Hm. Qed.

End HoareRules.

(** *** Rules for [focus] *)

Lemma focus_beats c w : beatsOk w ↔ focus c beatOk w.
Proof.
  split.
  - intros H. split; intros; eapply H; eauto.
  - intros [Ho Hc] c' x Hx. destruct (decide (c' = c)) as [->|Hne]; eauto.
Qed.

Lemma focus_weaken c (φ ψ : Client → Prop) w :
  (∀ k, φ k → ψ k) → focus c φ w → focus c ψ w.
Proof. intros Hi [Ho Hc]. split; [exact Ho | intros x Hx; apply Hi; eauto]. Qed.

(** A write to the heartbeat client of [c]: afterwards the client is the
    image of one that satisfied [φ]. *)
Lemma focus_upd c (φ : Client → Prop) f E :
  hoare (focus c φ) (updClient c Heartbeat f)
        (λ _, focus c (λ k', ∃ k, φ k ∧ k' = f k)) E.
Proof.
  unfold hoare, updClient, updConn, modify. intros w [Ho Hc].
  split; cbn [store set_store].
  - intros c' x Hne Hx. rewrite list_lookup_alter_ne in Hx by congruence. eauto.
  - intros x Hx. rewrite list_lookup_alter_eq in Hx.
    destruct (store w !! c) as [x0|] eqn:Hx0; [|discriminate].
    injection Hx as <-. cbn. eauto.
Qed.

Lemma focus_updSock c (φ : Client → Prop) sid h E :
  hoare (focus c φ) (updSock c Heartbeat sid h)
        (λ _, focus c (λ k', ∃ k, φ k ∧ k' = set_sockets (alter h sid) k)) E.
Proof. apply focus_upd. Qed.

(** A read of the heartbeat client of [c]. *)
Lemma focus_read c (φ : Client → Prop) E :
  hoare (focus c φ) (getClient c Heartbeat)
        (λ k, focus c (λ k', φ k' ∧ k' = k)) E.
Proof.
  intros w [Ho Hc]. cbn. split; [exact Ho|].
  intros x Hx. rewrite Hx. cbn. split; [eauto | reflexivity].
Qed.

Lemma focus_readSock c (φ : Client → Prop) sid E :
  hoare (focus c φ) (getSock c Heartbeat sid)
        (λ s, focus c (λ k', φ k' ∧ default newSock (sockets k' !! sid) = s)) E.
Proof.
  intros w [Ho Hc]. cbn. split; [exact Ho|].
  intros x Hx. rewrite Hx. cbn. split; [eauto | reflexivity].
Qed.

(** What leaves the store alone leaves [focus] alone. *)
Lemma focus_frame {A} c (φ : Client → Prop) (m : M A) E :
  (∀ w, ∃ a w', m w = Done a w' ∧ store w' = store w) →
  hoare (focus c φ) m (λ _, focus c φ) E.
Proof.
  intros Hm w H. destruct (Hm w) as (a & w' & -> & Hs).
  destruct H as [Ho Hc]. split; intros ?; rewrite Hs; eauto.
Qed.

Lemma frame_effect e w : ∃ a w', effect e w = Done a w' ∧ store w' = store w.
Proof. eexists _, _. split; reflexivity. Qed.

Lemma frame_clearTimeout t w : ∃ a w', clearTimeout t w = Done a w' ∧ store w' = store w.
Proof. eexists _, _. split; reflexivity. Qed.

Lemma frame_setTimeout cb ms w : ∃ a w', setTimeout cb ms w = Done a w' ∧ store w' = store w.
Proof. eexists _, _. split; reflexivity. Qed.

Lemma frame_get w : ∃ a w', get w = Done a w' ∧ store w' = store w.
Proof. eexists _, _. split; reflexivity. Qed.

(** Take one step of a computation on the heartbeat client of a record. *)
Ltac sp_step :=
  lazymatch goal with
  | |- hoare (focus ?c _) (bind (updClient ?c Heartbeat _) _) _ _ =>
      eapply hoare_bind; [apply focus_upd | intros ?; cbv beta]
  | |- hoare (focus ?c _) (bind (updSock ?c Heartbeat _ _) _) _ _ =>
      eapply hoare_bind; [apply focus_updSock | intros ?; cbv beta]
  | |- hoare (focus ?c _) (bind (getClient ?c Heartbeat) _) _ _ =>
      eapply hoare_bind; [apply focus_read | intros ?k]
  | |- hoare (focus ?c _) (bind (getSock ?c Heartbeat _) _) _ _ =>
      eapply hoare_bind; [apply focus_readSock | intros ?s]
  | |- hoare (focus ?c _) (bind (effect _) _) _ _ =>
      eapply hoare_bind; [apply focus_frame, frame_effect | intros ?; cbv beta]
  | |- hoare (focus ?c _) (bind (clearTimeout _) _) _ _ =>
      eapply hoare_bind; [apply focus_frame, frame_clearTimeout | intros ?; cbv beta]
  | |- hoare (focus ?c _) (bind (setTimeout _ _) _) _ _ =>
      eapply hoare_bind; [apply focus_frame, frame_setTimeout | intros ?t]
  | |- hoare (focus ?c _) (bind get _) _ _ =>
      eapply hoare_bind; [apply focus_frame, frame_get | intros ?w]
  | |- hoare (focus ?c _) (bind (ret _) _) _ _ =>
      eapply hoare_bind; [apply hoare_skip | intros ?; cbv beta]
  end.

(** The last step: an update, or nothing. *)
Ltac sp_last :=
  lazymatch goal with
  | |- hoare (focus ?c _) (updClient ?c Heartbeat _) _ _ =>
      eapply hoare_conseq; [intros ? H; exact H | | apply focus_upd]
  | |- hoare (focus ?c _) (updSock ?c Heartbeat _ _) _ _ =>
      eapply hoare_conseq; [intros ? H; exact H | | apply focus_updSock]
  | |- hoare (focus ?c _) (effect _) _ _ =>
      eapply hoare_conseq; [intros ? H; exact H | | apply focus_frame, frame_effect]
  | |- hoare (focus ?c _) (ret _) _ _ =>
      eapply hoare_conseq; [intros ? H; exact H | | apply hoare_skip]
  end;
  cbv beta; intros ? ?; apply focus_weaken; intros ?k' Hsp.

Lemma hoare_tryCatch {A} P (m : M A) h Q E' E :
  hoare P m Q E' → (∀ e, hoare E' (h e) Q E) → hoare P (tryCatch m h) Q E.
Proof.
  intros Hm Hh w H. specialize (Hm w H). unfold tryCatch.
  destruct (m w) as [a w'|e w']; [exact Hm | apply Hh; exact Hm].
Qed.

Lemma hoare_pre {A} (P P' : World → Prop) (m : M A) Q E :
  (∀ w, P w → P' w) → hoare P' m Q E → hoare P m Q E.
Proof. intros HP Hm w H. apply Hm, HP, H. Qed.

Lemma focus_stop c (φ : Client → Prop) E :
  hoare (focus c φ) (stopTimeoutTimer c)
        (λ _, focus c (λ k', ∃ k, φ k ∧ stopped k k')) E.
Proof.
  unfold stopTimeoutTimer. sp_step. destruct (timeoutTimer k).
  - sp_step. sp_last.
    destruct Hsp as (k1 & [Hk1 ->] & ->). exists k. split; [exact Hk1|].
    right. reflexivity.
  - sp_last. destruct Hsp as [Hk ->]. exists k. split; [exact Hk | left; reflexivity].
Qed.

Lemma stopped_same k k' : stopped k k' → sameBeat k k'.
Proof. intros [-> | ->]; repeat split. Qed.

Lemma focus_destroy c sid (φ : Client → Prop) E :
  hoare (focus c φ) (destroy c Heartbeat sid)
        (λ _, focus c (λ k', ∃ k, φ k ∧ destroyed sid k k')) E.
Proof.
  unfold destroy. sp_step.
  assert (Hspent : ∀ k, default newSock (sockets k !! sid) = s →
                   state s = Destroyed ∨ state s = Closed →
                   ∀ s0, sockets k !! sid = Some s0 → spent s0).
  { intros k Hk Hst s0 Hs0. rewrite Hs0 in Hk. cbn in Hk. subst s0.
    unfold spent. tauto. }
  destruct (state s) eqn:Hst.
  - sp_step. sp_last. destruct Hsp as (k1 & [Hk1 _] & ->).
    exists k1. split; [exact Hk1 | right; reflexivity].
  - sp_step. sp_last. destruct Hsp as (k1 & [Hk1 _] & ->).
    exists k1. split; [exact Hk1 | right; reflexivity].
  - sp_last. destruct Hsp as [Hk Hs]. exists k'. split; [exact Hk|]. left.
    split; [reflexivity | eapply Hspent; eauto].
  - sp_last. destruct Hsp as [Hk Hs]. exists k'. split; [exact Hk|]. left.
    split; [reflexivity | eapply Hspent; eauto].
Qed.

Lemma beatOk_destroyed k k' sid :
  destroyed sid k k' → beatOk k →
  beatOk k' ∧ socket k' = socket k ∧ ∀ s, sockets k' !! sid = Some s → spent s.
Proof.
  intros [[-> Hs] | ->] Hok; [auto|]. split; [|split; [reflexivity|]].
  - apply beatOk_sock; [reflexivity | | exact Hok].
    intros s _. right. left. reflexivity.
  - cbn. intros s Hs. apply lookup_alter_inv in Hs as [(_ & s0 & _ & ->)|(Hne & _)];
      [right; left; reflexivity | congruence].
Qed.

Lemma pres_focus {A} c (m : M A) :
  hoare (focus c beatOk) m (λ _, focus c beatOk) (focus c beatOk) → pres beatsOk m.
Proof.
  intros Hm w H. apply (focus_beats c) in H. specialize (Hm w H).
  apply (focus_beats c). destruct (m w); exact Hm.
Qed.

Lemma beats_hb_disconnect c : pres beatsOk (hb_disconnect c).
Proof.
  apply (pres_focus c).
  unfold hb_disconnect, stopHeartbeat, withSocket.
  eapply hoare_bind; [apply focus_stop | intros ?; cbv beta].
  eapply hoare_bind with (R := λ _, focus c beatOk).
  - sp_step. destruct (socket k) as [sid|] eqn:Hs.
    + eapply hoare_bind; [apply focus_destroy | intros ?; cbv beta]. sp_last.
      destruct Hsp as (k1 & (k2 & [(k3 & Hk3 & Hsame) ->] & Hd) & ->).
      destruct (stopped_same _ _ Hsame) as (Hs1 & Hs2 & Hs3).
      assert (Hk : beatOk k) by (eapply beatOk_same; eauto).
      destruct (beatOk_destroyed _ _ _ Hd Hk) as (Hk1 & Hsock & Hsp).
      apply beatOk_dropped; [|exact Hk1].
      intros j s Hj. rewrite Hsock, Hs in Hj. injection Hj as <-. apply Hsp.
    + sp_last. destruct Hsp as [(k3 & Hk3 & Hsame) ->].
      destruct (stopped_same _ _ Hsame) as (Hs1 & Hs2 & Hs3).
      eapply beatOk_same; eauto.
  - intros ?; cbv beta. sp_last. destruct Hsp as (k1 & Hk1 & ->).
    eapply beatOk_same; [..|exact Hk1]; reflexivity.
Qed.

Lemma focus_removeAllListeners c sid (φ : Client → Prop) E :
  hoare (focus c φ) (removeAllListeners c Heartbeat sid)
        (λ _, focus c (λ k', ∃ k, φ k ∧ k' = set_sockets (alter (setSock_listeners false) sid) k)) E.
Proof. apply focus_upd. Qed.

Lemma retired_after k0 k1 k2 k3 old :
  socket k0 = Some old → sameBeat k0 k1 →
  k2 = set_sockets (alter (setSock_listeners false) old) k1 →
  destroyed old k2 k3 → retired k0 k3.
Proof.
  intros Hold (Hs1 & _ & Hl1) -> Hd.
  assert (Hmid : retired k0 (set_sockets (alter (setSock_listeners false) old) k1)).
  { split; [exact Hs1|]. split; [cbn; rewrite length_alter, Hl1; reflexivity|].
    cbn. intros j s' Hj. rewrite Hl1 in Hj.
    apply lookup_alter_inv in Hj as [(-> & s & Hs & ->)|(Hne & Hj)].
    - exists s. repeat split; [exact Hs | | ]; intros _; left; reflexivity.
    - exists s'. repeat split; [exact Hj | auto | ]. intros Hc. congruence. }
  destruct Hd as [[-> _] | ->]; [exact Hmid|].
  destruct Hmid as (Hs & Hlen & Hall).
  split; [exact Hs|]. split; [cbn in *; rewrite length_alter; exact Hlen|].
  cbn -[alter]. intros j s' Hj.
  apply lookup_alter_inv in Hj as [(-> & s & Hs0 & ->)|(Hne & Hj)].
  - destruct (Hall _ _ Hs0) as (s1 & H1 & H2 & H3 & H4).
    exists s1. repeat split; [exact H1 | exact H2 | | ]; intros _; right; left; reflexivity.
  - exact (Hall _ _ Hj).
Qed.

Lemma retired_refl k : socket k = None → retired k k.
Proof.
  intros Hn. split; [reflexivity|]. split; [reflexivity|].
  intros j s Hj. exists s. repeat split; [exact Hj | auto | congruence].
Qed.

Lemma beatOk_reconnected k k' :
  beatOk k → retired (set_waitingForResponse false k) k' →
  beatOk (set_socket (Some (length (sockets k'))) (set_sockets (λ l, l ++ [newSock]) k')).
Proof.
  intros [H1 H2 H3] (Hs & Hlen & Hall). cbn in Hs, Hlen, Hall. constructor; cbn.
  - intros j y Hy. apply lookup_app_Some in Hy as [Hy|[_ Hy]].
    + destruct (Hall _ _ Hy) as (s & Hsj & Hu & _). rewrite Hu. eauto.
    + apply list_lookup_singleton_Some in Hy as [_ <-]. cbn. lia.
  - intros j y Hy Hne. apply lookup_app_Some in Hy as [Hy|[Hge Hy]].
    + destruct (Hall _ _ Hy) as (s & Hsj & Hu & Hsp & Hcur).
      destruct (decide (socket k = Some j)) as [Hc|Hc]; [auto|].
      apply Hsp. eauto.
    + apply list_lookup_singleton_Some in Hy as [Hj _].
      exfalso. apply Hne. f_equal. lia.
  - intros j y [= <-] Hy _. rewrite lookup_app_r in Hy by lia.
    rewrite Nat.sub_diag in Hy. injection Hy as <-. reflexivity.
Qed.

(** [connect] of the heartbeat client: it returns, with the new socket as
    the current one, the value reset to -1 and no response awaited. *)
Lemma focus_hb_connect c ip E :
  hoare (focus c beatOk) (hb_connect c ip)
        (λ sid, focus c (λ k', beatOk k' ∧ justConnected sid k')) E.
Proof.
  unfold hb_connect, withSocket, stopHeartbeat.
  do 4 sp_step.
  eapply hoare_bind
    with (R := λ _, focus c (λ k',
                 (∃ k, beatOk k ∧ retired (set_waitingForResponse false k) k')
                 ∧ lastHeartbeatValue k' = JNum (-1) ∧ waitingForResponse k' = false)).
  - sp_step. destruct (socket k) as [old|] eqn:Hold.
    + eapply hoare_bind; [apply focus_stop | intros ?; cbv beta].
      eapply hoare_bind; [apply focus_removeAllListeners | intros ?; cbv beta].
      eapply hoare_conseq; [intros ? H; exact H | | apply focus_destroy].
      cbv beta. intros ? ?. apply focus_weaken. intros k' Hsp.
      destruct Hsp as (k3 & (k2 & (k1 & [Hk ->] & Hstop) & ->) & Hd).
      destruct Hk as (k4 & (k5 & (k6 & (k7 & Hok & ->) & ->) & ->) & ->).
      split.
      * exists (set_lastHeartbeatTime 0
                  (set_lastHeartbeatValue (JNum (-1)) (set_deviceIp ip k7))).
        split; [eapply beatOk_same; [..|exact Hok]; reflexivity|].
        eapply retired_after;
          [exact Hold | exact (stopped_same _ _ Hstop) | reflexivity | exact Hd].
      * destruct Hstop as [-> | ->], Hd as [[-> _] | ->]; split; reflexivity.
    + sp_last. destruct Hsp as [Hk ->].
      destruct Hk as (k4 & (k5 & (k6 & (k7 & Hok & ->) & ->) & ->) & ->).
      split; [|split; reflexivity].
      exists (set_lastHeartbeatTime 0 (set_lastHeartbeatValue (JNum (-1)) (set_deviceIp ip k7))).
      split; [eapply beatOk_same; [..|exact Hok]; reflexivity|].
      apply retired_refl. exact Hold.
  - intros ?; cbv beta. sp_step. cbv zeta.
    unfold socketSetTimeout. sp_step. sp_step. sp_step.
    intros w Hf. cbn [ret]. revert Hf. apply focus_weaken. intros k' Hsp.
    destruct Hsp as (k1 & (k2 & [((k3 & Hok & Hret) & Hv & Hw) ->] & ->) & ->).
    split.
    + apply beatOk_sock; [reflexivity | intros s Hs; exact Hs|].
      apply (beatOk_reconnected k3); assumption.
    + repeat split; assumption.
Qed.

Lemma beats_hb_connect c ip : pres beatsOk (hb_connect c ip).
Proof.
  apply (pres_focus c). eapply hoare_conseq; [intros w H; exact H | | apply focus_hb_connect].
  cbv beta. intros sid w. apply focus_weaken. intros k [Hk _]. exact Hk.
Qed.

(** The data handler, on the client's current socket. *)
Lemma focus_hb_onData_prefix c sid (m : M unit) h :
  hoare (focus c beatOk) m (λ _, focus c beatOk) (focus c beatOk) →
  (∀ e, hoare (focus c beatOk) (h e) (λ _, focus c beatOk) (focus c beatOk)) →
  hoare (focus c (λ k, beatOk k ∧ socket k = Some sid))
    (tryCatch
       (stopTimeoutTimer c ;;
        updClient c Heartbeat (set_waitingForResponse false) ;;
        updSock c Heartbeat sid (λ s, setSock_unanswered (Nat.pred (unanswered s)) s) ;;
        m) h)
    (λ _, focus c beatOk) (focus c beatOk).
Proof.
  intros Hm Hh. eapply hoare_tryCatch; [|exact Hh].
  eapply hoare_bind; [apply focus_stop | intros ?; cbv beta].
  sp_step. sp_step.
  eapply hoare_pre; [|exact Hm].
  intros w. apply focus_weaken. intros k' Hsp.
  destruct Hsp as (k1 & (k2 & (k3 & [Hok Hcur] & Hstop) & ->) & ->).
  destruct (stopped_same _ _ Hstop) as (Hs1 & Hs2 & Hs3).
  apply beatOk_answered; [exact (eq_trans Hs1 Hcur)|].
  eapply beatOk_same; [..|exact Hok]; assumption.
Qed.

(** *** Every handler keeps the heartbeat protocol *)

Lemma beats_updConn c (g : MobileConnection → MobileConnection) :
  (∀ x, beatOk (heartbeatClient x) → beatOk (heartbeatClient (g x))) →
  pres beatsOk (updConn c g).
Proof.
  intros Hg. apply pres_modify. intros w Hw. apply beatsOk_upd; [|exact Hw].
  intros x _. apply Hg.
Qed.

#[local] Hint Resolve beats_sendHeartbeat beats_hb_disconnect beats_hb_connect : pres.

Lemma beatsOk_record w d t :
  beatsOk w → beatsOk (set_store (store w ++ [newConnection d t]) w).
Proof.
  intros Hw c x Hx. cbn in Hx. apply lookup_app_Some in Hx as [Hx|[_ Hx]]; [eauto|].
  apply list_lookup_singleton_Some in Hx as [_ <-]. apply beatOk_new.
Qed.

Ltac beat_safe Hok :=
  first
    [ exact Hok
    | eapply beatOk_same; [..|exact Hok]; reflexivity
    | apply beatOk_sock;
        [ intros ?; reflexivity
        | let Hs := fresh in
          intros ? Hs; unfold spent in *; cbn;
          first [ exact Hs | left; reflexivity | right; left; reflexivity
                | right; right; reflexivity ]
        | exact Hok ] ].

Ltac beat_upd :=
  apply beats_updConn;
  let x := fresh "x" in let Hok := fresh "Hok" in
  intros x Hok;
  repeat match goal with
         | |- context [set_client ?ch _ _] => is_var ch; destruct ch
         end;
  cbn; beat_safe Hok.

Ltac beat_prim :=
  lazymatch goal with
  | |- pres beatsOk (updSock _ _ _ _) => unfold updSock, updClient; beat_upd
  | |- pres beatsOk (updClient _ _ _) => unfold updClient; beat_upd
  | |- pres beatsOk (updConn _ _) => beat_upd
  | |- pres beatsOk (modify _) =>
      apply pres_modify; let H := fresh in
      intros ? H; first [ exact H | apply beatsOk_record; exact H ]
  | |- pres beatsOk (setTimeout _ _) =>
      apply pres_setTimeout; let H := fresh in intros ? ? ? H; exact H
  end.

Ltac beat_go := repeat (beat_prim || pres_step).

Lemma beats_emit c ch ev : pres beatsOk (emit c ch ev).
Proof. beat_go. Qed.
#[local] Hint Resolve beats_emit : pres.

Lemma beats_catch c ws e : pres beatsOk (connectToDevice_catch c ws e).
Proof. beat_go. Qed.
#[local] Hint Resolve beats_catch : pres.

Lemma beats_settle c ch sid r : pres beatsOk (settle c ch sid r).
Proof. beat_go. Qed.
#[local] Hint Resolve beats_settle : pres.

Lemma beats_closeConnection ip : pres beatsOk (closeConnection ip).
Proof. beat_go. Qed.
#[local] Hint Resolve beats_closeConnection : pres.

Lemma beats_runTimer cb : pres beatsOk (runTimer cb).
Proof. beat_go. Qed.

Lemma beats_message ws c message resp : pres beatsOk (ws_onMessage ws c message resp).
Proof. beat_go. Qed.

Lemma beats_router d ws : pres beatsOk (router_connectDevice d ws).
Proof. beat_go. Qed.

Lemma beats_onSocket_command c sid e : pres beatsOk (onSocket c Command sid e).
Proof. destruct e; beat_go. Qed.

Lemma beats_hb_onConnect c sid : pres beatsOk (hb_onConnect c sid).
Proof. beat_go. Qed.

Lemma beats_hb_late c sid e :
  (∀ p, e ≠ SData p) → e ≠ SConnect →
  pres beatsOk (updSock c Heartbeat sid (sockAfter e) ;; onSocket c Heartbeat sid e).
Proof. intros Hd Hc. destruct e; try congruence; [| |]; beat_go. Qed.

Lemma focus_of_pres {A} c (m : M A) :
  pres beatsOk m → hoare (focus c beatOk) m (λ _, focus c beatOk) (focus c beatOk).
Proof.
  intros Hm w H. apply (focus_beats c) in H. specialize (Hm w H).
  destruct (m w); apply (focus_beats c), Hm.
Qed.

(** A socket that can still deliver data or its connect is the current
    socket of its client. *)
Lemma enabled_current w c sid s :
  beatsOk w → sockOf w c Heartbeat sid = Some s →
  listeners s = true → state s = Connecting ∨ state s = Open →
  focus c (λ k, beatOk k ∧ socket k = Some sid) w.
Proof.
  intros Hw Hs Hl Hst. apply (focus_beats c) in Hw as [Ho Hc].
  split; [exact Ho|]. intros x Hx. split; [eauto|].
  unfold sockOf in Hs. rewrite Hx in Hs. cbn in Hs.
  destruct (decide (socket (heartbeatClient x) = Some sid)) as [Heq|Hne]; [exact Heq|].
  destruct (beat_old _ (Hc x Hx) sid s Hs Hne) as [H|[H|H]]; destruct Hst; congruence.
Qed.

Lemma beats_hb_early c sid e w s :
  (e = SConnect ∨ ∃ p, e = SData p) →
  beatsOk w → sockOf w c Heartbeat sid = Some s → sockEnabled s e = true →
  beatsOk (final ((updSock c Heartbeat sid (sockAfter e) ;; onSocket c Heartbeat sid e) w)).
Proof.
  intros He Hw Hs Hen.
  assert (Hcur : focus c (λ k, beatOk k ∧ socket k = Some sid) w).
  { unfold sockEnabled in Hen. apply andb_prop in Hen as [Hl Hst].
    eapply enabled_current; eauto.
    destruct He as [->|[p ->]]; destruct (state s); try discriminate; auto. }
  assert (Hgoal : hoare (focus c (λ k, beatOk k ∧ socket k = Some sid))
                    (updSock c Heartbeat sid (sockAfter e) ;; onSocket c Heartbeat sid e)
                    (λ _, focus c beatOk) (focus c beatOk)).
  { sp_step.
    assert (Hafter : ∀ w0,
      focus c (λ k', ∃ k, (beatOk k ∧ socket k = Some sid)
                          ∧ k' = set_sockets (alter (sockAfter e) sid) k) w0 →
      focus c (λ k, beatOk k ∧ socket k = Some sid) w0).
    { intros w0. apply focus_weaken. intros k' (k & [Hok Hsk] & ->).
      split; [|exact Hsk]. apply beatOk_current; [exact Hsk | | exact Hok].
      intros s0. destruct e; reflexivity. }
    eapply hoare_pre; [exact Hafter|].
    destruct He as [->|[p ->]]; cbn [onSocket].
    - eapply hoare_pre; [intros w0; apply focus_weaken; intros k [Hk _]; exact Hk|].
      apply focus_of_pres, beats_hb_onConnect.
    - unfold hb_onData. destruct p as [message|].
      + apply focus_hb_onData_prefix.
        * apply focus_of_pres. beat_go.
        * intros e0 w0 H0. exact H0.
      + eapply hoare_pre; [intros w0; apply focus_weaken; intros k [Hk _]; exact Hk|].
        intros w0 H0. exact H0. }
  specialize (Hgoal w Hcur).
  match goal with |- beatsOk (final (?m w)) => destruct (m w) end;
    apply (focus_beats c) in Hgoal; exact Hgoal.
Qed.

Lemma handler_beatsOk ev w m :
  handler ev w = Some m → beatsOk w → beatsOk (final (m w)).
Proof.
  intros Hh Hw. destruct ev as [ws|ws d|ws c message resp|ws|c ch sid e|t|ms];
    cbn [handler] in Hh.
  - destruct (isOpen ws w); [discriminate|]. injection Hh as <-.
    revert w Hw. change (pres beatsOk
      (modify (λ w, set_openClients (openClients w ++ [ws]) w) ;; wsSend ws Greeting)).
    beat_go.
  - destruct (isOpen ws w); [|discriminate]. injection Hh as <-.
    apply beats_router, Hw.
  - destruct (_ && _); [|discriminate]. injection Hh as <-.
    apply beats_message, Hw.
  - destruct (isOpen ws w); [|discriminate]. injection Hh as <-.
    assert (Hp : ∀ hs, pres beatsOk
              (modify (λ w, set_openClients (setDelete ws (openClients w)) w) ;;
               forEach hs (λ h : nat * nat, ws_onClose ws h.2))) by (intros hs; beat_go).
    apply Hp, Hw.
  - destruct (sockOf w c ch sid) as [s|] eqn:Hs; [|discriminate].
    destruct (sockEnabled s e) eqn:Hen; [|discriminate]. injection Hh as <-.
    destruct ch.
    + assert (Hp : pres beatsOk
                (updSock c Command sid (sockAfter e) ;; onSocket c Command sid e)).
      { apply pres_bind; [beat_prim | intros _; apply beats_onSocket_command]. }
      apply Hp, Hw.
    + destruct e as [|p|err| |].
      * eapply beats_hb_early; eauto.
      * eapply beats_hb_early; eauto.
      * apply beats_hb_late; [congruence.. | exact Hw].
      * apply beats_hb_late; [congruence.. | exact Hw].
      * apply beats_hb_late; [congruence.. | exact Hw].
  - destruct (filter _ _) as [|x l]; [discriminate|].
    destruct (due x <=? now w); [|discriminate]. injection Hh as <-.
    assert (Hp : pres beatsOk (clearTimeout t ;; runTimer (callback x))).
    { apply pres_bind; [beat_go | intros _; apply beats_runTimer]. }
    apply Hp, Hw.
  - destruct (0 <=? ms); [|discriminate]. injection Hh as <-. exact Hw.
Qed.

Lemma deliver_beatsOk w ev : beatsOk w → beatsOk (deliver w ev).
Proof.
  intros Hw. unfold deliver. destruct (crashed w); [exact Hw|].
  destruct (handler ev w) as [m|] eqn:Hh; [|exact Hw].
  pose proof (handler_beatsOk ev w m Hh Hw) as Hf.
  destruct (m w); exact Hf.
Qed.

Lemma run_beatsOk evs : ∀ w, beatsOk w → beatsOk (run w evs).
Proof.
  induction evs as [|ev evs IH]; intros w Hw; [exact Hw|].
  cbn. apply IH, deliver_beatsOk, Hw.
Qed.

Lemma initial_beatsOk h : beatsOk (initial h).
Proof. intros c x Hx. cbn in Hx. rewrite lookup_nil in Hx. discriminate. Qed.

(** [sendHeartbeat] does nothing while a response is awaited. *)
Lemma sendHeartbeat_waiting w c x :
  store w !! c = Some x → waitingForResponse (heartbeatClient x) = true →
  sendHeartbeat c w = Done tt w.
Proof.
  intros Hx Hw. unfold sendHeartbeat. unfold_ops. cbn. rewrite Hx. cbn.
  destruct (socket (heartbeatClient x)); [|reflexivity].
  rewrite Hw, orb_true_r. reflexivity.
Qed.

(** Otherwise, on a connected client, it writes one frame whose value is
    the last acknowledged value plus one. *)
Lemma sendHeartbeat_writes w c x sid :
  store w !! c = Some x → socket (heartbeatClient x) = Some sid →
  isConnectedFlag (heartbeatClient x) = true →
  waitingForResponse (heartbeatClient x) = false →
  since w (final (sendHeartbeat c w))
  = [SockWrite c Heartbeat sid
       (heartbeatFrame (host w) (add1 (lastHeartbeatValue (heartbeatClient x))) (now w))].
Proof.
  intros Hx Hs Hf Hw. apply since_append.
  unfold sendHeartbeat, startTimeoutTimer, stopTimeoutTimer. unfold_ops.
  cbn. rewrite Hx. cbn. rewrite Hs, Hf, Hw. cbn.
  repeat (rewrite list_lookup_alter_eq, ?Hx; cbn).
  destruct (timeoutTimer (heartbeatClient x)); reflexivity.
Qed.

Lemma nextBeat_writes w c x sid :
  store w !! c = Some x → socket (heartbeatClient x) = Some sid →
  isConnectedFlag (heartbeatClient x) = true →
  waitingForResponse (heartbeatClient x) = false →
  since w (final (hb_nextBeat c w))
  = [SockWrite c Heartbeat sid
       (heartbeatFrame (host w) (add1 (lastHeartbeatValue (heartbeatClient x))) (now w))].
Proof.
  intros Hx Hs Hf Hw. rewrite <- (sendHeartbeat_writes w c x sid Hx Hs Hf Hw).
  assert (He : hb_nextBeat c w = sendHeartbeat c w).
  { unfold hb_nextBeat, isConnected, getClient, getConn, bind, ret.
    cbn -[sendHeartbeat]. rewrite Hx. cbn -[sendHeartbeat]. rewrite Hf. reflexivity. }
  rewrite He. reflexivity.
Qed.

Lemma or_else_num v : or_else (Some (JNum v)) (JNum 0) = JNum v.
Proof.
  unfold or_else, truthy. destruct (v =? 0) eqn:Hv; cbn; [|reflexivity].
  apply Z.eqb_eq in Hv. subst. reflexivity.
Qed.

(** After an echo whose [value] is the number [v], the client holds [v],
    is not waiting, and has scheduled the next heartbeat 2 s ahead. *)
Lemma echo_recorded w c sid x fields v :
  store w !! c = Some x → field "value" fields = Some (JNum v) →
  ∃ w1 x1, hb_onData c sid (Some (JObj fields)) w = Done tt w1
    ∧ store w1 !! c = Some x1
    ∧ lastHeartbeatValue (heartbeatClient x1) = JNum v
    ∧ waitingForResponse (heartbeatClient x1) = false
    ∧ socket (heartbeatClient x1) = socket (heartbeatClient x)
    ∧ isConnectedFlag (heartbeatClient x1) = isConnectedFlag (heartbeatClient x)
    ∧ host w1 = host w
    ∧ (2000, HbNextBeat c) ∈ pendingCallbacks w1.
Proof.
  intros Hx Hv. unfold hb_onData, stopTimeoutTimer, prop, emit. unfold_ops.
  cbn. rewrite Hx. cbn.
  destruct (timeoutTimer (heartbeatClient x)); cbn;
    repeat (rewrite list_lookup_alter_eq, ?Hx; cbn); rewrite Hv, or_else_num;
    destruct (forwarding x); cbn;
    eexists _, _; (split; [reflexivity|]); cbn;
    repeat (rewrite list_lookup_alter_eq, ?Hx; cbn);
    (split; [reflexivity|]); cbn; repeat (split; [reflexivity|]);
    unfold pendingCallbacks; cbn; rewrite map_app; apply elem_of_app; right;
    apply list_elem_of_here.
Qed.

(** The first heartbeat after [connect]: the connect callback, run on a
    client as [connect] leaves it, emits "connected" and writes a frame
    with value 0. *)
Lemma first_heartbeat_zero w c sid x :
  store w !! c = Some x → socket (heartbeatClient x) = Some sid →
  lastHeartbeatValue (heartbeatClient x) = JNum (-1) →
  waitingForResponse (heartbeatClient x) = false →
  ∃ rest, since w (final (hb_onConnect c sid w))
          = Emit c Heartbeat EConnected
            :: SockWrite c Heartbeat sid (heartbeatFrame (host w) (JNum 0) (now w))
            :: rest.
Proof.
  intros Hx Hs Hv Hw.
  unfold hb_onConnect, emit, sendHeartbeat, startTimeoutTimer, stopTimeoutTimer.
  unfold_ops.
  look ltac:(first [rewrite Hx | rewrite Hs | rewrite Hv | rewrite Hw]).
  destruct (timeoutTimer (heartbeatClient x));
    look ltac:(first [rewrite Hx | rewrite Hs | rewrite Hv | rewrite Hw]).
  all: match goal with
       | |- ∃ _, since _ (final (settle _ _ _ _ ?W)) = _ =>
           destruct (trace_after (settle c Heartbeat sid Resolved) W (trace W)
                       (extends_settle _ _ _ _ _)) as [es Hes];
             [exists []; symmetry; apply app_nil_r|];
             exists es; apply since_append; rewrite Hes; cbn;
             rewrite <- !app_assoc; reflexivity
       end.
Qed.

(** *** The heartbeat protocol (C4) *)

Lemma alive_alter c c' (g : MobileConnection → MobileConnection) (st : list MobileConnection) :
  is_Some (st !! c) → is_Some (alter g c' st !! c).
Proof.
  intros [x Hx]. destruct (decide (c = c')) as [->|Hne].
  - rewrite list_lookup_alter_eq, Hx. eauto.
  - rewrite list_lookup_alter_ne, Hx by congruence. eauto.
Qed.

Ltac alive_prim :=
  lazymatch goal with
  | |- pres (alive _) (modify _) =>
      apply pres_modify; let H := fresh in
      intros ? H; unfold alive in *; cbn; first [exact H | apply alive_alter; exact H]
  | |- pres (alive _) (setTimeout _ _) =>
      apply pres_setTimeout; let H := fresh in intros ? ? ? H; exact H
  end.

(** [connect] of the heartbeat client keeps the record it works on. *)
Lemma alive_hb_connect c ip : pres (alive c) (hb_connect c ip).
Proof. repeat (alive_prim || pres_step). Qed.

(** [connect] returns: it never throws, the record is still there, and its
    heartbeat client is on the new socket with the value reset. *)
Lemma hb_connect_returns w c ip :
  beatsOk w → alive c w →
  ∃ sid w1 x1, hb_connect c ip w = Done sid w1 ∧ store w1 !! c = Some x1
               ∧ justConnected sid (heartbeatClient x1).
Proof.
  intros Hw Ha.
  pose proof (focus_hb_connect c ip (λ _, False) w (proj1 (focus_beats c w) Hw)) as Hh.
  pose proof (alive_hb_connect c ip w Ha) as Hl.
  destruct (hb_connect c ip w) as [sid w1|e w1]; [|contradiction].
  destruct Hl as [x1 Hx1]. exists sid, w1, x1.
  split; [reflexivity|]. split; [exact Hx1|].
  destruct Hh as [_ Hc]. exact (proj2 (Hc x1 Hx1)).
Qed.

(** C4, as amended: in every world the bridge can reach, for every
    connection record:
    (1) [connect] of the heartbeat client returns with the value reset, and
    the connect callback of the new socket, run on the client as [connect]
    left it, emits "connected" and writes a heartbeat whose value is 0;
    (2) an echo whose value is the number [v] schedules the next heartbeat
    2 s ahead, and that heartbeat, sent by the client as the echo left it,
    carries the [Number] that [v + 1] gives, which is [v + 1] itself as long
    as [v] lies between [- 2 ^ 53] and [2 ^ 53 - 1];
    (3) [sendHeartbeat] does nothing while a response is awaited;
    (4) no socket of the client has more than one heartbeat awaiting its
    echo, a socket that is not the current one delivers nothing any more,
    and the current one has none awaiting while the client is not waiting. *)
Theorem heartbeat_protocol (h : Host) (evs : list Event) (c : nat) (x : MobileConnection)
    (Hx : store (run (initial h) evs) !! c = Some x) :
  let w := run (initial h) evs in
  let k := heartbeatClient x in
  (∀ ip, ∃ sid w1 x1,
      hb_connect c ip w = Done sid w1 ∧ store w1 !! c = Some x1
      ∧ justConnected sid (heartbeatClient x1)
      ∧ ∀ w2 x2, store w2 !! c = Some x2 → heartbeatClient x2 = heartbeatClient x1 →
          ∃ rest, since w2 (final (hb_onConnect c sid w2))
                  = Emit c Heartbeat EConnected
                    :: SockWrite c Heartbeat sid
                         (heartbeatFrame (host w2) (JNum 0) (now w2)) :: rest)
  ∧ (∀ sid fields v,
      socket k = Some sid → isConnectedFlag k = true →
      field "value" fields = Some (JNum v) →
      ∃ w1 x1, hb_onData c sid (Some (JObj fields)) w = Done tt w1
        ∧ store w1 !! c = Some x1
        ∧ (2000, HbNextBeat c) ∈ pendingCallbacks w1
        ∧ ∀ w2 x2, store w2 !! c = Some x2 → heartbeatClient x2 = heartbeatClient x1 →
            since w2 (final (hb_nextBeat c w2))
            = [SockWrite c Heartbeat sid
                 (heartbeatFrame (host w2) (JNum (toDouble (v + 1))) (now w2))])
  ∧ (∀ v, - 2 ^ 53 ≤ v < 2 ^ 53 → toDouble (v + 1) = v + 1)
  ∧ (waitingForResponse k = true → sendHeartbeat c w = Done tt w)
  ∧ (∀ sid s, sockets k !! sid = Some s →
       (unanswered s ≤ 1)%nat
       ∧ (socket k ≠ Some sid → spent s)
       ∧ (socket k = Some sid → waitingForResponse k = false → unanswered s = 0%nat)).
Proof.
  intros w k.
  assert (Hw : beatsOk w) by apply run_beatsOk, initial_beatsOk.
  split; [|split; [|split; [|split]]].
  - intros ip.
    destruct (hb_connect_returns w c ip Hw (ex_intro _ x Hx))
      as (sid & w1 & x1 & Hrun & Hx1 & Hj).
    exists sid, w1, x1. repeat (split; [assumption|]).
    intros w2 x2 Hx2 Hsame. destruct Hj as (Hs & Hv & Hwait).
    apply (first_heartbeat_zero w2 c sid x2 Hx2); rewrite Hsame; assumption.
  - intros sid fields v Hs Hf Hv.
    destruct (echo_recorded w c sid x fields v Hx Hv)
      as (w1 & x1 & Hrun & Hx1 & Hval & Hwait & Hsock & Hflag & _ & Htimer).
    exists w1, x1. repeat (split; [assumption|]).
    intros w2 x2 Hx2 Hsame.
    rewrite (nextBeat_writes w2 c x2 sid Hx2).
    + rewrite Hsame, Hval. reflexivity.
    + rewrite Hsame, Hsock. exact Hs.
    + rewrite Hsame, Hflag. exact Hf.
    + rewrite Hsame. exact Hwait.
  - intros v Hv. apply DiscoveryFacts.toDouble_exact. lia.
  - apply sendHeartbeat_waiting, Hx.
  - intros sid s Hsid. destruct (Hw c x Hx) as [Hle Hold Hcur].
    split; [eapply Hle; eauto|]. split; [eapply Hold; eauto|].
    intros Hs. eapply Hcur; eauto.
Qed.

Lemma heartbeat_protocol_witness :
  let w := run (initial sampleHost)
             [EvWsOpen 1; EvWsOpen 2; EvConnectDevice 1 pixel;
              EvSocket 0 Command 0 SConnect; EvSocket 0 Heartbeat 0 SConnect] in
  sendHeartbeat 0 w = Done tt w
  ∧ (unanswered <$> (sockets (heartbeatClient (default blankConnection (store w !! 0%nat)))
                       !! 0%nat)) = Some 1%nat.
Proof.
  intros w.
  assert (Hx : store w !! 0%nat = Some (default blankConnection (store w !! 0%nat)))
    by (vm_compute; reflexivity).
  destruct (heartbeat_protocol sampleHost _ 0 _ Hx) as (_ & _ & _ & Hnoop & _).
  split; [apply Hnoop|]; vm_compute; reflexivity.
Defined.

(** C4 as stated fails: when the echo carries [2 ^ 53], the heartbeat that
    follows carries [2 ^ 53] again, not that value plus one. *)
Lemma heartbeat_value_stalls :
  let echoed := final (hb_onData 0 0 (Some (JObj [("value", JNum (2 ^ 53))])) linked) in
  lastHeartbeatValue (heartbeatClient (default blankConnection (store echoed !! 0%nat)))
  = JNum (2 ^ 53)
  ∧ since echoed (final (hb_nextBeat 0 echoed))
    = [SockWrite 0 Heartbeat 0 (heartbeatFrame sampleHost (JNum (2 ^ 53)) (now echoed))]
  ∧ 2 ^ 53 ≠ 2 ^ 53 + 1.
Proof. vm_compute. repeat split; [reflexivity.. | discriminate]. Qed.

(** *** What ends the process *)

Create HintDb returns.

Section ReturnsRules.

Lemma returns_ret {A} (a : A) : returns (ret a).
Proof. intros w. eexists _, _. reflexivity. Qed.

Lemma returns_get : returns get.
Proof. intros w. eexists _, _. reflexivity. Qed.

Lemma returns_getConn c : returns (getConn c).
Proof. intros w. eexists _, _. reflexivity. Qed.

Lemma returns_modify f : returns (modify f).
Proof. intros w. eexists _, _. reflexivity. Qed.

Lemma returns_setTimeout cb ms : returns (setTimeout cb ms).
Proof. intros w. eexists _, _. reflexivity. Qed.

Lemma returns_bind {A B} (m : M A) (k : A → M B) :
  returns m → (∀ a, returns (k a)) → returns (bind m k).
Proof.
  intros Hm Hk w. destruct (Hm w) as (a & w' & Ha). unfold bind. rewrite Ha. apply Hk.
Qed.

Lemma returns_tryCatch {A} (m : M A) h :
  (∀ e, returns (h e)) → returns (tryCatch m h).
Proof.
  intros Hh w. unfold tryCatch. destruct (m w) as [a w'|e w']; [eexists _, _; reflexivity|].
  apply Hh.
Qed.

Lemma returns_when b m : returns m → returns (when b m).
Proof. intros Hm. destruct b; [exact Hm | apply returns_ret]. Qed.

Lemma returns_forEach {A} (l : list A) f : (∀ x, returns (f x)) → returns (forEach l f).
Proof.
  intros Hf. induction l as [|x l IH]; [apply returns_ret|].
  cbn. apply returns_bind; [apply Hf | intros _; exact IH].
Qed.

End ReturnsRules.

Ltac returns_step :=
  lazymatch goal with
  | |- returns (bind _ _) => apply returns_bind; [|intros ?]
  | |- returns (ret _) => apply returns_ret
  | |- returns get => apply returns_get
  | |- returns (getConn _) => apply returns_getConn
  | |- returns (modify _) => apply returns_modify
  | |- returns (setTimeout _ _) => apply returns_setTimeout
  | |- returns (tryCatch _ _) => apply returns_tryCatch; intros ?
  | |- returns (when _ _) => apply returns_when
  | |- returns (forEach _ _) => apply returns_forEach; intros ?
  | |- returns (throw _) => fail
  | |- returns (if ?b then _ else _) => destruct b
  | |- returns (match ?x with _ => _ end) => destruct x
  | |- returns (let _ := _ in _) => cbv zeta
  | |- returns ?m =>
      first [ solve [eauto 2 with returns]
            | let h := head_of m in unfold h; cbv beta iota ]
  end.
Ltac returns_go := repeat returns_step.

Lemma returns_disconnected c ch : returns (emit c ch EDisconnected).
Proof. returns_go. Qed.
#[local] Hint Resolve returns_disconnected : returns.

Lemma returns_resume c ch r ws : returns (router_resume c ch r ws).
Proof. returns_go. Qed.
#[local] Hint Resolve returns_resume : returns.

Lemma returns_settle c ch sid r : returns (settle c ch sid r).
Proof. returns_go. Qed.
#[local] Hint Resolve returns_settle : returns.

Lemma returns_closeConnection ip : returns (closeConnection ip).
Proof. returns_go. Qed.
#[local] Hint Resolve returns_closeConnection : returns.

Lemma returns_runTimer cb : returns (runTimer cb).
Proof. returns_go. Qed.

Lemma returns_onSocket c ch sid e :
  (∀ err, e ≠ SError err) → returns (onSocket c ch sid e).
Proof.
  intros He. destruct ch, e as [|p|err| |]; try (exfalso; eapply He; reflexivity);
    returns_go.
Qed.

(** No handler touches the mark of a dead process. *)
Ltac crashed_prim :=
  lazymatch goal with
  | |- pres _ (modify _) =>
      apply pres_modify; let H := fresh in intros ? H; exact H
  | |- pres _ (setTimeout _ _) =>
      apply pres_setTimeout; let H := fresh in intros ? ? ? H; exact H
  end.

Lemma crashed_emit v c ch ev : pres (λ w, crashed w = v) (emit c ch ev).
Proof. repeat (crashed_prim || pres_step). Qed.
#[local] Hint Resolve crashed_emit : pres.

Lemma crashed_resume v c ch r ws : pres (λ w, crashed w = v) (router_resume c ch r ws).
Proof. repeat (crashed_prim || pres_step). Qed.
#[local] Hint Resolve crashed_resume : pres.

Lemma crashed_settle v c ch sid r : pres (λ w, crashed w = v) (settle c ch sid r).
Proof. repeat (crashed_prim || pres_step). Qed.
#[local] Hint Resolve crashed_settle : pres.

Lemma crashed_closeConnection v ip : pres (λ w, crashed w = v) (closeConnection ip).
Proof. repeat (crashed_prim || pres_step). Qed.
#[local] Hint Resolve crashed_closeConnection : pres.

Lemma crashed_handler v ev w m :
  handler ev w = Some m → pres (λ w, crashed w = v) m.
Proof.
  destruct ev as [ws|ws d|ws c message resp|ws|c ch sid e|t|ms]; cbn [handler]; intros Hh.
  - destruct (isOpen ws w); [discriminate|]. injection Hh as <-.
    repeat (crashed_prim || pres_step).
  - destruct (isOpen ws w); [|discriminate]. injection Hh as <-.
    repeat (crashed_prim || pres_step).
  - destruct (_ && _); [|discriminate]. injection Hh as <-.
    repeat (crashed_prim || pres_step).
  - destruct (isOpen ws w); [|discriminate]. injection Hh as <-.
    repeat (crashed_prim || pres_step).
  - destruct (sockOf w c ch sid) as [s|]; [|discriminate].
    destruct (sockEnabled s e); [|discriminate]. injection Hh as <-.
    destruct ch, e; repeat (crashed_prim || pres_step).
  - destruct (filter _ _) as [|x l]; [discriminate|].
    destruct (due x <=? now w); [|discriminate]. injection Hh as <-.
    destruct (callback x); repeat (crashed_prim || pres_step).
  - destruct (0 <=? ms); [|discriminate]. injection Hh as <-.
    repeat (crashed_prim || pres_step).
Qed.

Lemma returns_handler ev w m :
  handler ev w = Some m → (∀ c ch sid err, ev ≠ EvSocket c ch sid (SError err)) →
  returns m.
Proof.
  destruct ev as [ws|ws d|ws c message resp|ws|c ch sid e|t|ms]; cbn [handler];
    intros Hh Hev.
  - destruct (isOpen ws w); [discriminate|]. injection Hh as <-. returns_go.
  - destruct (isOpen ws w); [|discriminate]. injection Hh as <-. returns_go.
  - destruct (_ && _); [|discriminate]. injection Hh as <-. returns_go.
  - destruct (isOpen ws w); [|discriminate]. injection Hh as <-. returns_go.
  - destruct (sockOf w c ch sid) as [s|]; [|discriminate].
    destruct (sockEnabled s e); [|discriminate]. injection Hh as <-.
    apply returns_bind; [returns_go | intros _].
    apply returns_onSocket. intros err ->. eapply Hev. reflexivity.
  - destruct (filter _ _) as [|x l]; [discriminate|].
    destruct (due x <=? now w); [|discriminate]. injection Hh as <-.
    apply returns_bind; [returns_go | intros _; apply returns_runTimer].
  - destruct (0 <=? ms); [|discriminate]. injection Hh as <-. returns_go.
Qed.

(** X7: Whatever the runtime delivers to a live process, the process stays
    alive, unless it is the ['error'] of a TCP socket: every other handler
    catches what it throws. *)
Theorem only_socket_errors_end_process (w : World) (ev : Event)
    (Hlive : crashed w = None)
    (Hev : ∀ c ch sid err, ev ≠ EvSocket c ch sid (SError err)) :
  crashed (deliver w ev) = None.
Proof.
  unfold deliver. rewrite Hlive.
  destruct (handler ev w) as [m|] eqn:Hh; [|exact Hlive].
  destruct (returns_handler ev w m Hh Hev w) as (a & w' & Hm).
  pose proof (crashed_handler None ev w m Hh w Hlive) as Hc.
  rewrite Hm in *. exact Hc.
Qed.

Lemma only_socket_errors_end_process_witness :
  crashed (deliver linked (EvSocket 0 Heartbeat 0 SClose)) = None.
Proof.
  apply only_socket_errors_end_process; [vm_compute; reflexivity | discriminate].
Defined.

(** X8: The ['error'] of a socket of either client, delivered to a live
    process, ends it: the client re-emits the error, for which the server
    registers no listener.  Nothing is rolled back and no WebSocket client
    is told; the only thing that happens is the emission. *)
Theorem socket_error_ends_process
    (w : World) (c : nat) (ch : Channel) (sid : nat) (err : string) (s : Sock)
    (Hlive : crashed w = None)
    (Hs : sockOf w c ch sid = Some s)
    (Hen : sockEnabled s (SError err) = true) :
  let w' := deliver w (EvSocket c ch sid (SError err)) in
  crashed w' = Some err
  ∧ since w w' = [Emit c ch (EError err)]
  ∧ connections w' = connections w.
Proof.
  cbv zeta. unfold deliver, handler. rewrite Hlive, Hs, Hen.
  unfold sockOf in Hs. destruct (store w !! c) as [x|] eqn:Hx; [|discriminate].
  destruct ch; cbn [onSocket].
  - unfold cmd_onError, emit. unfold_ops. look ltac:(rewrite Hx).
    split; [reflexivity|]. split; [apply since_append|]; reflexivity.
  - unfold hb_onError, stopHeartbeat, stopTimeoutTimer, emit. unfold_ops.
    look ltac:(rewrite Hx).
    destruct (timeoutTimer (heartbeatClient x)); look ltac:(rewrite Hx);
      (split; [reflexivity|]); (split; [apply since_append|]); reflexivity.
Qed.

Lemma socket_error_ends_process_witness :
  crashed (deliver halfOpen (EvSocket 0 Heartbeat 0 (SError "ECONNREFUSED")))
  = Some "ECONNREFUSED".
Proof.
  refine (proj1 (socket_error_ends_process halfOpen 0 Heartbeat 0 "ECONNREFUSED"
                   (setSock_idleTimeout 10000 newSock) _ _ _)); vm_compute; reflexivity.
Defined.

(** *** The relay: one request, one answer *)

Section ReadsRules.

Lemma reads_ret {A} (a : A) : reads (ret a).
Proof. intros w. left. eexists. reflexivity. Qed.

Lemma reads_throw {A} e : reads (@throw A e).
Proof. intros w. right. eexists. reflexivity. Qed.

Lemma reads_get : reads get.
Proof. intros w. left. eexists. reflexivity. Qed.

Lemma reads_getConn c : reads (getConn c).
Proof. intros w. left. eexists. reflexivity. Qed.

Lemma reads_bind {A B} (m : M A) (k : A → M B) :
  reads m → (∀ a, reads (k a)) → reads (bind m k).
Proof.
  intros Hm Hk w. unfold bind. destruct (Hm w) as [[a ->]|[e ->]]; [apply Hk|].
  right. eexists. reflexivity.
Qed.

Lemma reads_mapM {A B} (f : A → M B) l : (∀ x, reads (f x)) → reads (mapM f l).
Proof.
  intros Hf. induction l as [|x l IH]; [apply reads_ret|].
  cbn. apply reads_bind; [apply Hf | intros y].
  apply reads_bind; [exact IH | intros ys; apply reads_ret].
Qed.

End ReadsRules.

Ltac reads_step :=
  lazymatch goal with
  | |- reads (bind _ _) => apply reads_bind; [|intros ?]
  | |- reads (ret _) => apply reads_ret
  | |- reads (throw _) => apply reads_throw
  | |- reads get => apply reads_get
  | |- reads (getConn _) => apply reads_getConn
  | |- reads (mapM _ _) => apply reads_mapM; intros ?
  | |- reads (if ?b then _ else _) => destruct b
  | |- reads (match ?x with _ => _ end) => destruct x
  | |- reads (let _ := _ in _) => cbv zeta
  | |- reads ?m => let h := head_of m in unfold h; cbv beta iota
  end.
Ltac reads_go := repeat reads_step.

Lemma replies_send ws (Φ : WsMsg → Prop) m : Φ m → replies ws Φ (wsSend ws m).
Proof. intros Hm w. left. exists m. split; [exact Hm | reflexivity]. Qed.

Lemma replies_after {A} ws Φ (p : M A) (k : A → M unit) :
  reads p → (∀ a, replies ws Φ (k a)) → replies ws Φ (bind p k).
Proof.
  intros Hp Hk w. unfold bind. destruct (Hp w) as [[a ->]|[e ->]]; [apply Hk|].
  right. eexists. reflexivity.
Qed.

(** A relayed call: the HTTP request, then the answer or the failure
    message. *)
Lemma relay_http c ws id failure endpoint method data resp Φ (k : Json → M unit) w :
  (∀ r, replies ws Φ (k r)) →
  ∃ m,
    relay ws id failure (r <- makeHttpRequest c endpoint method data resp ;; k r) w
    = Done tt
        (set_trace
           (trace w
            ++ [HttpCall {| http_method := method;
                            http_url := deviceUrl (default blankConnection (store w !! c))
                                          endpoint;
                            http_data := data; http_timeout := 30000 |};
                WsSend ws m]) w)
    ∧ (Φ m ∨ m = ErrorReply id failure).
Proof.
  intros Hk. unfold relay, tryCatch, makeHttpRequest. unfold_ops. cbn.
  destruct resp as [body|message]; cbn.
  - match goal with |- context [k body ?W] => destruct (Hk body W) as [(m & Hm & ->)|(e & ->)] end.
    + exists m. split; [|left; exact Hm].
      unfold wsSend, effect, modify. f_equal. unfold set_trace. cbn.
      rewrite <- ?app_assoc. reflexivity.
    + exists (ErrorReply id failure). split; [|right; reflexivity].
      unfold wsSend, effect, modify. f_equal. unfold set_trace. cbn.
      rewrite <- ?app_assoc. reflexivity.
  - exists (ErrorReply id failure). split; [|right; reflexivity].
    unfold wsSend, effect, modify. f_equal. unfold set_trace. cbn.
    rewrite <- ?app_assoc. reflexivity.
Qed.

Ltac replies_go :=
  intros ?; cbv beta zeta;
  repeat (apply replies_after; [reads_go | intros ?]);
  apply replies_send; left; eexists _, _; reflexivity.

Ltac relay_case :=
  cbv beta zeta;
  lazymatch goal with
  | |- context [relay ?ws ?id ?f (bind (makeHttpRequest ?c ?ep ?me ?d ?r) ?k) ?w] =>
      let m := fresh "m" in let Hrun := fresh "Hrun" in let Hm := fresh "Hm" in
      destruct (relay_http c ws id f ep me d r (answersTo id) k w) as (m & Hrun & Hm);
        [replies_go|];
      rewrite Hrun;
      eexists [_], [WsSend ws m];
      split; [reflexivity|];
      split; [right; eexists _, _, _; reflexivity|];
      left; exists m; split; [reflexivity|]; left;
      destruct Hm as [Hm| ->]; [exact Hm | right; eexists; reflexivity]
  end.

(** X9: Whatever the request, the record and the device's answer: [dispatch]
    returns, changing nothing but the trace; it makes at most one HTTP call,
    to port 9527 of the record's device with a timeout of 30000 ms, and
    writes nothing to a TCP socket; and it sends exactly one message, to the
    requester, which carries the id of the request (or is the acknowledgment
    of a heartbeat or a registration), except that a request of unknown
    type without id gets no answer at all. *)
Theorem request_gets_one_answer
    (message : Message) (c ws : nat) (resp : HttpResult) (w : World) :
  ∃ calls outs,
    dispatch message c ws resp w = Done tt (set_trace (trace w ++ calls ++ outs) w)
    ∧ (calls = []
       ∨ ∃ method endpoint data,
           calls = [HttpCall
                      {| http_method := method;
                         http_url := deviceUrl (default blankConnection (store w !! c))
                                       endpoint;
                         http_data := data; http_timeout := 30000 |}])
    ∧ ((∃ m, outs = [WsSend ws m]
             ∧ (answersTo (msg_id message) m ∨ m = HeartbeatAck (now w)
                ∨ m = RegisterAck))
       ∨ (outs = [] ∧ calls = [] ∧ truthy (msg_id message) = false
          ∧ msg_type message ∉ requestTypes)).
Proof.
  destruct message as [type payload id]. unfold dispatch. cbn [msg_type msg_payload msg_id].
  cbv zeta.
  destruct (String.eqb_spec type "device:info") as [_|H1]; [unfold getDeviceInfo; relay_case|].
  destruct (String.eqb_spec type "file:list") as [_|H2]; [unfold getFileList; relay_case|].
  destruct (String.eqb_spec type "file:download") as [_|H3]; [unfold downloadFile; relay_case|].
  destruct (String.eqb_spec type "file:upload") as [_|H4].
  { exists [], [WsSend ws (Reply id "file:upload:response" DataSuccess)].
    split; [reflexivity|]. split; [left; reflexivity|].
    left. eexists. split; [reflexivity|]. left. left. eexists _, _. reflexivity. }
  destruct (String.eqb_spec type "file:delete") as [_|H5]; [unfold deleteFile; relay_case|].
  destruct (String.eqb_spec type "image:list") as [_|H6]; [unfold getImages; relay_case|].
  destruct (String.eqb_spec type "album:list") as [_|H7]; [unfold getAlbums; relay_case|].
  destruct (String.eqb_spec type "contact:list") as [_|H8]; [unfold getContacts; relay_case|].
  destruct (String.eqb_spec type "app:list") as [_|H9]; [unfold getApps; relay_case|].
  destruct (String.eqb_spec type "video:list") as [_|H10]; [unfold getVideos; relay_case|].
  destruct (String.eqb_spec type "heartbeat") as [_|H11].
  { exists [], [WsSend ws (HeartbeatAck (now w))].
    split; [reflexivity|]. split; [left; reflexivity|].
    left. eexists. split; [reflexivity|]. right. left. reflexivity. }
  destruct (String.eqb_spec type "register") as [_|H12].
  { exists [], [WsSend ws RegisterAck].
    split; [reflexivity|]. split; [left; reflexivity|].
    left. eexists. split; [reflexivity|]. right. right. reflexivity. }
  destruct (truthy id) eqn:Hid; cbn [when].
  - eexists [], [WsSend ws _]. split; [reflexivity|]. split; [left; reflexivity|].
    left. eexists. split; [reflexivity|]. left. right. eexists. reflexivity.
  - exists [], []. split; [unfold ret; rewrite app_nil_r; destruct w; reflexivity|].
    split; [left; reflexivity|]. right. repeat split.
    unfold requestTypes. intros Hin.
    repeat (apply elem_of_cons in Hin as [Hin|Hin]; [congruence|]).
    apply not_elem_of_nil in Hin. exact Hin.
Qed.

(** *** A request that names no record *)

Lemma filter_none_attached ws w (l : list nat) :
  (∀ c' x, c' ∈ l → store w !! c' = Some x → ws ∉ webSocketClients x) →
  List.filter
    (λ c, match store w !! c with
          | Some x => bool_decide (ws ∈ webSocketClients x)
          | None => false
          end) l = [].
Proof.
  induction l as [|c l IH]; intros Hno; [reflexivity|]. cbn.
  destruct (store w !! c) as [x|] eqn:Hx.
  - rewrite bool_decide_eq_false_2 by (eapply Hno; [left | exact Hx]).
    apply IH. intros c' x' Hin. apply Hno. right. exact Hin.
  - apply IH. intros c' x' Hin. apply Hno. right. exact Hin.
Qed.

(** X10: When the caller names no record, a request is handled for the first
    record of the table that the client is attached to; a client attached
    to no record of the table has its request handled for the first record
    of the table, whatever device that is; and only with an empty table is
    the request refused, with "No device connected" if it has an id and
    silently otherwise. *)
Theorem request_without_record_is_resolved
    (message : Message) (ws : nat) (resp : HttpResult) (w : World) :
  (∀ pre ip c x post,
     connections w = pre ++ (ip, c) :: post →
     store w !! c = Some x → ws ∈ webSocketClients x →
     (∀ c' x', c' ∈ map snd pre → store w !! c' = Some x' → ws ∉ webSocketClients x') →
     handleWebSocketMessage message None ws resp w = dispatch message c ws resp w)
  ∧ (∀ ip c rest,
       connections w = (ip, c) :: rest →
       (∀ c' x, c' ∈ map snd (connections w) → store w !! c' = Some x →
                ws ∉ webSocketClients x) →
       handleWebSocketMessage message None ws resp w = dispatch message c ws resp w)
  ∧ (connections w = [] →
       handleWebSocketMessage message None ws resp w
       = if truthy (msg_id message)
         then Done tt (set_trace
                         (trace w ++ [WsSend ws (ErrorReply (msg_id message)
                                                   "No device connected")]) w)
         else Done tt w).
Proof.
  unfold handleWebSocketMessage, resolveConnection, bind, get.
  split; [|split].
  - intros pre ip c x post Hc Hx Hin Hpre. rewrite Hc, map_app, List.filter_app.
    rewrite (filter_none_attached ws w (map snd pre) Hpre). cbn.
    rewrite Hx, bool_decide_eq_true_2 by exact Hin. reflexivity.
  - intros ip c rest Hc Hno.
    rewrite (filter_none_attached ws w _ Hno), Hc. reflexivity.
  - intros ->. cbn. destruct (truthy (msg_id message)); reflexivity.
Qed.

(** *** MIME types *)

Lemma lowerChar_idem a : lowerChar (lowerChar a) = lowerChar a.
Proof. destruct a as [[] [] [] [] [] [] [] []]; reflexivity. Qed.

Lemma toLowerCase_idem s : toLowerCase (toLowerCase s) = toLowerCase s.
Proof.
  induction s as [|a s IH]; [reflexivity|]. cbn [toLowerCase].
  rewrite lowerChar_idem, IH. reflexivity.
Qed.

Lemma occurs_lower s : occurs "." (toLowerCase s) = occurs "." s.
Proof.
  induction s as [|a s IH]; [reflexivity|]. cbn [toLowerCase occurs]. rewrite IH.
  f_equal. destruct a as [[] [] [] [] [] [] [] []]; reflexivity.
Qed.

Lemma last_extension base ext :
  occurs "." ext = 0%nat →
  List.last (split "." (base +:+ "." +:+ ext)) "" = ext.
Proof.
  intros Hext. change ("." +:+ ext) with (String "." ext).
  rewrite DiscoveryFacts.split_append, (DiscoveryFacts.split_whole "." ext Hext).
  apply last_last.
Qed.

(** X11: The MIME type of a file name is looked up under what follows its last
    dot, or under the whole name if it has no dot, in lower case: it does
    not depend on the case of the extension nor on what precedes the dot,
    and a name that ends in a dot has none.  (The two lower-case names that
    the table inherits from [Object.prototype] are left aside.) *)
Theorem mime_type_follows_last_extension (base ext : string)
    (Hext : occurs "." ext = 0%nat)
    (Hown : toLowerCase ext ∉ ["constructor"; "__proto__"]) :
  let found := if String.eqb (toLowerCase ext) "" then None
               else mapGet (toLowerCase ext) mimeTypes in
  getMimeType (Some (JStr (base +:+ "." +:+ ext))) = ret found
  ∧ getMimeType (Some (JStr ext)) = ret found
  ∧ getMimeType (Some (JStr (base +:+ "." +:+ toLowerCase ext))) = ret found.
Proof.
  cbv zeta. unfold getMimeType.
  rewrite (last_extension base ext Hext).
  rewrite (last_extension base (toLowerCase ext)) by (rewrite occurs_lower; exact Hext).
  rewrite (DiscoveryFacts.split_whole "." ext Hext), toLowerCase_idem.
  repeat split.
Qed.

Lemma mime_type_follows_last_extension_witness :
  getMimeType (Some (JStr "holiday.2024.JPG")) = ret (Some "image/jpeg").
Proof.
  refine (proj1 (mime_type_follows_last_extension "holiday.2024" "JPG" eq_refl _)).
  intros Hin. repeat (apply elem_of_cons in Hin as [Hin|Hin]; [discriminate|]).
  apply not_elem_of_nil in Hin. exact Hin.
Defined.

(** *** The table of records *)

Lemma mapGet_elem {V} k (v : V) l : mapGet k l = Some v → (k, v) ∈ l.
Proof.
  induction l as [|[k' v'] l IH]; cbn; [discriminate|].
  destruct (String.eqb_spec k k') as [->|Hne].
  - intros [= ->]. left.
  - intros H. right. apply IH, H.
Qed.

Lemma mapGet_None {V} k (l : list (string * V)) : mapGet k l = None → k ∉ map fst l.
Proof.
  induction l as [|[k' v'] l IH]; cbn; [intros _; apply not_elem_of_nil|].
  destruct (String.eqb_spec k k') as [->|Hne]; [discriminate|].
  intros H Hin. apply elem_of_cons in Hin as [Hin|Hin]; [contradiction|].
  exact (IH H Hin).
Qed.

Lemma mapGet_unique {V} k (v : V) l :
  NoDup (map fst l) → (k, v) ∈ l → mapGet k l = Some v.
Proof.
  induction l as [|[k' v'] l IH]; cbn; intros Hnd Hin.
  - apply not_elem_of_nil in Hin. contradiction.
  - apply NoDup_cons in Hnd as [Hk Hnd].
    apply elem_of_cons in Hin as [[= -> ->]|Hin].
    + rewrite String.eqb_refl. reflexivity.
    + destruct (String.eqb_spec k k') as [->|Hne]; [|apply IH; assumption].
      exfalso. apply Hk. apply (list_elem_of_fmap_2 fst _ _ Hin).
Qed.

Lemma mapSet_fresh {V} k (v : V) l : mapGet k l = None → mapSet k v l = l ++ [(k, v)].
Proof.
  induction l as [|[k' v'] l IH]; cbn; [reflexivity|].
  destruct (String.eqb_spec k k'); [discriminate|].
  intros H. rewrite IH by exact H. reflexivity.
Qed.

Lemma mapDelete_sub {V} k (l : list (string * V)) e : e ∈ mapDelete k l → e ∈ l.
Proof.
  unfold mapDelete. induction l as [|a l IH]; cbn; [auto|].
  destruct (negb _); intros H.
  - apply elem_of_cons in H as [->|H]; [left | right; apply IH, H].
  - right. apply IH, H.
Qed.

Lemma NoDup_filter_map {A B} (f : A → B) (p : A → bool) l :
  NoDup (map f l) → NoDup (map f (List.filter p l)).
Proof.
  induction l as [|a l IH]; cbn; [auto|]. intros Hnd.
  apply NoDup_cons in Hnd as [Ha Hnd]. destruct (p a); [|apply IH, Hnd].
  cbn. apply NoDup_cons. split; [|apply IH, Hnd].
  intros Hin. apply Ha. apply list_elem_of_fmap in Hin as (b & -> & Hb).
  apply list_elem_of_fmap_2. apply list_elem_of_In in Hb.
  apply List.filter_In in Hb as [Hb _]. apply list_elem_of_In, Hb.
Qed.

Lemma tableOk_delete ip w :
  tableOk w → tableOk (set_connections (mapDelete ip (connections w)) w).
Proof.
  intros (Hk & Hr & He). unfold tableOk. cbn.
  split; [apply NoDup_filter_map, Hk|]. split; [apply NoDup_filter_map, Hr|].
  intros ip' c Hin. apply He. eapply mapDelete_sub, Hin.
Qed.

Lemma tableOk_upd w c (g : MobileConnection → MobileConnection) :
  (∀ x, dev_ip (device (g x)) = dev_ip (device x)) →
  tableOk w → tableOk (set_store (alter g c (store w)) w).
Proof.
  intros Hg (Hk & Hr & He). unfold tableOk. cbn.
  split; [exact Hk|]. split; [exact Hr|].
  intros ip c' Hin. destruct (He ip c' Hin) as (x & Hx & Hip).
  destruct (decide (c' = c)) as [->|Hne].
  - exists (g x). rewrite list_lookup_alter_eq, Hx. split; [reflexivity|].
    rewrite Hg. exact Hip.
  - exists x. rewrite list_lookup_alter_ne by congruence. split; assumption.
Qed.

Lemma tableOk_new w d t :
  mapGet (dev_ip d) (connections w) = None → tableOk w →
  tableOk (set_connections (mapSet (dev_ip d) (length (store w)) (connections w))
             (set_store (store w ++ [newConnection d t]) w)).
Proof.
  intros Hnew (Hk & Hr & He). unfold tableOk. cbn.
  rewrite (mapSet_fresh _ _ _ Hnew), !map_app. cbn.
  split; [|split].
  - apply NoDup_app. split; [exact Hk|]. split; [|apply NoDup_singleton].
    intros k Hin Hk'. apply list_elem_of_singleton in Hk' as ->.
    exact (mapGet_None _ _ Hnew Hin).
  - apply NoDup_app. split; [exact Hr|]. split; [|apply NoDup_singleton].
    intros c Hin Hc. apply list_elem_of_singleton in Hc as ->.
    apply list_elem_of_fmap in Hin as ([ip c] & Hc & Hin). cbn in Hc.
    destruct (He ip c Hin) as (x & Hx & _). apply lookup_lt_Some in Hx. lia.
  - intros ip c Hin. apply elem_of_app in Hin as [Hin|Hin].
    + destruct (He ip c Hin) as (x & Hx & Hip). exists x.
      split; [apply lookup_app_l_Some, Hx | exact Hip].
    + apply list_elem_of_singleton in Hin as [= -> ->].
      exists (newConnection d t). split; [|reflexivity].
      rewrite lookup_app_r by lia. rewrite Nat.sub_diag. reflexivity.
Qed.

Lemma table_updConn c (g : MobileConnection → MobileConnection) :
  (∀ x, dev_ip (device (g x)) = dev_ip (device x)) → pres tableOk (updConn c g).
Proof. intros Hg. apply pres_modify. intros w. apply tableOk_upd, Hg. Qed.

Ltac table_prim :=
  lazymatch goal with
  | |- pres tableOk (updSock _ _ _ _) =>
      unfold updSock, updClient; apply table_updConn; intros ?; reflexivity
  | |- pres tableOk (updClient _ _ _) =>
      unfold updClient; apply table_updConn; intros ?; reflexivity
  | |- pres tableOk (updConn _ _) => apply table_updConn; intros ?; reflexivity
  | |- pres tableOk (modify _) =>
      apply pres_modify; let H := fresh in
      intros ? H; first [exact H | apply tableOk_delete; exact H]
  | |- pres tableOk (setTimeout _ _) =>
      apply pres_setTimeout; let H := fresh in intros ? ? ? H; exact H
  end.
Ltac table_go := repeat (table_prim || pres_step).

Lemma table_emit c ch ev : pres tableOk (emit c ch ev).
Proof. table_go. Qed.
#[local] Hint Resolve table_emit : pres.

Lemma table_resume c ch r ws : pres tableOk (router_resume c ch r ws).
Proof. table_go. Qed.
#[local] Hint Resolve table_resume : pres.

Lemma table_settle c ch sid r : pres tableOk (settle c ch sid r).
Proof. table_go. Qed.
#[local] Hint Resolve table_settle : pres.

Lemma table_closeConnection ip : pres tableOk (closeConnection ip).
Proof. table_go. Qed.
#[local] Hint Resolve table_closeConnection : pres.

Lemma table_cmd_connect c ip : pres tableOk (cmd_connect c ip).
Proof. table_go. Qed.

Lemma table_connectToDevice d ws : pres tableOk (connectToDevice d ws).
Proof.
  intros w Hw. unfold connectToDevice, bind at 1, get.
  destruct (mapGet (dev_ip d) (connections w)) as [c|] eqn:Hget.
  - assert (Hp : pres tableOk (wsSend ws (ConnectionSuccess d) ;; attach c ws)) by table_go.
    apply Hp, Hw.
  - cbv zeta. unfold bind at 1, modify at 1. unfold bind at 1, modify at 1.
    assert (Hp : pres tableOk
              (sid <- cmd_connect (length (store w)) (dev_ip d) ;;
               updConn (length (store w)) (set_pendingConnect (Some (Command, sid, ws))))).
    { apply pres_bind; [apply table_cmd_connect | intros sid; table_go]. }
    apply Hp. apply (tableOk_new w d (now w) Hget Hw).
Qed.
#[local] Hint Resolve table_connectToDevice : pres.

Lemma table_handler ev w m : handler ev w = Some m → pres tableOk m.
Proof.
  destruct ev as [ws|ws d|ws c message resp|ws|c ch sid e|t|ms]; cbn [handler]; intros Hh.
  - destruct (isOpen ws w); [discriminate|]. injection Hh as <-. table_go.
  - destruct (isOpen ws w); [|discriminate]. injection Hh as <-. table_go.
  - destruct (_ && _); [|discriminate]. injection Hh as <-. table_go.
  - destruct (isOpen ws w); [|discriminate]. injection Hh as <-. table_go.
  - destruct (sockOf w c ch sid) as [s|]; [|discriminate].
    destruct (sockEnabled s e); [|discriminate]. injection Hh as <-.
    destruct ch, e; table_go.
  - destruct (filter _ _) as [|x l]; [discriminate|].
    destruct (due x <=? now w); [|discriminate]. injection Hh as <-.
    destruct (callback x); table_go.
  - destruct (0 <=? ms); [|discriminate]. injection Hh as <-. table_go.
Qed.

Lemma deliver_tableOk w ev : tableOk w → tableOk (deliver w ev).
Proof.
  intros Hw. unfold deliver. destruct (crashed w); [exact Hw|].
  destruct (handler ev w) as [m|] eqn:Hh; [|exact Hw].
  pose proof (table_handler ev w m Hh w Hw) as Hf.
  destruct (m w); exact Hf.
Qed.

Lemma run_tableOk evs : ∀ w, tableOk w → tableOk (run w evs).
Proof.
  induction evs as [|ev evs IH]; intros w Hw; [exact Hw|].
  cbn. apply IH, deliver_tableOk, Hw.
Qed.

Lemma initial_tableOk h : tableOk (initial h).
Proof.
  repeat split; try apply NoDup_nil_2.
  intros ip c Hin. apply not_elem_of_nil in Hin. contradiction.
Qed.

(** X12: Whatever happens, the manager's table stays consistent: an address
    has at most one record, a record at most one address, and the record
    found under an address is that of a device with this address. *)
Theorem table_stays_consistent (h : Host) (evs : list Event) :
  let w := run (initial h) evs in
  NoDup (map fst (connections w)) ∧ NoDup (map snd (connections w))
  ∧ ∀ ip c, mapGet ip (connections w) = Some c →
      ∃ x, store w !! c = Some x ∧ dev_ip (device x) = ip.
Proof.
  destruct (run_tableOk evs (initial h) (initial_tableOk h)) as (Hk & Hr & He).
  split; [exact Hk|]. split; [exact Hr|].
  intros ip c Hget. apply He, mapGet_elem, Hget.
Qed.

(** X13: The two questions the HTTP endpoints ask the manager agree, whatever
    has happened: some record of the table is marked connected exactly when
    some address is reported as connected, and an address reported as
    connected has a record, marked connected, of a device with that
    address. *)
Theorem connection_queries_agree (h : Host) (evs : list Event) :
  let w := run (initial h) evs in
  (hasActiveConnections w = true ↔ ∃ ip, isDeviceConnected ip w = true)
  ∧ ∀ ip, isDeviceConnected ip w = true →
      ∃ c x, mapGet ip (connections w) = Some c ∧ store w !! c = Some x
             ∧ dev_ip (device x) = ip ∧ connected x = true.
Proof.
  cbv zeta. set (w := run (initial h) evs).
  destruct (run_tableOk evs (initial h) (initial_tableOk h)) as (Hk & _ & He).
  fold w in Hk, He. unfold hasActiveConnections, getConnections, isDeviceConnected.
  split; [split|].
  - intros Hex. apply existsb_exists in Hex as (x & Hin & Hx).
    apply in_map_iff in Hin as (c & <- & Hin).
    apply in_map_iff in Hin as ([ip c'] & Hc & Hin). cbn in Hc. subst c'.
    exists ip. apply list_elem_of_In in Hin.
    rewrite (mapGet_unique _ _ _ Hk Hin). exact Hx.
  - intros (ip & Hip). destruct (mapGet ip (connections w)) as [c|] eqn:Hget; [|discriminate].
    apply existsb_exists. exists (default blankConnection (store w !! c)).
    split; [|exact Hip]. apply in_map_iff. exists c. split; [reflexivity|].
    apply in_map_iff. exists (ip, c). split; [reflexivity|].
    apply list_elem_of_In, mapGet_elem, Hget.
  - intros ip Hip. destruct (mapGet ip (connections w)) as [c|] eqn:Hget; [|discriminate].
    destruct (He ip c (mapGet_elem _ _ _ Hget)) as (x & Hx & Hdev).
    exists c, x. rewrite Hx in Hip. repeat split; assumption.
Qed.

(** *** closeConnection *)

Ltac sock_facts Hs Hst :=
  let sid' := fresh "sid'" in
  let s' := fresh "s'" in
  let H1 := fresh in
  let H2 := fresh in
  intros sid' s' H1 H2; try discriminate H1;
  injection H1 as <-; rewrite Hs in H2; try discriminate H2; injection H2 as <-;
  cbn -[lookup]; rewrite ?list_lookup_alter_eq, ?Hs; cbn -[lookup];
  eexists; (split; [reflexivity|]); cbn; rewrite Hst; reflexivity.

Lemma disconnect_command w c x :
  store w !! c = Some x →
  ∃ w' x',
    cmd_disconnect c w = Done tt w'
    ∧ store w' !! c = Some x'
    ∧ (∀ c', c' ≠ c → store w' !! c' = store w !! c')
    ∧ trace w' = trace w ++ destroys c Command (commandClient x)
    ∧ connections w' = connections w ∧ openClients w' = openClients w
    ∧ clientDown (commandClient x') = true
    ∧ heartbeatClient x' = heartbeatClient x
    ∧ device x' = device x ∧ webSocketClients x' = webSocketClients x
    ∧ (∀ sid s, socket (commandClient x) = Some sid →
         sockets (commandClient x) !! sid = Some s →
         ∃ s', sockets (commandClient x') !! sid = Some s'
               ∧ state s' = afterDestroy (state s)).
Proof.
  intros Hx. unfold cmd_disconnect, withSocket, destroy, destroys. unfold_ops.
  cbn. rewrite Hx. cbn.
  destruct (socket (commandClient x)) as [sid|] eqn:Hsock; cbn; rewrite ?Hx; cbn;
    [destruct (sockets (commandClient x) !! sid) as [s|] eqn:Hs; cbn;
       [destruct (state s) eqn:Hst; cbn|]|];
    repeat (rewrite ?list_lookup_alter_eq, ?Hx; cbn);
    eexists _, _; (split; [reflexivity|]); cbn -[lookup];
    repeat (rewrite ?list_lookup_alter_eq, ?Hx; cbn -[lookup]);
    (split; [reflexivity|]);
    (split; [intros c' Hne; rewrite ?list_lookup_alter_ne by congruence; reflexivity|]);
    (split; [rewrite ?app_nil_r; reflexivity|]);
    (split; [reflexivity|]); (split; [reflexivity|]);
    (split; [unfold clientDown; cbn; rewrite ?Hsock; reflexivity|]);
    (split; [reflexivity|]); (split; [reflexivity|]); (split; [reflexivity|]);
    sock_facts Hs Hst.
Qed.

Lemma disconnect_heartbeat w c x :
  store w !! c = Some x →
  ∃ w' x',
    hb_disconnect c w = Done tt w'
    ∧ store w' !! c = Some x'
    ∧ (∀ c', c' ≠ c → store w' !! c' = store w !! c')
    ∧ trace w' = trace w ++ destroys c Heartbeat (heartbeatClient x)
    ∧ connections w' = connections w ∧ openClients w' = openClients w
    ∧ clientDown (heartbeatClient x') = true
    ∧ commandClient x' = commandClient x
    ∧ device x' = device x ∧ webSocketClients x' = webSocketClients x
    ∧ (∀ sid s, socket (heartbeatClient x) = Some sid →
         sockets (heartbeatClient x) !! sid = Some s →
         ∃ s', sockets (heartbeatClient x') !! sid = Some s'
               ∧ state s' = afterDestroy (state s)).
Proof.
  intros Hx. unfold hb_disconnect, stopHeartbeat, stopTimeoutTimer, withSocket, destroy, destroys.
  unfold_ops. cbn. rewrite Hx. cbn.
  destruct (timeoutTimer (heartbeatClient x)) as [t|];
    (destruct (socket (heartbeatClient x)) as [sid|] eqn:Hsock;
     [destruct (sockets (heartbeatClient x) !! sid) as [s|] eqn:Hs;
        [destruct (state s) eqn:Hst|]|]);
    repeat (rewrite ?list_lookup_alter_eq, ?Hx, ?Hsock, ?Hs, ?Hst; cbn);
    eexists _, _; (split; [reflexivity|]); cbn -[lookup];
    repeat (rewrite ?list_lookup_alter_eq, ?Hx; cbn -[lookup]);
    (split; [reflexivity|]);
    (split; [intros c' Hne; rewrite ?list_lookup_alter_ne by congruence; reflexivity|]);
    (split; [rewrite ?app_nil_r; reflexivity|]);
    (split; [reflexivity|]); (split; [reflexivity|]);
    (split; [unfold clientDown; cbn; rewrite ?Hsock; reflexivity|]);
    (split; [reflexivity|]); (split; [reflexivity|]); (split; [reflexivity|]);
    sock_facts Hs Hst.
Qed.

Lemma mapGet_delete {V} k (l : list (string * V)) : mapGet k (mapDelete k l) = None.
Proof.
  unfold mapDelete. induction l as [|[k' v] l IH]; [reflexivity|]. cbn.
  destruct (String.eqb_spec k k') as [->|Hne]; cbn; [exact IH|].
  destruct (String.eqb_spec k k'); [contradiction | exact IH].
Qed.

Lemma mapGet_delete_ne {V} k k' (l : list (string * V)) :
  k' ≠ k → mapGet k' (mapDelete k l) = mapGet k' l.
Proof.
  intros Hne. unfold mapDelete. induction l as [|[k0 v] l IH]; [reflexivity|]. cbn.
  destruct (String.eqb_spec k k0) as [->|Hk]; cbn.
  - destruct (String.eqb_spec k' k0); [contradiction | exact IH].
  - destruct (String.eqb_spec k' k0); [reflexivity | exact IH].
Qed.

(** X14: [closeConnection] for an address without record does nothing.  For an
    address with a record it returns, having taken the address out of the
    table (and no other), with both TCP clients of the record disconnected
    and without socket.  The socket each client had is destroyed when it was
    connecting or open, and is left destroyed or closed when it was that
    already.  What the call does to the outside is, in this order: destroy
    the command socket, destroy the heartbeat socket (each only when it was
    connecting or open), then send connection:closed to exactly the open
    clients attached to the record.  No other record is touched, and
    closing the address again does nothing. *)
Theorem closing_a_connection (w : World) (ip : string) :
  (mapGet ip (connections w) = None → closeConnection ip w = Done tt w)
  ∧ ∀ c x, mapGet ip (connections w) = Some c → store w !! c = Some x →
      ∃ w' x',
        closeConnection ip w = Done tt w'
        ∧ mapGet ip (connections w') = None
        ∧ (∀ ip', ip' ≠ ip → mapGet ip' (connections w') = mapGet ip' (connections w))
        ∧ store w' !! c = Some x'
        ∧ clientDown (commandClient x') = true
        ∧ clientDown (heartbeatClient x') = true
        ∧ (∀ ch sid s, socket (client ch x) = Some sid →
             sockets (client ch x) !! sid = Some s →
             (∃ s', sockets (client ch x') !! sid = Some s'
                    ∧ state s' = afterDestroy (state s)
                    ∧ (state s' = Destroyed ∨ state s' = Closed))
             ∧ (state s = Connecting ∨ state s = Open →
                  destroys c ch (client ch x) = [SockDestroy c ch sid])
             ∧ (state s = Destroyed ∨ state s = Closed →
                  destroys c ch (client ch x) = []))
        ∧ (∀ ch, socket (client ch x) = None → destroys c ch (client ch x) = [])
        ∧ (∀ c', c' ≠ c → store w' !! c' = store w !! c')
        ∧ since w w'
          = destroys c Command (commandClient x)
            ++ destroys c Heartbeat (heartbeatClient x)
            ++ map (λ ws, WsSend ws (ConnectionClosed (device x)))
                   (List.filter (λ ws, isOpen ws w) (webSocketClients x))
        ∧ closeConnection ip w' = Done tt w'.
Proof.
  split.
  { intros Hnone. unfold closeConnection, bind, get. rewrite Hnone. reflexivity. }
  intros c x Hget Hx.
  destruct (disconnect_command w c x Hx)
    as (w1 & x1 & Hrun1 & Hx1 & Ho1 & Ht1 & Hc1 & Hop1 & Hd1 & Hh1 & Hdev1 & Hws1 & Hsk1).
  destruct (disconnect_heartbeat w1 c x1 Hx1)
    as (w2 & x2 & Hrun2 & Hx2 & Ho2 & Ht2 & Hc2 & Hop2 & Hd2 & Hh2 & Hdev2 & Hws2 & Hsk2).
  assert (Hrun : closeConnection ip w
                 = Done tt (set_connections (mapDelete ip (connections w2))
                              (set_trace
                                 (trace w2 ++ map (λ ws, WsSend ws (ConnectionClosed (device x)))
                                                  (List.filter (λ ws, isOpen ws w)
                                                               (webSocketClients x)))
                                 w2))).
  { unfold closeConnection. unfold bind at 1. unfold get at 1. rewrite Hget.
    unfold bind at 1. rewrite Hrun1. unfold bind at 1. rewrite Hrun2.
    unfold bind at 1, getConn at 1. rewrite Hx2. cbn [default].
    unfold bind at 1. rewrite broadcast_run. unfold modify, id. cbn [connections set_trace].
    rewrite Hws2, Hws1, Hdev2, Hdev1.
    assert (Hopen : ∀ ws, isOpen ws w2 = isOpen ws w)
      by (intros ws; unfold isOpen; rewrite Hop2, Hop1; reflexivity).
    rewrite (List.filter_ext _ _ Hopen). reflexivity. }
  eexists _, x2. split; [exact Hrun|]. cbn -[lookup].
  split; [apply mapGet_delete|].
  split; [intros ip' Hne; rewrite Hc2, Hc1; apply mapGet_delete_ne, Hne|].
  split; [exact Hx2|].
  split; [rewrite Hh2; exact Hd1|].
  split; [exact Hd2|].
  split.
  { intros ch sid s Hsock Hs. split; [|split].
    - assert (Hs' : ∃ s', sockets (client ch x2) !! sid = Some s'
                          ∧ state s' = afterDestroy (state s)).
      { destruct ch; cbn [client] in *.
        - rewrite Hh2. apply Hsk1; assumption.
        - apply Hsk2; rewrite Hh1; assumption. }
      destruct Hs' as (s' & Hl & Hst). exists s'.
      split; [exact Hl|]. split; [exact Hst|].
      rewrite Hst. destruct (state s); cbn; auto.
    - intros Hlive. unfold destroys. rewrite Hsock, Hs. cbn.
      destruct Hlive as [Hst | Hst]; rewrite Hst; reflexivity.
    - intros Hgone. unfold destroys. rewrite Hsock, Hs. cbn.
      destruct Hgone as [Hst | Hst]; rewrite Hst; reflexivity. }
  split; [intros ch Hnone; unfold destroys; rewrite Hnone; reflexivity|].
  split; [intros c' Hne; rewrite Ho2, Ho1 by exact Hne; reflexivity|].
  split.
  { apply since_append. cbn. rewrite Ht2, Ht1, Hh1, <- !app_assoc. reflexivity. }
  unfold closeConnection, bind, get. cbn. rewrite mapGet_delete. reflexivity.
Qed.

Lemma closing_a_connection_witness :
  since linked (final (closeConnection "192.168.1.50" linked))
  = [SockDestroy 0 Command 0; SockDestroy 0 Heartbeat 0;
     WsSend 1 (ConnectionClosed pixel)].
Proof.
  assert (Hget : mapGet "192.168.1.50" (connections linked) = Some 0%nat)
    by (vm_compute; reflexivity).
  assert (Hx : store linked !! 0%nat
               = Some (default blankConnection (store linked !! 0%nat)))
    by (vm_compute; reflexivity).
  destruct (proj2 (closing_a_connection linked "192.168.1.50") 0%nat _ Hget Hx)
    as (w' & x' & Hrun & _ & _ & _ & _ & _ & _ & _ & _ & Hsince & _).
  rewrite Hrun. cbn [final]. rewrite Hsince. vm_compute. reflexivity.
Defined.

(** *** The link of the command client *)

(** **** Rules for [onRecord] *)
Section OnRecord.
Context (R : MobileConnection → Prop).

Lemma on_all c w : allRecords R w ↔ onRecord R c R w.
Proof.
  split.
  - intros H. split; intros; eapply H; eauto.
  - intros [Ho Hc] c' x Hx. destruct (decide (c' = c)) as [->|Hne]; eauto.
Qed.

Lemma on_weaken c (φ ψ : MobileConnection → Prop) w :
  (∀ x, φ x → ψ x) → onRecord R c φ w → onRecord R c ψ w.
Proof. intros Hi [Ho Hc]. split; [exact Ho | intros x Hx; apply Hi; eauto]. Qed.

Lemma on_upd c (φ : MobileConnection → Prop) g E :
  hoare (onRecord R c φ) (updConn c g)
        (λ _, onRecord R c (λ x', ∃ x, φ x ∧ x' = g x)) E.
Proof.
  unfold hoare, updConn, modify. intros w [Ho Hc].
  split; cbn [store set_store].
  - intros c' x Hne Hx. rewrite list_lookup_alter_ne in Hx by congruence. eauto.
  - intros x Hx. rewrite list_lookup_alter_eq in Hx.
    destruct (store w !! c) as [x0|] eqn:Hx0; [|discriminate].
    injection Hx as <-. eauto.
Qed.

Lemma on_read c (φ : MobileConnection → Prop) E :
  hoare (onRecord R c φ) (getConn c) (λ x, onRecord R c (λ x', φ x' ∧ x' = x)) E.
Proof.
  intros w [Ho Hc]. cbn. split; [exact Ho|].
  intros x Hx. rewrite Hx. cbn. split; [eauto | reflexivity].
Qed.

Lemma on_getClient c ch (φ : MobileConnection → Prop) E :
  hoare (onRecord R c φ) (getClient c ch)
        (λ k, onRecord R c (λ x', φ x' ∧ client ch x' = k)) E.
Proof.
  intros w [Ho Hc]. cbn. split; [exact Ho|].
  intros x Hx. rewrite Hx. cbn. split; [eauto | reflexivity].
Qed.

Lemma on_isConnected c ch (φ : MobileConnection → Prop) E :
  hoare (onRecord R c φ) (isConnected c ch)
        (λ b, onRecord R c (λ x', φ x' ∧ isConnectedFlag (client ch x') = b)) E.
Proof.
  intros w [Ho Hc]. cbn. split; [exact Ho|].
  intros x Hx. rewrite Hx. cbn. split; [eauto | reflexivity].
Qed.

Lemma on_getSock c ch sid (φ : MobileConnection → Prop) E :
  hoare (onRecord R c φ) (getSock c ch sid)
        (λ s, onRecord R c
                (λ x', φ x' ∧ default newSock (sockets (client ch x') !! sid) = s)) E.
Proof.
  intros w [Ho Hc]. cbn. split; [exact Ho|].
  intros x Hx. rewrite Hx. cbn. split; [eauto | reflexivity].
Qed.

Lemma on_frame {A} c (φ : MobileConnection → Prop) (m : M A) E :
  (∀ w, ∃ a w', m w = Done a w' ∧ store w' = store w) →
  hoare (onRecord R c φ) m (λ _, onRecord R c φ) E.
Proof.
  intros Hm w H. destruct (Hm w) as (a & w' & -> & Hs).
  destruct H as [Ho Hc]. split; intros ?; rewrite Hs; eauto.
Qed.

Lemma on_of_pres {A} c (m : M A) :
  pres (allRecords R) m → hoare (onRecord R c R) m (λ _, onRecord R c R) (onRecord R c R).
Proof.
  intros Hm w H. apply (on_all c) in H. specialize (Hm w H).
  destruct (m w); apply (on_all c), Hm.
Qed.

Lemma pres_of_on {A} c (m : M A) :
  hoare (onRecord R c R) m (λ _, onRecord R c R) (onRecord R c R) → pres (allRecords R) m.
Proof.
  intros Hm w H. apply (on_all c) in H. specialize (Hm w H).
  apply (on_all c). destruct (m w); exact Hm.
Qed.

Lemma all_updConn c g : (∀ x, R x → R (g x)) → pres (allRecords R) (updConn c g).
Proof.
  intros Hg. apply pres_modify. intros w Hw c' x' Hx'. cbn in Hx'.
  destruct (decide (c' = c)) as [->|Hne].
  - rewrite list_lookup_alter_eq in Hx'.
    destruct (store w !! c) as [x|] eqn:Hx; [|discriminate]. injection Hx' as <-.
    apply Hg. eapply Hw, Hx.
  - rewrite list_lookup_alter_ne in Hx' by congruence. eapply Hw, Hx'.
Qed.

End OnRecord.

(** One step of a computation on record [c]. *)
Ltac on_step :=
  lazymatch goal with
  | |- hoare (onRecord _ ?c _) (bind (updConn ?c _) _) _ _ =>
      eapply hoare_bind; [apply on_upd | intros ?; cbv beta]
  | |- hoare (onRecord _ ?c _) (bind (updClient ?c _ _) _) _ _ =>
      eapply hoare_bind; [unfold updClient; apply on_upd | intros ?; cbv beta]
  | |- hoare (onRecord _ ?c _) (bind (updSock ?c _ _ _) _) _ _ =>
      eapply hoare_bind; [unfold updSock, updClient; apply on_upd | intros ?; cbv beta]
  | |- hoare (onRecord _ ?c _) (bind (getConn ?c) _) _ _ =>
      eapply hoare_bind; [apply on_read | intros ?x; cbv beta]
  | |- hoare (onRecord _ ?c _) (bind (getClient ?c _) _) _ _ =>
      eapply hoare_bind; [apply on_getClient | intros ?k; cbv beta]
  | |- hoare (onRecord _ ?c _) (bind (isConnected ?c _) _) _ _ =>
      eapply hoare_bind; [apply on_isConnected | intros ?b; cbv beta]
  | |- hoare (onRecord _ ?c _) (bind (getSock ?c _ _) _) _ _ =>
      eapply hoare_bind; [apply on_getSock | intros ?s; cbv beta]
  | |- hoare (onRecord _ ?c _) (bind (effect _) _) _ _ =>
      eapply hoare_bind; [apply on_frame, frame_effect | intros ?; cbv beta]
  | |- hoare (onRecord _ ?c _) (bind (clearTimeout _) _) _ _ =>
      eapply hoare_bind; [apply on_frame, frame_clearTimeout | intros ?; cbv beta]
  | |- hoare (onRecord _ ?c _) (bind (setTimeout _ _) _) _ _ =>
      eapply hoare_bind; [apply on_frame, frame_setTimeout | intros ?t; cbv beta]
  | |- hoare (onRecord _ ?c _) (bind get _) _ _ =>
      eapply hoare_bind; [apply on_frame, frame_get | intros ?w; cbv beta]
  | |- hoare (onRecord _ ?c _) (bind (ret _) _) _ _ =>
      eapply hoare_bind; [apply hoare_skip | intros ?; cbv beta]
  end.

(** The last step, then what is left to show about the record. *)
Ltac on_last :=
  lazymatch goal with
  | |- hoare (onRecord _ ?c _) (updConn ?c _) _ _ =>
      eapply hoare_conseq; [intros ? H; exact H | | apply on_upd]
  | |- hoare (onRecord _ ?c _) (updClient ?c _ _) _ _ =>
      eapply hoare_conseq; [intros ? H; exact H | | unfold updClient; apply on_upd]
  | |- hoare (onRecord _ ?c _) (updSock ?c _ _ _) _ _ =>
      eapply hoare_conseq;
        [intros ? H; exact H | | unfold updSock, updClient; apply on_upd]
  | |- hoare (onRecord _ ?c _) (effect _) _ _ =>
      eapply hoare_conseq; [intros ? H; exact H | | apply on_frame, frame_effect]
  | |- hoare (onRecord _ ?c _) (ret _) _ _ =>
      eapply hoare_conseq; [intros ? H; exact H | | apply hoare_skip]
  end;
  cbv beta; intros ? ?; apply on_weaken; intros ?x' Hsp.

(** **** What keeps a link sound *)

Lemma linkOk_new : linkOk newClient.
Proof.
  split; [discriminate|]. intros sid s Hs. cbn in Hs. rewrite lookup_nil in Hs. discriminate.
Qed.

Lemma linkOk_same k k' :
  isConnectedFlag k' = isConnectedFlag k → socket k' = socket k →
  sockets k' = sockets k → linkOk k → linkOk k'.
Proof. intros Hf Hs Hl [H1 H2]. split; rewrite ?Hf, ?Hs, ?Hl; assumption. Qed.

(** An update of a socket that changes neither its state nor its
    handlers. *)
Lemma linkOk_sock k sid (h : Sock → Sock) :
  (∀ s, state (h s) = state s ∧ listeners (h s) = listeners s) →
  linkOk k → linkOk (set_sockets (alter h sid) k).
Proof.
  intros Hh [H1 H2]. split; cbn.
  - intros Hf. destruct (H1 Hf) as (cur & s & Hc & Hs & Hst & Hl).
    exists cur. destruct (decide (cur = sid)) as [->|Hne].
    + exists (h s). rewrite list_lookup_alter_eq, Hs. destruct (Hh s) as [-> ->]. auto.
    + exists s. rewrite list_lookup_alter_ne by congruence. auto.
  - intros j s' Hs' Hne.
    apply lookup_alter_inv in Hs' as [(-> & s & Hs & ->)|(_ & Hs)].
    + pose proof (H2 sid s Hs Hne) as Hsp. unfold spent in *.
      destruct (Hh s) as [-> ->]. exact Hsp.
    + eapply H2; eauto.
Qed.

(** A client that reports not connected, all of whose sockets but the
    current one are spent. *)
Lemma linkOk_down k :
  isConnectedFlag k = false →
  (∀ sid s, sockets k !! sid = Some s → socket k ≠ Some sid → spent s) → linkOk k.
Proof. intros Hf H2. split; [rewrite Hf; discriminate | exact H2]. Qed.

(** A socket that can still deliver something else than its close is the
    current one. *)
Lemma link_current k sid s :
  linkOk k → sockets k !! sid = Some s → listeners s = true →
  state s = Connecting ∨ state s = Open → socket k = Some sid.
Proof.
  intros [_ H2] Hs Hl Hst.
  destruct (decide (socket k = Some sid)) as [Heq|Hne]; [exact Heq|].
  destruct (H2 sid s Hs Hne) as [H|[H|H]]; destruct Hst; congruence.
Qed.

(** **** The handlers keep the link of the command client *)

Ltac link_safe Hok :=
  first
    [ exact Hok
    | eapply linkOk_same; [..|exact Hok]; reflexivity
    | apply linkOk_sock; [intros ?; split; reflexivity | exact Hok] ].

Ltac link_upd :=
  apply all_updConn;
  let x := fresh "x" in let Hok := fresh "Hok" in
  intros x Hok; unfold commandOk in *;
  repeat match goal with
         | |- context [set_client ?ch _ _] => is_var ch; destruct ch
         end;
  cbn; link_safe Hok.

Ltac link_prim :=
  lazymatch goal with
  | |- pres (allRecords commandOk) (updSock _ _ _ _) => unfold updSock, updClient; link_upd
  | |- pres (allRecords commandOk) (updClient _ _ _) => unfold updClient; link_upd
  | |- pres (allRecords commandOk) (updConn _ _) => link_upd
  | |- pres (allRecords commandOk) (modify _) =>
      apply pres_modify; let H := fresh in intros ? H; exact H
  | |- pres (allRecords commandOk) (setTimeout _ _) =>
      apply pres_setTimeout; let H := fresh in intros ? ? ? H; exact H
  end.
Ltac link_go := repeat (link_prim || pres_step).

(** What [destroy] of socket [sid] does to the command client. *)
Lemma on_destroy R c sid (φ : MobileConnection → Prop) E :
  hoare (onRecord R c φ) (destroy c Command sid)
        (λ _, onRecord R c
                (λ x', ∃ x, φ x
                   ∧ ((x' = x ∧ ∀ s, sockets (commandClient x) !! sid = Some s → spent s)
                      ∨ x' = set_client Command
                               (set_sockets (alter (setSock_state Destroyed) sid)) x))) E.
Proof.
  unfold destroy. on_step.
  assert (Hspent : ∀ x, default newSock (sockets (client Command x) !! sid) = s →
                   state s = Destroyed ∨ state s = Closed →
                   ∀ s0, sockets (commandClient x) !! sid = Some s0 → spent s0).
  { intros x Hk Hst s0 Hs0. cbn in Hk. rewrite Hs0 in Hk. cbn in Hk. subst s0.
    unfold spent. tauto. }
  destruct (state s) eqn:Hst.
  - on_step. on_last. destruct Hsp as (x1 & [Hx1 _] & ->).
    exists x1. split; [exact Hx1 | right; reflexivity].
  - on_step. on_last. destruct Hsp as (x1 & [Hx1 _] & ->).
    exists x1. split; [exact Hx1 | right; reflexivity].
  - on_last. destruct Hsp as [Hx Hs]. exists x'. split; [exact Hx|]. left.
    split; [reflexivity | eapply Hspent; eauto].
  - on_last. destruct Hsp as [Hx Hs]. exists x'. split; [exact Hx|]. left.
    split; [reflexivity | eapply Hspent; eauto].
Qed.

(** After [destroy] of [sid] every socket that was spent still is, and
    [sid] is. *)
Lemma destroyed_spent x x' sid :
  (x' = x ∧ ∀ s, sockets (commandClient x) !! sid = Some s → spent s)
  ∨ x' = set_client Command (set_sockets (alter (setSock_state Destroyed) sid)) x →
  isConnectedFlag (commandClient x') = isConnectedFlag (commandClient x)
  ∧ socket (commandClient x') = socket (commandClient x)
  ∧ ∀ j s', sockets (commandClient x') !! j = Some s' →
      (j = sid → spent s')
      ∧ (j ≠ sid → sockets (commandClient x) !! j = Some s').
Proof.
  intros [[-> Hs] | ->]; (split; [reflexivity|]); (split; [reflexivity|]); cbn.
  - intros j s' Hs'. split; [intros ->; eauto | auto].
  - intros j s' Hs'. apply lookup_alter_inv in Hs' as [(-> & s & _ & ->)|(Hne & Hs')].
    + split; [intros _; right; left; reflexivity | congruence].
    + split; [congruence | auto].
Qed.

Lemma link_cmd_disconnect c : pres (allRecords commandOk) (cmd_disconnect c).
Proof.
  apply (pres_of_on commandOk c). unfold cmd_disconnect, withSocket.
  eapply hoare_bind
    with (R := λ _, onRecord commandOk c
                      (λ x', ∀ j s', sockets (commandClient x') !! j = Some s' → spent s')).
  - on_step. destruct (socket k) as [sid|] eqn:Hsock.
    + eapply hoare_bind; [apply on_destroy | intros ?; cbv beta].
      on_last. destruct Hsp as (x1 & (x0 & [[_ H2] Hk] & Hd) & ->). cbn.
      destruct (destroyed_spent _ _ _ Hd) as (_ & _ & Hl).
      intros j s' Hs'. destruct (Hl j s' Hs') as [Heq Hne].
      destruct (decide (j = sid)) as [Hj|Hj]; [auto|].
      apply (H2 j s' (Hne Hj)). cbn in Hk. rewrite Hk, Hsock. congruence.
    + on_last. destruct Hsp as [[_ H2] Hk]. cbn in Hk.
      intros j s' Hs'. apply (H2 j s' Hs'). rewrite Hk, Hsock. discriminate.
  - intros ?; cbv beta. on_last. destruct Hsp as (x0 & Hall & ->).
    unfold commandOk. cbn. apply linkOk_down; [reflexivity|].
    cbn. intros j s' Hs' _. eauto.
Qed.

(** [connect] of the command client, called while the client reports not
    connected. *)
Lemma link_cmd_connect c ip E :
  hoare (onRecord commandOk c
           (λ x, commandOk x ∧ isConnectedFlag (commandClient x) = false))
        (cmd_connect c ip) (λ _, onRecord commandOk c commandOk) E.
Proof.
  unfold cmd_connect, withSocket, removeAllListeners.
  on_step.
  eapply hoare_bind
    with (R := λ _, onRecord commandOk c
                      (λ x', isConnectedFlag (commandClient x') = false
                             ∧ ∀ j s', sockets (commandClient x') !! j = Some s' → spent s')).
  - on_step. destruct (socket k) as [old|] eqn:Hsock.
    + on_step. eapply hoare_conseq; [intros ? H; exact H | | apply on_destroy].
      cbv beta. intros ? ?. apply on_weaken. intros x' Hsp.
      destruct Hsp as (x3 & (x2 & [(x1 & [[_ H2] Hf] & ->) Hk] & ->) & Hd).
      destruct (destroyed_spent _ _ _ Hd) as (Hflag & _ & Hl).
      split; [rewrite Hflag; exact Hf|].
      intros j s' Hs'. destruct (Hl j s' Hs') as [Heq Hne].
      destruct (decide (j = old)) as [Hj|Hj]; [auto|].
      specialize (Hne Hj). cbn in Hne, Hk.
      rewrite list_lookup_alter_ne in Hne by congruence.
      apply (H2 j s' Hne). rewrite <- Hk in Hsock. cbn in Hsock. rewrite Hsock. congruence.
    + on_last. destruct Hsp as [(x1 & [[_ H2] Hf] & ->) Hk]. cbn in Hk.
      split; [exact Hf|].
      intros j s' Hs'. apply (H2 j s' Hs'). rewrite <- Hk in Hsock. cbn in Hsock.
      rewrite Hsock. discriminate.
  - intros ?; cbv beta. on_step. cbv zeta. on_step. on_step. on_step. on_step.
    intros w Hf. cbn [ret]. revert Hf. apply on_weaken. intros x' Hsp.
    destruct Hsp as (x2 & (x1 & [[Hf Hall] Hk] & ->) & ->).
    unfold commandOk. cbn. apply linkOk_down; [exact Hf|]. cbn.
    intros j s' Hs' Hne.
    apply lookup_alter_inv in Hs' as [(-> & s & Hs & ->)|(_ & Hs')].
    + cbn in Hk. rewrite <- Hk in Hne. contradiction.
    + apply lookup_app_Some in Hs' as [Hs'|[Hlen Hs']]; [eauto|].
      apply list_lookup_singleton_Some in Hs' as [Hj _].
      cbn in Hk. rewrite <- Hk in Hne. exfalso. apply Hne. f_equal. lia.
Qed.

Lemma link_reconnectCommand c : pres (allRecords commandOk) (reconnectCommand c).
Proof.
  apply (pres_of_on commandOk c). unfold reconnectCommand.
  on_step. on_step.
  destruct b; cbn [negb andb].
  - on_last. destruct Hsp as [[H _] _]. exact H.
  - destruct b0.
    + on_step. eapply hoare_bind; [|intros ?; eapply hoare_pre; [|apply hoare_skip]].
      * eapply hoare_pre; [|apply link_cmd_connect].
        intros w. apply on_weaken. intros x' [[[Hok Hb] _] _]. split; assumption.
      * intros w H. exact H.
    + on_last. destruct Hsp as [[H _] _]. exact H.
Qed.

#[local] Hint Resolve link_cmd_disconnect link_reconnectCommand : pres.

Lemma link_emit c ch ev : pres (allRecords commandOk) (emit c ch ev).
Proof. link_go. Qed.
#[local] Hint Resolve link_emit : pres.

Lemma link_resume c ch r ws : pres (allRecords commandOk) (router_resume c ch r ws).
Proof. link_go. Qed.
#[local] Hint Resolve link_resume : pres.

Lemma link_settle c ch sid r : pres (allRecords commandOk) (settle c ch sid r).
Proof. link_go. Qed.
#[local] Hint Resolve link_settle : pres.

Lemma link_closeConnection ip : pres (allRecords commandOk) (closeConnection ip).
Proof. link_go. Qed.
#[local] Hint Resolve link_closeConnection : pres.

(** Destroying the current socket of a client that reports not connected. *)
Lemma link_destroy_current c E :
  hoare (onRecord commandOk c
           (λ x, commandOk x ∧ isConnectedFlag (commandClient x) = false))
        (withSocket c Command (λ cur, destroy c Command cur))
        (λ _, onRecord commandOk c commandOk) E.
Proof.
  unfold withSocket. on_step. destruct (socket k) as [cur|] eqn:Hsock.
  - eapply hoare_conseq; [intros ? H; exact H | | apply on_destroy].
    cbv beta. intros ? ?. apply on_weaken. intros x' (x & [[[_ H2] Hf] Hk] & Hd).
    destruct (destroyed_spent _ _ _ Hd) as (Hflag & Hs & Hl).
    apply linkOk_down; [rewrite Hflag; exact Hf|].
    intros j s' Hs' Hne. destruct (Hl j s' Hs') as [Heq Hother].
    destruct (decide (j = cur)) as [Hj|Hj]; [auto|].
    apply (H2 j s' (Hother Hj)). rewrite <- Hs. exact Hne.
  - on_last. destruct Hsp as [[H _] _]. exact H.
Qed.

Lemma link_connectionTimeout c sid :
  pres (allRecords commandOk) (cmd_connectionTimeout c sid).
Proof.
  apply (pres_of_on commandOk c). unfold cmd_connectionTimeout.
  on_step. destruct b; cbn [negb].
  - on_last. destruct Hsp as [H _]. exact H.
  - eapply hoare_bind.
    + eapply hoare_pre; [|apply link_destroy_current].
      intros w. apply on_weaken. intros x' [Hok Hf]. split; assumption.
    + intros ?. apply on_of_pres, link_settle.
Qed.
#[local] Hint Resolve link_connectionTimeout : pres.

Lemma link_runTimer cb : pres (allRecords commandOk) (runTimer cb).
Proof. link_go. Qed.

Lemma link_message ws c message resp :
  pres (allRecords commandOk) (ws_onMessage ws c message resp).
Proof. link_go. Qed.

Lemma link_onSocket_heartbeat c sid e :
  pres (allRecords commandOk)
       (updSock c Heartbeat sid (sockAfter e) ;; onSocket c Heartbeat sid e).
Proof. destruct e; link_go. Qed.

(** The socket goes down and the handler says so at once. *)
Lemma link_drop c sid st (rest : M unit) :
  st = Destroyed ∨ st = Closed →
  pres (allRecords commandOk) rest →
  pres (allRecords commandOk)
       (updSock c Command sid (setSock_state st) ;;
        updClient c Command (set_isConnectedFlag false) ;; rest).
Proof.
  intros Hst Hrest. apply (pres_of_on commandOk c).
  on_step. eapply hoare_bind; [|intros ?; apply on_of_pres, Hrest].
  on_last. destruct Hsp as (x1 & (x0 & [_ H2] & ->) & ->).
  unfold commandOk. cbn. apply linkOk_down; [reflexivity|]. cbn.
  intros j s' Hs' Hne.
  apply lookup_alter_inv in Hs' as [(-> & s & _ & ->)|(_ & Hs')].
  - unfold spent. cbn. destruct Hst as [-> | ->]; auto.
  - eapply H2; eauto.
Qed.

Lemma link_command_event w c sid e s :
  allRecords commandOk w → sockOf w c Command sid = Some s → sockEnabled s e = true →
  allRecords commandOk
    (final ((updSock c Command sid (sockAfter e) ;; onSocket c Command sid e) w)).
Proof.
  intros Hw Hs Hen. destruct e as [|p|err| |]; cbn [onSocket sockAfter].
  - (* connect *)
    unfold sockEnabled in Hen. apply andb_prop in Hen as [Hl Hst].
    assert (Hst' : state s = Connecting) by (destruct (state s); try discriminate; reflexivity).
    assert (Hcur : onRecord commandOk c
                     (λ x, commandOk x ∧ socket (commandClient x) = Some sid
                           ∧ sockets (commandClient x) !! sid = Some s) w).
    { apply (on_all commandOk c) in Hw as [Ho Hc]. split; [exact Ho|].
      intros x Hx. unfold sockOf in Hs. rewrite Hx in Hs. cbn in Hs.
      split; [eauto|]. split; [|exact Hs].
      eapply link_current; [apply Hc, Hx | exact Hs | exact Hl | left; exact Hst']. }
    match goal with |- allRecords _ (final (?m w)) =>
      assert (Hgoal : hoare (onRecord commandOk c
                               (λ x, commandOk x ∧ socket (commandClient x) = Some sid
                                     ∧ sockets (commandClient x) !! sid = Some s))
                        m
                        (λ _, onRecord commandOk c commandOk)
                        (onRecord commandOk c commandOk))
    end.
    { on_step. unfold cmd_onConnect. on_step.
      eapply hoare_bind
        with (R := λ _, onRecord commandOk c
                 (λ x', ∃ x, (commandOk x ∧ socket (commandClient x) = Some sid
                              ∧ sockets (commandClient x) !! sid = Some s)
                             ∧ x' = set_client Command
                                      (set_sockets (alter (setSock_state Open) sid)) x)).
      - destruct (connectionTimeout s0).
        + eapply hoare_conseq; [intros ? H; exact H | | apply on_frame, frame_clearTimeout].
          cbv beta. intros ? ?. apply on_weaken. intros x' [H _]. exact H.
        + eapply hoare_conseq; [intros ? H; exact H | | apply hoare_skip].
          cbv beta. intros ? ?. apply on_weaken. intros x' [H _]. exact H.
      - intros ?; cbv beta. on_step.
        eapply hoare_pre; [|apply on_of_pres; link_go].
        intros w0. apply on_weaken.
        intros x2 (x1 & (x0 & ([_ H2] & Hsock & Hlook) & ->) & ->).
        unfold commandOk. cbn. split; cbn.
        + intros _. exists sid, (setSock_state Open s).
          rewrite list_lookup_alter_eq, Hlook. cbn. auto.
        + intros j s' Hs' Hne.
          apply lookup_alter_inv in Hs' as [(-> & _)|(_ & Hs')]; [contradiction|].
          eapply H2; eauto. }
    specialize (Hgoal w Hcur).
    match goal with |- allRecords _ (final (?m w)) => destruct (m w) end;
      apply (on_all commandOk c) in Hgoal; exact Hgoal.
  - (* data *)
    assert (Hp : pres (allRecords commandOk)
                   (updSock c Command sid (λ s, s) ;; cmd_onData c p)) by link_go.
    apply Hp, Hw.
  - (* error *)
    unfold cmd_onError.
    apply (link_drop c sid Destroyed); [auto | link_go | exact Hw].
  - (* close *)
    unfold cmd_onClose.
    apply (link_drop c sid Closed); [auto | link_go | exact Hw].
  - (* timeout *)
    assert (Hp : pres (allRecords commandOk) (updSock c Command sid (λ s, s) ;; ret tt))
      by link_go.
    apply Hp, Hw.
Qed.

Lemma link_record w d t :
  allRecords commandOk w →
  onRecord commandOk (length (store w))
    (λ x, commandOk x ∧ isConnectedFlag (commandClient x) = false)
    (set_connections (mapSet (dev_ip d) (length (store w)) (connections w))
       (set_store (store w ++ [newConnection d t]) w)).
Proof.
  intros Hw. split; cbn.
  - intros c' x Hne Hx. apply lookup_app_Some in Hx as [Hx|[Hlen Hx]]; [eauto|].
    apply list_lookup_singleton_Some in Hx as [Hj _]. lia.
  - intros x Hx. rewrite lookup_app_r in Hx by lia. rewrite Nat.sub_diag in Hx.
    injection Hx as <-. split; [apply linkOk_new | reflexivity].
Qed.

Lemma link_connectToDevice d ws : pres (allRecords commandOk) (connectToDevice d ws).
Proof.
  intros w Hw. unfold connectToDevice, bind at 1, get.
  destruct (mapGet (dev_ip d) (connections w)) as [c|] eqn:Hget.
  - assert (Hp : pres (allRecords commandOk)
                   (wsSend ws (ConnectionSuccess d) ;; attach c ws)) by link_go.
    apply Hp, Hw.
  - cbv zeta. unfold bind at 1, modify at 1. unfold bind at 1, modify at 1.
    assert (Hp : hoare (onRecord commandOk (length (store w))
                          (λ x, commandOk x ∧ isConnectedFlag (commandClient x) = false))
                   (sid <- cmd_connect (length (store w)) (dev_ip d) ;;
                    updConn (length (store w))
                            (set_pendingConnect (Some (Command, sid, ws))))
                   (λ _, onRecord commandOk (length (store w)) commandOk)
                   (onRecord commandOk (length (store w)) commandOk)).
    { eapply hoare_bind; [apply link_cmd_connect | intros sid; cbv beta].
      on_last. destruct Hsp as (x & Hx & ->). exact Hx. }
    specialize (Hp _ (link_record w d (now w) Hw)).
    match type of Hp with match ?r with _ => _ end =>
      change (allRecords commandOk (final r)); destruct r end;
      apply (on_all commandOk (length (store w))) in Hp; exact Hp.
Qed.
#[local] Hint Resolve link_connectToDevice : pres.

Lemma link_handler ev w m :
  handler ev w = Some m → allRecords commandOk w → allRecords commandOk (final (m w)).
Proof.
  destruct ev as [ws|ws d|ws c message resp|ws|c ch sid e|t|ms]; cbn [handler];
    intros Hh Hw.
  - destruct (isOpen ws w); [discriminate|]. injection Hh as <-.
    assert (Hp : pres (allRecords commandOk)
                   (modify (λ w, set_openClients (openClients w ++ [ws]) w) ;;
                    wsSend ws Greeting)) by link_go.
    apply Hp, Hw.
  - destruct (isOpen ws w); [|discriminate]. injection Hh as <-.
    assert (Hp : pres (allRecords commandOk) (router_connectDevice d ws)) by link_go.
    apply Hp, Hw.
  - destruct (_ && _); [|discriminate]. injection Hh as <-.
    apply link_message, Hw.
  - destruct (isOpen ws w); [|discriminate]. injection Hh as <-.
    match goal with |- allRecords _ (final (?m w)) =>
      assert (Hp : pres (allRecords commandOk) m) by link_go end.
    apply Hp, Hw.
  - destruct (sockOf w c ch sid) as [s|] eqn:Hs; [|discriminate].
    destruct (sockEnabled s e) eqn:Hen; [|discriminate]. injection Hh as <-.
    destruct ch.
    + eapply link_command_event; eauto.
    + apply link_onSocket_heartbeat, Hw.
  - destruct (filter _ _) as [|x l]; [discriminate|].
    destruct (due x <=? now w); [|discriminate]. injection Hh as <-.
    assert (Hp : pres (allRecords commandOk) (clearTimeout t ;; runTimer (callback x))).
    { apply pres_bind; [link_go | intros _; apply link_runTimer]. }
    apply Hp, Hw.
  - destruct (0 <=? ms); [|discriminate]. injection Hh as <-. exact Hw.
Qed.

Lemma deliver_link w ev : allRecords commandOk w → allRecords commandOk (deliver w ev).
Proof.
  intros Hw. unfold deliver. destruct (crashed w); [exact Hw|].
  destruct (handler ev w) as [m|] eqn:Hh; [|exact Hw].
  pose proof (link_handler ev w m Hh Hw) as Hf.
  destruct (m w); exact Hf.
Qed.

Lemma run_link evs : ∀ w, allRecords commandOk w → allRecords commandOk (run w evs).
Proof.
  induction evs as [|ev evs IH]; intros w Hw; [exact Hw|].
  cbn. apply IH, deliver_link, Hw.
Qed.

Lemma initial_link h : allRecords commandOk (initial h).
Proof. intros c x Hx. cbn in Hx. rewrite lookup_nil in Hx. discriminate. Qed.

Lemma sendCommand_target w c x cmd data sid payload :
  store w !! c = Some x →
  SockWrite c Command sid payload ∈ since w (final (sendCommand c cmd data w)) →
  isConnectedFlag (commandClient x) = true ∧ socket (commandClient x) = Some sid.
Proof.
  intros Hx Hin. unfold sendCommand in Hin. unfold_ops. cbn in Hin. rewrite Hx in Hin.
  cbn in Hin.
  destruct (socket (commandClient x)) as [cur|];
    [|unfold since in Hin; rewrite drop_all in Hin; apply not_elem_of_nil in Hin; contradiction].
  destruct (isConnectedFlag (commandClient x)); cbn in Hin;
    [|unfold since in Hin; rewrite drop_all in Hin; apply not_elem_of_nil in Hin; contradiction].
  unfold since in Hin. cbn in Hin. rewrite drop_app_length in Hin.
  apply list_elem_of_singleton in Hin. injection Hin as <- _. auto.
Qed.

(** X15: Whatever has happened, the command client of a record does not report
    connected unless its current socket is open and has its handlers; its
    other sockets deliver nothing but their close; and a frame that
    [sendCommand] writes goes to the current socket, which is open. *)
Theorem command_client_connected_means_open
    (h : Host) (evs : list Event) (c : nat) (x : MobileConnection)
    (Hx : store (run (initial h) evs) !! c = Some x) :
  let w := run (initial h) evs in
  let k := commandClient x in
  (isConnectedFlag k = true →
     ∃ sid s, socket k = Some sid ∧ sockets k !! sid = Some s
              ∧ state s = Open ∧ listeners s = true)
  ∧ (∀ sid s, sockets k !! sid = Some s → socket k ≠ Some sid → spent s)
  ∧ (∀ cmd data sid payload,
       SockWrite c Command sid payload ∈ since w (final (sendCommand c cmd data w)) →
       socket k = Some sid ∧ ∃ s, sockets k !! sid = Some s ∧ state s = Open).
Proof.
  intros w k.
  destruct (run_link evs (initial h) (initial_link h) c x Hx) as [H1 H2]. fold k in H1, H2.
  split; [exact H1|]. split; [exact H2|].
  intros cmd data sid payload Hin.
  destruct (sendCommand_target w c x cmd data sid payload Hx Hin) as [Hf Hs].
  split; [exact Hs|].
  destruct (H1 Hf) as (cur & s & Hc & Hl & Hst & _).
  fold k in Hs. rewrite Hs in Hc. injection Hc as <-. eauto.
Qed.

Lemma command_client_connected_means_open_witness :
  ∃ sid s,
    socket (commandClient (default blankConnection (store linked !! 0%nat))) = Some sid
    ∧ sockets (commandClient (default blankConnection (store linked !! 0%nat))) !! sid
      = Some s
    ∧ state s = Open ∧ listeners s = true.
Proof.
  assert (Hx : store (run (initial sampleHost)
                        [EvWsOpen 1; EvWsOpen 2; EvConnectDevice 1 pixel;
                         EvSocket 0 Command 0 SConnect; EvSocket 0 Heartbeat 0 SConnect])
               !! 0%nat
               = Some (default blankConnection (store linked !! 0%nat)))
    by (vm_compute; reflexivity).
  apply (proj1 (command_client_connected_means_open sampleHost _ 0 _ Hx)).
  vm_compute. reflexivity.
Defined.

(** *** The life of a record *)

Section EachRecord.
Context (R : nat → MobileConnection → Prop).

Lemma each_updConn c g : (∀ x, R c x → R c (g x)) → pres (eachRecord R) (updConn c g).
Proof.
  intros Hg. apply pres_modify. intros w Hw c' x' Hx'. cbn in Hx'.
  destruct (decide (c' = c)) as [->|Hne].
  - rewrite list_lookup_alter_eq in Hx'.
    destruct (store w !! c) as [x|] eqn:Hx; [|discriminate]. injection Hx' as <-.
    apply Hg. eapply Hw, Hx.
  - rewrite list_lookup_alter_ne in Hx' by congruence. eapply Hw, Hx'.
Qed.

Lemma each_step (R' : nat → MobileConnection → Prop) c g E :
  (∀ x, R c x → R' c (g x)) → (∀ c' x, c' ≠ c → R c' x → R' c' x) →
  hoare (eachRecord R) (updConn c g) (λ _, eachRecord R') E.
Proof.
  intros Hg Ho w Hw c' x' Hx'. cbn in Hx'.
  destruct (decide (c' = c)) as [->|Hne].
  - rewrite list_lookup_alter_eq in Hx'.
    destruct (store w !! c) as [x|] eqn:Hx; [|discriminate]. injection Hx' as <-.
    apply Hg. eapply Hw, Hx.
  - rewrite list_lookup_alter_ne in Hx' by congruence. apply Ho; [exact Hne|]. eapply Hw, Hx'.
Qed.

Hypothesis flagBased : ∀ c x y, sameFlags x y → R c x → R c y.

Lemma flags_updConn c g : (∀ x, sameFlags x (g x)) → pres (eachRecord R) (updConn c g).
Proof. intros Hg. apply each_updConn. intros x. apply flagBased, Hg. Qed.

End EachRecord.

Ltac flags_prim HR :=
  lazymatch goal with
  | |- pres (eachRecord _) (updSock _ _ _ _) =>
      unfold updSock, updClient; apply flags_updConn; [intros ? ? ?; apply HR | intros ?; repeat split]
  | |- pres (eachRecord _) (updClient _ _ _) =>
      unfold updClient; apply flags_updConn; [intros ? ? ?; apply HR | intros ?; repeat split]
  | |- pres (eachRecord _) (updConn _ _) =>
      apply flags_updConn; [intros ? ? ?; apply HR | intros ?; repeat split]
  | |- pres (eachRecord _) (modify _) =>
      apply pres_modify; let H := fresh in intros ? H; exact H
  | |- pres (eachRecord _) (setTimeout _ _) =>
      apply pres_setTimeout; let H := fresh in intros ? ? ? H; exact H
  end.

Section Flags.
Context (R : nat → MobileConnection → Prop).
Hypothesis flagBased : ∀ c x y, sameFlags x y → R c x → R c y.

Lemma flags_cmd_connect c ip : pres (eachRecord R) (cmd_connect c ip).
Proof. repeat (flags_prim flagBased || pres_step). Qed.

Lemma flags_hb_connect c ip : pres (eachRecord R) (hb_connect c ip).
Proof. repeat (flags_prim flagBased || pres_step). Qed.

End Flags.

Lemma life_flags n c0 c x y : sameFlags x y → life n c0 c x → life n c0 c y.
Proof.
  intros (Hc & Hf & Hp) [[H1 H2] H3]. unfold life, setupOk, stage in *.
  rewrite Hc, Hf, Hp. auto.
Qed.

Lemma settingUp_flags b n c0 c' c x y :
  sameFlags x y → settingUp b n c0 c' c x → settingUp b n c0 c' c y.
Proof.
  unfold settingUp. destruct (decide (c = c')); [|apply life_flags].
  intros (Hc & Hf & Hp). rewrite Hc, Hf, Hp. auto.
Qed.

Lemma settingUp_life n c0 c' c x : settingUp false n c0 c' c x → life n c0 c x.
Proof.
  unfold settingUp. destruct (decide (c = c')); [|auto].
  intros (Hf & Hc & Hp & Hn). unfold life, setupOk, stage.
  rewrite Hf, Hc. split; [split; discriminate|]. intros H. rewrite (Hn H). lia.
Qed.

Ltac life_prim :=
  lazymatch goal with
  | |- pres (eachRecord (life _ _)) (updConn _ (set_connected false)) =>
      apply each_updConn;
      let H1 := fresh in let H2 := fresh in let H3 := fresh in
      intros ? [[H1 H2] H3]; unfold life, setupOk, stage in *; cbn;
      split; [split; [discriminate | exact H2]|];
      let He := fresh in intros He; specialize (H3 He);
      destruct (forwarding _), (connected _); cbn in *; lia
  | |- pres (eachRecord (life _ _)) (updConn _ (set_pendingConnect None)) =>
      apply each_updConn;
      let H1 := fresh in let H2 := fresh in let H3 := fresh in
      intros ? [[H1 H2] H3]; unfold life, setupOk, stage in *; cbn;
      split; [split; [exact H1 | reflexivity] | exact H3]
  | |- pres (eachRecord (life _ _)) _ => flags_prim life_flags
  end.
Ltac life_go := repeat (life_prim || pres_step).

Lemma life_emit n c0 c ch ev : pres (eachRecord (life n c0)) (emit c ch ev).
Proof. life_go. Qed.
#[local] Hint Resolve life_emit : pres.

Lemma life_closeConnection n c0 ip : pres (eachRecord (life n c0)) (closeConnection ip).
Proof. life_go. Qed.
#[local] Hint Resolve life_closeConnection : pres.

Lemma hoare_exn {A} (P : World → Prop) (m : M A) Q (E E' : World → Prop) :
  (∀ w, E' w → E w) → hoare P m Q E' → hoare P m Q E.
Proof. intros HE Hm w H. specialize (Hm w H). destruct (m w); [exact Hm | apply HE, Hm]. Qed.

(** [connectToDevice] going on after an [await], for a record that is being
    set up. *)
Lemma life_resume n c0 c ch r ws :
  hoare (eachRecord (settingUp false n c0 c)) (router_resume c ch r ws)
        (λ _, eachRecord (life n c0)) (eachRecord (life n c0)).
Proof.
  assert (Hweak : ∀ w, eachRecord (settingUp false n c0 c) w → eachRecord (life n c0) w).
  { intros w Hw c' x Hx. eapply settingUp_life, Hw, Hx. }
  unfold router_resume.
  apply hoare_tryCatch with (E' := eachRecord (life n c0));
    [|intros e; apply hoare_of_pres; life_go].
  unfold connectToDevice_resume.
  assert (Hcatch : ∀ e, hoare (eachRecord (settingUp false n c0 c))
                          (connectToDevice_catch c ws e)
                          (λ _, eachRecord (life n c0)) (eachRecord (life n c0))).
  { intros e. eapply hoare_pre; [exact Hweak|]. apply hoare_of_pres. life_go. }
  assert (Hcmd : hoare (eachRecord (settingUp false n c0 c))
                   (x <- getConn c ;;
                    sid <- hb_connect c (dev_ip (device x)) ;;
                    updConn c (set_pendingConnect (Some (Heartbeat, sid, ws))))
                   (λ _, eachRecord (life n c0)) (eachRecord (life n c0))).
  { eapply hoare_bind with (R := λ _, eachRecord (settingUp false n c0 c));
      [intros w H; exact H | intros x].
    eapply hoare_bind with (R := λ _, eachRecord (settingUp false n c0 c)).
    - eapply hoare_exn; [exact Hweak|]. apply hoare_of_pres, flags_hb_connect.
      intros. eapply settingUp_flags; eauto.
    - intros sid. apply each_step.
      + intros x0. unfold settingUp. rewrite decide_True by reflexivity.
        intros (Hf & Hc & _ & Hn). unfold life, setupOk, stage. cbn. rewrite Hf, Hc.
        split; [split; discriminate|]. intros H. rewrite (Hn H). lia.
      + intros c' x0 Hne. unfold settingUp. rewrite decide_False by exact Hne. auto. }
  assert (Hhb : hoare (eachRecord (settingUp false n c0 c))
                  (updConn c (set_connected true) ;;
                   setupEventForwarding c ;;
                   effect (FetchMobileInfo c) ;;
                   x <- getConn c ;;
                   wsSend ws (ConnectionSuccess (device x)) ;;
                   attach c ws)
                  (λ _, eachRecord (life n c0)) (eachRecord (life n c0))).
  { eapply hoare_bind with (R := λ _, eachRecord (settingUp true n c0 c)).
    - apply each_step.
      + intros x0. unfold settingUp. rewrite !decide_True by reflexivity. cbn.
        intros (Hf & _ & Hp & Hn). auto.
      + intros c' x0 Hne. unfold settingUp. rewrite !decide_False by exact Hne. auto.
    - intros _. eapply hoare_bind with (R := λ _, eachRecord (life n c0));
        [|intros _; apply hoare_of_pres; life_go].
      unfold setupEventForwarding. apply each_step.
      + intros x0. unfold settingUp. rewrite decide_True by reflexivity.
        intros (Hf & Hc & Hp & Hn). unfold life, setupOk, stage. cbn. rewrite Hc.
        split; [split; auto|]. intros H. rewrite (Hn H). lia.
      + intros c' x0 Hne. unfold settingUp. rewrite decide_False by exact Hne. auto. }
  destruct r, ch; first [apply Hcatch | exact Hcmd | exact Hhb].
Qed.

Lemma life_settle n c0 c ch sid r : pres (eachRecord (life n c0)) (settle c ch sid r).
Proof.
  unfold settle. apply pres_bind; [life_go | intros s].
  destruct (promise s); [|apply pres_ret..].
  apply pres_bind; [life_go | intros _].
  intros w Hw. unfold bind at 1, getConn at 1.
  destruct (pendingConnect (default blankConnection (store w !! c)))
    as [[[ch' sid'] ws]|] eqn:Hp; [|exact Hw].
  destruct (bool_decide _); [|exact Hw].
  assert (Hrun : hoare (λ w', w' = w)
                   (updConn c (set_pendingConnect None) ;; router_resume c ch r ws)
                   (λ _, eachRecord (life n c0)) (eachRecord (life n c0))).
  { eapply hoare_bind with (R := λ _, eachRecord (settingUp false n c0 c));
      [|intros _; apply life_resume].
    eapply hoare_pre with (P' := eachRecord
             (λ c' x, if decide (c' = c)
                      then life n c0 c' x ∧ is_Some (pendingConnect x)
                      else life n c0 c' x)).
    - intros w' -> c' x Hx. destruct (decide (c' = c)) as [->|Hne]; [|eapply Hw, Hx].
      split; [eapply Hw, Hx|]. rewrite Hx in Hp. cbn in Hp. rewrite Hp. eauto.
    - apply each_step.
      + intros x. rewrite decide_True by reflexivity. unfold settingUp.
        rewrite decide_True by reflexivity. cbn.
        intros [[[H1 H2] H3] [p Hsome]].
        assert (Hf : forwarding x = false).
        { destruct (forwarding x); [|reflexivity]. rewrite H2 in Hsome by reflexivity.
          discriminate. }
        assert (Hc : connected x = false).
        { destruct (connected x); [|reflexivity]. rewrite H1 in Hf by reflexivity.
          discriminate. }
        split; [exact Hf|]. split; [exact Hc|]. split; [reflexivity|].
        intros He. specialize (H3 He). unfold stage in H3. rewrite Hf in H3. lia.
      + intros c' x Hne. rewrite decide_False by exact Hne. unfold settingUp.
        rewrite decide_False by exact Hne. auto. }
  specialize (Hrun w eq_refl).
  destruct ((updConn c (set_pendingConnect None) ;; router_resume c ch r ws) w); exact Hrun.
Qed.
#[local] Hint Resolve life_settle : pres.

Lemma life_record n c0 w d t :
  (c0 < length (store w))%nat ∨ n = 0%nat →
  eachRecord (life n c0) w →
  eachRecord (settingUp false n c0 (length (store w)))
    (set_connections (mapSet (dev_ip d) (length (store w)) (connections w))
       (set_store (store w ++ [newConnection d t]) w)).
Proof.
  intros Hc0 Hw c x Hx. cbn in Hx. unfold settingUp.
  apply lookup_app_Some in Hx as [Hx|[Hlen Hx]].
  - rewrite decide_False by (apply lookup_lt_Some in Hx; lia). eapply Hw, Hx.
  - apply list_lookup_singleton_Some in Hx as [Hj <-].
    rewrite decide_True by lia. cbn. repeat split. intros ->. lia.
Qed.

Lemma life_connectToDevice n c0 d ws w :
  (c0 < length (store w))%nat ∨ n = 0%nat →
  eachRecord (life n c0) w →
  eachRecord (life n c0) (final (router_connectDevice d ws w)).
Proof.
  intros Hc0 Hw.
  assert (Hp : hoare (λ w', w' = w) (router_connectDevice d ws)
                 (λ _, eachRecord (life n c0)) (eachRecord (life n c0))).
  { unfold router_connectDevice.
    apply hoare_tryCatch with (E' := eachRecord (life n c0));
      [|intros e; apply hoare_of_pres; life_go].
    intros w' ->. unfold connectToDevice, bind at 1, get.
    destruct (mapGet (dev_ip d) (connections w)) as [c|] eqn:Hget.
    - assert (Hq : pres (eachRecord (life n c0))
                     (wsSend ws (ConnectionSuccess d) ;; attach c ws)) by life_go.
      apply (hoare_of_pres _ _ Hq), Hw.
    - cbv zeta. unfold bind at 1, modify at 1. unfold bind at 1, modify at 1.
      assert (Hq : hoare (eachRecord (settingUp false n c0 (length (store w))))
                     (sid <- cmd_connect (length (store w)) (dev_ip d) ;;
                      updConn (length (store w))
                              (set_pendingConnect (Some (Command, sid, ws))))
                     (λ _, eachRecord (life n c0)) (eachRecord (life n c0))).
      { eapply hoare_bind with (R := λ _, eachRecord (settingUp false n c0 (length (store w)))).
        - eapply hoare_exn with (E' := eachRecord (settingUp false n c0 (length (store w))));
            [intros w' Hw' c' x Hx; eapply settingUp_life, Hw', Hx|].
          apply hoare_of_pres, flags_cmd_connect.
          intros. eapply settingUp_flags; eauto.
        - intros sid. apply each_step.
          + intros x0. unfold settingUp. rewrite decide_True by reflexivity.
            intros (Hf & Hc & _ & Hn). unfold life, setupOk, stage. cbn. rewrite Hf, Hc.
            split; [split; discriminate|]. intros H. rewrite (Hn H). lia.
          + intros c' x0 Hne. unfold settingUp. rewrite decide_False by exact Hne. auto. }
      exact (Hq _ (life_record n c0 w d (now w) Hc0 Hw)). }
  specialize (Hp w eq_refl). destruct (router_connectDevice d ws w); exact Hp.
Qed.

Lemma life_handler n c0 ev w m :
  handler ev w = Some m → (c0 < length (store w))%nat ∨ n = 0%nat →
  eachRecord (life n c0) w → eachRecord (life n c0) (final (m w)).
Proof.
  destruct ev as [ws|ws d|ws c message resp|ws|c ch sid e|t|ms]; cbn [handler];
    intros Hh Hc0 Hw.
  - destruct (isOpen ws w); [discriminate|]. injection Hh as <-.
    assert (Hp : pres (eachRecord (life n c0))
                   (modify (λ w, set_openClients (openClients w ++ [ws]) w) ;;
                    wsSend ws Greeting)) by life_go.
    apply Hp, Hw.
  - destruct (isOpen ws w); [|discriminate]. injection Hh as <-.
    apply life_connectToDevice; assumption.
  - destruct (_ && _); [|discriminate]. injection Hh as <-.
    assert (Hp : pres (eachRecord (life n c0)) (ws_onMessage ws c message resp)) by life_go.
    apply Hp, Hw.
  - destruct (isOpen ws w); [|discriminate]. injection Hh as <-.
    match goal with |- eachRecord _ (final (?m w)) =>
      assert (Hp : pres (eachRecord (life n c0)) m) by life_go end.
    apply Hp, Hw.
  - destruct (sockOf w c ch sid) as [s|] eqn:Hs; [|discriminate].
    destruct (sockEnabled s e) eqn:Hen; [|discriminate]. injection Hh as <-.
    assert (Hp : pres (eachRecord (life n c0))
                   (updSock c ch sid (sockAfter e) ;; onSocket c ch sid e))
      by (destruct ch, e; life_go).
    apply Hp, Hw.
  - destruct (filter _ _) as [|x l]; [discriminate|].
    destruct (due x <=? now w); [|discriminate]. injection Hh as <-.
    assert (Hp : pres (eachRecord (life n c0)) (clearTimeout t ;; runTimer (callback x)))
      by (destruct (callback x); life_go).
    apply Hp, Hw.
  - destruct (0 <=? ms); [|discriminate]. injection Hh as <-. exact Hw.
Qed.

(** *** Records are kept *)

Ltac keeps_prim :=
  lazymatch goal with
  | |- pres (keeps _) (updSock _ _ _ _) => unfold updSock, updClient, updConn
  | |- pres (keeps _) (updClient _ _ _) => unfold updClient, updConn
  | |- pres (keeps _) (updConn _ _) => unfold updConn
  | |- pres (keeps _) (modify _) =>
      apply pres_modify; let H := fresh in
      intros ? H; unfold keeps in *; cbn;
      first [exact H | rewrite length_alter; exact H | rewrite length_app; cbn; lia]
  | |- pres (keeps _) (setTimeout _ _) =>
      apply pres_setTimeout; let H := fresh in intros ? ? ? H; exact H
  end.
Ltac keeps_go := repeat (keeps_prim || pres_step).

Lemma keeps_emit L c ch ev : pres (keeps L) (emit c ch ev).
Proof. keeps_go. Qed.
#[local] Hint Resolve keeps_emit : pres.

Lemma keeps_resume L c ch r ws : pres (keeps L) (router_resume c ch r ws).
Proof. keeps_go. Qed.
#[local] Hint Resolve keeps_resume : pres.

Lemma keeps_settle L c ch sid r : pres (keeps L) (settle c ch sid r).
Proof. keeps_go. Qed.
#[local] Hint Resolve keeps_settle : pres.

Lemma keeps_closeConnection L ip : pres (keeps L) (closeConnection ip).
Proof. keeps_go. Qed.
#[local] Hint Resolve keeps_closeConnection : pres.

Lemma keeps_handler L ev w m : handler ev w = Some m → pres (keeps L) m.
Proof.
  destruct ev as [ws|ws d|ws c message resp|ws|c ch sid e|t|ms]; cbn [handler]; intros Hh.
  - destruct (isOpen ws w); [discriminate|]. injection Hh as <-. keeps_go.
  - destruct (isOpen ws w); [|discriminate]. injection Hh as <-. keeps_go.
  - destruct (_ && _); [|discriminate]. injection Hh as <-. keeps_go.
  - destruct (isOpen ws w); [|discriminate]. injection Hh as <-. keeps_go.
  - destruct (sockOf w c ch sid) as [s|]; [|discriminate].
    destruct (sockEnabled s e); [|discriminate]. injection Hh as <-.
    destruct ch, e; keeps_go.
  - destruct (filter _ _) as [|x l]; [discriminate|].
    destruct (due x <=? now w); [|discriminate]. injection Hh as <-.
    destruct (callback x); keeps_go.
  - destruct (0 <=? ms); [|discriminate]. injection Hh as <-. keeps_go.
Qed.

Lemma deliver_keeps L w ev : keeps L w → keeps L (deliver w ev).
Proof.
  intros Hw. unfold deliver. destruct (crashed w); [exact Hw|].
  destruct (handler ev w) as [m|] eqn:Hh; [|exact Hw].
  pose proof (keeps_handler L ev w m Hh w Hw) as Hf.
  destruct (m w); exact Hf.
Qed.

Lemma deliver_life n c0 w ev :
  (c0 < length (store w))%nat ∨ n = 0%nat →
  eachRecord (life n c0) w → eachRecord (life n c0) (deliver w ev).
Proof.
  intros Hc0 Hw. unfold deliver. destruct (crashed w); [exact Hw|].
  destruct (handler ev w) as [m|] eqn:Hh; [|exact Hw].
  pose proof (life_handler n c0 ev w m Hh Hc0 Hw) as Hf.
  destruct (m w); exact Hf.
Qed.

Lemma run_life n c0 evs : ∀ w,
  (c0 < length (store w))%nat ∨ n = 0%nat → eachRecord (life n c0) w →
  eachRecord (life n c0) (run w evs) ∧ (length (store w) ≤ length (store (run w evs)))%nat.
Proof.
  induction evs as [|ev evs IH]; intros w Hc0 Hw; [split; [exact Hw | cbn; lia]|].
  change (run w (ev :: evs)) with (run (deliver w ev) evs).
  pose proof (deliver_keeps (length (store w)) w ev (le_n _)) as Hk. unfold keeps in Hk.
  destruct (IH (deliver w ev)) as [Hl Hg].
  - destruct Hc0 as [Hc0| ->]; [left; lia | right; reflexivity].
  - apply deliver_life; assumption.
  - split; [exact Hl | lia].
Qed.

Lemma initial_life n c0 h : eachRecord (life n c0) (initial h).
Proof. intros c x Hx. cbn in Hx. rewrite lookup_nil in Hx. discriminate. Qed.

(** X17: A record that has been marked connected and then marked disconnected
    is still there after whatever happens next, and is never marked connected
    again: as long as the table holds it, its address is reported as not
    connected. *)
Theorem connected_is_never_restored
    (h : Host) (evs1 evs2 evs3 : list Event) (c : nat) (x1 x2 : MobileConnection)
    (H1 : store (run (initial h) evs1) !! c = Some x1)
    (Hc1 : connected x1 = true)
    (H2 : store (run (run (initial h) evs1) evs2) !! c = Some x2)
    (Hc2 : connected x2 = false) :
  let w := run (run (run (initial h) evs1) evs2) evs3 in
  (∃ x3, store w !! c = Some x3 ∧ connected x3 = false)
  ∧ ∀ ip, mapGet ip (connections w) = Some c → isDeviceConnected ip w = false.
Proof.
  intros w.
  destruct (run_life 0 c evs1 (initial h) (or_intror eq_refl) (initial_life 0 c h))
    as [Hl1 _].
  assert (Hl1' : eachRecord (life 1 c) (run (initial h) evs1)).
  { intros c' x Hx. destruct (Hl1 c' x Hx) as [Hs _]. split; [exact Hs|].
    intros ->. rewrite H1 in Hx. injection Hx as <-. unfold stage.
    rewrite (proj1 Hs Hc1), Hc1. cbn. lia. }
  destruct (run_life 1 c evs2 _ (or_introl (lookup_lt_Some _ _ _ H1)) Hl1') as [Hl2 _].
  assert (Hl2' : eachRecord (life 2 c) (run (run (initial h) evs1) evs2)).
  { intros c' x Hx. destruct (Hl2 c' x Hx) as [Hs Hn]. split; [exact Hs|].
    intros ->. specialize (Hn eq_refl). rewrite H2 in Hx. injection Hx as <-.
    unfold stage in *. rewrite Hc2 in *. destruct (forwarding x2); cbn in *; lia. }
  destruct (run_life 2 c evs3 _ (or_introl (lookup_lt_Some _ _ _ H2)) Hl2') as [Hl3 Hg].
  fold w in Hl3, Hg.
  assert (Hc : (c < length (store w))%nat) by (apply lookup_lt_Some in H2; lia).
  apply lookup_lt_is_Some_2 in Hc as [x3 Hx3].
  assert (Hc3 : connected x3 = false).
  { destruct (Hl3 c x3 Hx3) as [_ Hn]. specialize (Hn eq_refl). unfold stage in Hn.
    destruct (forwarding x3), (connected x3); cbn in Hn; try lia; reflexivity. }
  split; [exists x3; split; assumption|].
  intros ip Hget. unfold isDeviceConnected. rewrite Hget, Hx3. exact Hc3.
Qed.

Lemma connected_is_never_restored_witness :
  ∃ x3, store (run dropped [EvAdvance 1000; EvConnectDevice 2 pixel]) !! 0%nat = Some x3
        ∧ connected x3 = false.
Proof.
  assert (H1 : store (run (initial sampleHost)
                        [EvWsOpen 1; EvWsOpen 2; EvConnectDevice 1 pixel;
                         EvSocket 0 Command 0 SConnect; EvSocket 0 Heartbeat 0 SConnect])
               !! 0%nat
               = Some (default blankConnection (store linked !! 0%nat)))
    by (vm_compute; reflexivity).
  assert (H2 : store (run (run (initial sampleHost)
                        [EvWsOpen 1; EvWsOpen 2; EvConnectDevice 1 pixel;
                         EvSocket 0 Command 0 SConnect; EvSocket 0 Heartbeat 0 SConnect])
                        [EvSocket 0 Command 0 SClose; EvSocket 0 Heartbeat 0 SClose])
               !! 0%nat
               = Some (default blankConnection (store dropped !! 0%nat)))
    by (vm_compute; reflexivity).
  destruct (proj1 (connected_is_never_restored sampleHost _ _
                     [EvAdvance 1000; EvConnectDevice 2 pixel] 0 _ _ H1
                     ltac:(vm_compute; reflexivity) H2 ltac:(vm_compute; reflexivity)))
    as (x3 & Hx3 & Hc3).
  exists x3. split; [|exact Hc3].
  rewrite <- Hx3. vm_compute. reflexivity.
Defined.

(** *** What goes over the TCP sockets *)

Lemma wire_effect h e : wireOk h e → pres (wired h) (effect e).
Proof.
  intros He. apply pres_modify. intros w [Hh Ht]. split; [exact Hh|]. cbn.
  apply Forall_app. split; [exact Ht | constructor; [exact He | constructor]].
Qed.

(** Reading the world keeps what is known about it. *)
Lemma pres_read {A} (P : World → Prop) (k : World → M A) :
  (∀ w0, P w0 → P (final (k w0 w0))) → pres P (bind get k).
Proof. intros Hk w Hw. exact (Hk w Hw). Qed.

Ltac wire_prim :=
  lazymatch goal with
  | |- pres (wired ?h) (bind get _) =>
      apply pres_read;
      let w0 := fresh "w0" in let Hh := fresh "Hh" in let Ht := fresh "Ht" in
      intros w0 [Hh Ht];
      lazymatch goal with
      | |- wired h (final (?m w0)) =>
          cut (pres (wired h) m); [intros Hp; apply Hp; split; assumption|]
      end
  | |- pres (wired ?h) (effect ?e) =>
      apply wire_effect; cbn;
      first [ exact I | reflexivity
            | match goal with Hh : host _ = h |- _ => rewrite Hh end;
              first [reflexivity | eexists _, _; reflexivity] ]
  | |- pres (wired _) (updSock _ _ _ _) => unfold updSock, updClient, updConn
  | |- pres (wired _) (updClient _ _ _) => unfold updClient, updConn
  | |- pres (wired _) (updConn _ _) => unfold updConn
  | |- pres (wired _) (modify _) =>
      apply pres_modify; let H := fresh in intros ? H; exact H
  | |- pres (wired _) (setTimeout _ _) =>
      apply pres_setTimeout; let H := fresh in intros ? ? ? H; exact H
  end.
Ltac wire_go := repeat (wire_prim || pres_step).

Lemma wire_reportDesktopInfo h c : pres (wired h) (reportDesktopInfo c).
Proof. unfold reportDesktopInfo. wire_go. Qed.
#[local] Hint Resolve wire_reportDesktopInfo : pres.

Lemma wire_sendHeartbeat h c : pres (wired h) (sendHeartbeat c).
Proof. wire_go. Qed.
#[local] Hint Resolve wire_sendHeartbeat : pres.

Lemma wire_emit h c ch ev : pres (wired h) (emit c ch ev).
Proof. wire_go. Qed.
#[local] Hint Resolve wire_emit : pres.

Lemma wire_resume h c ch r ws : pres (wired h) (router_resume c ch r ws).
Proof. wire_go. Qed.
#[local] Hint Resolve wire_resume : pres.

Lemma wire_settle h c ch sid r : pres (wired h) (settle c ch sid r).
Proof. wire_go. Qed.
#[local] Hint Resolve wire_settle : pres.

Lemma wire_closeConnection h ip : pres (wired h) (closeConnection ip).
Proof. wire_go. Qed.
#[local] Hint Resolve wire_closeConnection : pres.

Lemma wire_handler h ev w m : handler ev w = Some m → pres (wired h) m.
Proof.
  destruct ev as [ws|ws d|ws c message resp|ws|c ch sid e|t|ms]; cbn [handler]; intros Hh.
  - destruct (isOpen ws w); [discriminate|]. injection Hh as <-. wire_go.
  - destruct (isOpen ws w); [|discriminate]. injection Hh as <-. wire_go.
  - destruct (_ && _); [|discriminate]. injection Hh as <-. wire_go.
  - destruct (isOpen ws w); [|discriminate]. injection Hh as <-. wire_go.
  - destruct (sockOf w c ch sid) as [s|]; [|discriminate].
    destruct (sockEnabled s e); [|discriminate]. injection Hh as <-.
    destruct ch, e; wire_go.
  - destruct (filter _ _) as [|x l]; [discriminate|].
    destruct (due x <=? now w); [|discriminate]. injection Hh as <-.
    destruct (callback x); wire_go.
  - destruct (0 <=? ms); [|discriminate]. injection Hh as <-. wire_go.
Qed.

Lemma deliver_wired h w ev : wired h w → wired h (deliver w ev).
Proof.
  intros Hw. unfold deliver. destruct (crashed w); [exact Hw|].
  destruct (handler ev w) as [m|] eqn:Hh; [|exact Hw].
  pose proof (wire_handler h ev w m Hh w Hw) as Hf.
  destruct (m w); exact Hf.
Qed.

Lemma run_wired h evs : ∀ w, wired h w → wired h (run w evs).
Proof.
  induction evs as [|ev evs IH]; intros w Hw; [exact Hw|].
  cbn. apply IH, deliver_wired, Hw.
Qed.

(** X18: Whatever happens, the only frame the server ever writes to a command
    socket is the handshake that describes this server, and the only frames
    it writes to a heartbeat socket are heartbeats carrying this server's
    address: no request of a browser is ever passed on over TCP.  TCP
    connections are only opened to port 20001 for the command channel and to
    port 20002 for the heartbeat channel. *)
Theorem only_handshake_and_heartbeats_are_written (h : Host) (evs : list Event) :
  let t := trace (run (initial h) evs) in
  (∀ c sid p, SockWrite c Command sid p ∈ t → p = handshakeFrame h)
  ∧ (∀ c sid p, SockWrite c Heartbeat sid p ∈ t →
       ∃ v time, p = JObj [("ip", JStr (getLocalIP h)); ("value", v); ("time", JNum time)])
  ∧ (∀ c ch sid port ip, SockConnect c ch sid port ip ∈ t →
       port = match ch with Command => PORTS.CMD | Heartbeat => PORTS.HEARTBEAT end).
Proof.
  intros t.
  assert (Hw : wired h (initial h)) by (split; [reflexivity | constructor]).
  destruct (run_wired h evs _ Hw) as [_ Ht]. fold t in Ht.
  rewrite Forall_forall in Ht.
  split; [|split].
  - intros c sid p Hin. exact (Ht _ Hin).
  - intros c sid p Hin. exact (Ht _ Hin).
  - intros c ch sid port ip Hin. specialize (Ht _ Hin). destruct ch; exact Ht.
Qed.

(** *** The connected mark and the two clients *)

Lemma mapDelete_snd {V} k (l : list (string * V)) v :
  v ∈ map snd (mapDelete k l) → v ∈ map snd l.
Proof.
  intros Hin. apply list_elem_of_fmap in Hin as (e & -> & He).
  apply list_elem_of_fmap_2. eapply mapDelete_sub, He.
Qed.

Section SyncRules.
Context (c : nat) (φ : MobileConnection → Prop).

Lemma at_updConn g : (∀ x, φ x → φ (g x)) → pres (syncAt c φ) (updConn c g).
Proof.
  intros Hg. apply pres_modify. intros w [Ho Hc]. split; cbn.
  - intros c' x Hne Hx. rewrite list_lookup_alter_ne in Hx by congruence. eauto.
  - intros x Hx. rewrite list_lookup_alter_eq in Hx.
    destruct (store w !! c) as [x0|] eqn:Hx0; [|discriminate]. injection Hx as <-. eauto.
Qed.

Lemma at_delete ip :
  pres (syncAt c φ) (modify (λ w, set_connections (mapDelete ip (connections w)) w)).
Proof.
  apply pres_modify. intros w [Ho Hc]. split; [|exact Hc].
  intros c' x Hne Hx. destruct (Ho c' x Hne Hx) as [Hs Hl]. split; [exact Hs|].
  intros Ht. apply Hl. unfold tabled in *. cbn in Ht. eapply mapDelete_snd, Ht.
Qed.

Lemma at_upd g E :
  hoare (syncAt c φ) (updConn c g) (λ _, syncAt c (λ x', ∃ x, φ x ∧ x' = g x)) E.
Proof.
  unfold hoare, updConn, modify. intros w [Ho Hc]. split; cbn.
  - intros c' x Hne Hx. rewrite list_lookup_alter_ne in Hx by congruence. eauto.
  - intros x Hx. rewrite list_lookup_alter_eq in Hx.
    destruct (store w !! c) as [x0|] eqn:Hx0; [|discriminate]. injection Hx as <-. eauto.
Qed.

Lemma at_read E :
  hoare (syncAt c φ) (getConn c) (λ x, syncAt c (λ x', φ x' ∧ x' = x)) E.
Proof.
  intros w [Ho Hc]. cbn. split; [exact Ho|].
  intros x Hx. rewrite Hx. cbn. split; [eauto | reflexivity].
Qed.

Lemma at_isConnected ch E :
  hoare (syncAt c φ) (isConnected c ch)
        (λ b, syncAt c (λ x', φ x' ∧ isConnectedFlag (client ch x') = b)) E.
Proof.
  intros w [Ho Hc]. cbn. split; [exact Ho|].
  intros x Hx. rewrite Hx. cbn. split; [eauto | reflexivity].
Qed.

Lemma at_weaken (ψ : MobileConnection → Prop) w :
  (∀ x, φ x → ψ x) → syncAt c φ w → syncAt c ψ w.
Proof. intros Hi [Ho Hc]. split; [exact Ho | intros x Hx; apply Hi; eauto]. Qed.

End SyncRules.

Lemma sync_at c w :
  syncOk w → syncAt c (λ x, setupOk x ∧ (tabled c w → live x)) w.
Proof. intros Hw. split; intros; eapply Hw; eauto. Qed.

Lemma at_sync c φ w :
  (∀ x, φ x → setupOk x ∧ (tabled c w → live x)) → syncAt c φ w → syncOk w.
Proof.
  intros Hi [Ho Hc] c' x Hx. destruct (decide (c' = c)) as [->|Hne]; eauto.
Qed.

Lemma sync_updConn c g :
  (∀ x, setupOk x → setupOk (g x)) → (∀ x, live x → live (g x)) →
  pres syncOk (updConn c g).
Proof.
  intros Hs Hl. apply pres_modify. intros w Hw c' x' Hx'. cbn in Hx'.
  destruct (decide (c' = c)) as [->|Hne].
  - rewrite list_lookup_alter_eq in Hx'.
    destruct (store w !! c) as [x|] eqn:Hx; [|discriminate]. injection Hx' as <-.
    destruct (Hw c x Hx) as [H1 H2]. split; [apply Hs, H1|].
    intros Ht. apply Hl, H2, Ht.
  - rewrite list_lookup_alter_ne in Hx' by congruence. eapply Hw, Hx'.
Qed.

Lemma sync_delete ip :
  pres syncOk (modify (λ w, set_connections (mapDelete ip (connections w)) w)).
Proof.
  apply pres_modify. intros w Hw c x Hx. destruct (Hw c x Hx) as [Hs Hl].
  split; [exact Hs|]. intros Ht. apply Hl. unfold tabled in *. cbn in Ht.
  eapply mapDelete_snd, Ht.
Qed.

(** An update that leaves alone what [setupOk], [live] and the like look
    at, or changes it in the harmless direction. *)
Ltac kept :=
  let x := fresh "x" in let H := fresh "H" in
  intros x H;
  repeat match goal with
         | |- context [set_client ?ch _ _] => is_var ch; destruct ch
         end;
  first
    [ exact H
    | unfold settled, heartbeatUp, notSetUp, setupOk, live in *; cbn in *;
      intuition (auto; discriminate) ].

Ltac sync_prim :=
  lazymatch goal with
  | |- pres syncOk (updSock _ _ _ _) =>
      unfold updSock, updClient; apply sync_updConn; kept
  | |- pres syncOk (updClient _ _ _) => unfold updClient; apply sync_updConn; kept
  | |- pres syncOk (updConn _ _) => apply sync_updConn; kept
  | |- pres syncOk (modify (λ w, set_connections (mapDelete _ (connections w)) w)) =>
      apply sync_delete
  | |- pres syncOk (modify _) =>
      apply pres_modify; let H := fresh in intros ? H; exact H
  | |- pres syncOk (setTimeout _ _) =>
      apply pres_setTimeout; let H := fresh in intros ? ? ? H; exact H
  | |- pres (syncAt ?c _) (updSock ?c _ _ _) =>
      unfold updSock, updClient; apply at_updConn; kept
  | |- pres (syncAt ?c _) (updClient ?c _ _) => unfold updClient; apply at_updConn; kept
  | |- pres (syncAt ?c _) (updConn ?c _) => apply at_updConn; kept
  | |- pres (syncAt _ _) (modify (λ w, set_connections (mapDelete _ (connections w)) w)) =>
      apply at_delete
  | |- pres (syncAt _ _) (modify _) =>
      apply pres_modify; let H := fresh in intros ? H; exact H
  | |- pres (syncAt _ _) (setTimeout _ _) =>
      apply pres_setTimeout; let H := fresh in intros ? ? ? H; exact H
  end.
Ltac sync_go := repeat (sync_prim || pres_step).

Lemma sync_emit c ch ev : pres syncOk (emit c ch ev).
Proof. sync_go. Qed.
#[local] Hint Resolve sync_emit : pres.

Lemma hoare_lax {A} (P : World → Prop) (m : M A) :
  pres P m → hoare P m (λ _, P) (λ _, True).
Proof. intros Hm w H. specialize (Hm w H). destruct (m w); [exact Hm | exact I]. Qed.

(** One step of a computation on record [c]. *)
Ltac at_step :=
  lazymatch goal with
  | |- hoare (syncAt ?c _) (bind (updConn ?c _) _) _ _ =>
      eapply hoare_bind; [apply at_upd | intros ?; cbv beta]
  | |- hoare (syncAt ?c _) (bind (updClient ?c _ _) _) _ _ =>
      eapply hoare_bind; [unfold updClient; apply at_upd | intros ?; cbv beta]
  | |- hoare (syncAt ?c _) (bind (updSock ?c _ _ _) _) _ _ =>
      eapply hoare_bind; [unfold updSock, updClient; apply at_upd | intros ?; cbv beta]
  | |- hoare (syncAt ?c _) (bind (getConn ?c) _) _ _ =>
      eapply hoare_bind; [apply at_read | intros ?x; cbv beta]
  | |- hoare (syncAt ?c _) (bind (isConnected ?c _) _) _ _ =>
      eapply hoare_bind; [apply at_isConnected | intros ?b; cbv beta]
  | |- hoare (syncAt ?c ?φ) (bind ?m _) _ _ =>
      eapply hoare_bind with (R := λ _, syncAt c φ);
        [apply hoare_lax; sync_go | intros ?; cbv beta]
  end.

(** By now the record has [ψ]. *)
Ltac at_know ψ :=
  eapply hoare_pre with (P' := syncAt _ ψ);
    [intros ?; apply at_weaken; intros ?x' Hsp | ].

(** What is left of the computation keeps [ψ], which holds by now. *)
Ltac at_rest ψ :=
  eapply hoare_pre with (P' := syncAt _ ψ);
    [intros ?; apply at_weaken; intros ?x' Hsp | apply hoare_lax; sync_go].

(** ['disconnected'] emitted on a record puts its mark right. *)
Lemma at_disconnected c ch :
  hoare (syncAt c setupOk) (emit c ch EDisconnected) (λ _, syncAt c settled) (λ _, True).
Proof.
  unfold emit. at_step. at_step.
  assert (Hoff : hoare (syncAt c (λ x', setupOk x' ∧ x' = x ∧ forwarding x = false))
                   (ret tt) (λ _, syncAt c settled) (λ _, True)).
  { intros w. apply at_weaken. intros x' (Hs & -> & Hf). split; [exact Hs|].
    intros Hc. rewrite (proj1 Hs Hc) in Hf. discriminate. }
  assert (Hon : hoare (syncAt c setupOk) (handleDeviceDisconnection c)
                  (λ _, syncAt c settled) (λ _, True)).
  { unfold handleDeviceDisconnection. at_step. at_step.
    destruct (negb b && negb b0) eqn:Hb.
    - at_step. at_rest settled.
      destruct Hsp as (x0 & [[[H1 H2] _] _] & ->). split; [split|]; cbn; [discriminate|exact H2|].
      unfold live. cbn. discriminate.
    - at_rest settled. destruct Hsp as [[Hs Hc] Hh]. split; [exact Hs|]. intros _.
      cbn in Hc, Hh. destruct b, b0; try discriminate; auto. }
  destruct (forwarding x) eqn:Hf; destruct ch; cbn [when].
  1,2: eapply hoare_pre; [|exact Hon]; intros w; apply at_weaken; intros ? [H _]; exact H.
  1,2: eapply hoare_pre; [|exact Hoff]; intros w; apply at_weaken; intros ? [H ->]; auto.
Qed.

Lemma sync_cmd_onClose c sid e :
  hoare syncOk (updSock c Command sid e ;; cmd_onClose c) (λ _, syncOk) (λ _, True).
Proof.
  eapply hoare_conseq with (P' := syncAt c setupOk) (Q' := λ _, syncAt c settled).
  - intros w Hw. eapply at_weaken, sync_at, Hw. intros x [H _]. exact H.
  - intros _ w. apply at_sync. intros x [Hs Hl]. auto.
  - unfold cmd_onClose. at_step. at_step.
    eapply hoare_pre; [|apply at_disconnected].
    intros w. apply at_weaken. intros x' (x1 & (x0 & Hs & ->) & ->). exact Hs.
Qed.

Lemma sync_hb_onClose c sid e :
  hoare syncOk (updSock c Heartbeat sid e ;; hb_onClose c) (λ _, syncOk) (λ _, True).
Proof.
  eapply hoare_conseq with (P' := syncAt c setupOk) (Q' := λ _, syncAt c settled).
  - intros w Hw. eapply at_weaken, sync_at, Hw. intros x [H _]. exact H.
  - intros _ w. apply at_sync. intros x [Hs Hl]. auto.
  - unfold hb_onClose. at_step. at_step.
    at_know setupOk; [destruct Hsp as (x1 & (x0 & Hs & ->) & ->); exact Hs|].
    at_step. apply at_disconnected.
Qed.

Lemma notSetUp_settled x : notSetUp x → settled x.
Proof.
  intros (Hf & Hc & Hp). split; [split|]; unfold live; rewrite ?Hf, ?Hc; discriminate.
Qed.

Lemma heartbeatUp_settled x : heartbeatUp x → settled x.
Proof. intros [Hs Hh]. split; [exact Hs | intros _; right; exact Hh]. Qed.

Lemma hoare_weak {A} (P P' : World → Prop) (m : M A) :
  pres P m → (∀ w, P w → P' w) → hoare P m (λ _, P') P'.
Proof. intros Hm Hi w H. specialize (Hm w H). destruct (m w); apply Hi, Hm. Qed.

(** [connectToDevice] going on after an [await] whose promise was rejected,
    or after the [await] for the command client. *)
Lemma at_resume c ch r ws :
  ch = Command ∨ (∃ e, r = Rejected e) →
  hoare (syncAt c notSetUp) (router_resume c ch r ws)
        (λ _, syncAt c settled) (syncAt c settled).
Proof.
  intros Hsafe.
  assert (Hweak : ∀ w, syncAt c notSetUp w → syncAt c settled w).
  { intros w. apply at_weaken, notSetUp_settled. }
  unfold router_resume.
  apply hoare_tryCatch with (E' := syncAt c settled);
    [|intros e; apply hoare_of_pres; sync_go].
  unfold connectToDevice_resume.
  assert (Hcatch : ∀ e, hoare (syncAt c notSetUp) (connectToDevice_catch c ws e)
                          (λ _, syncAt c settled) (syncAt c settled)).
  { intros e. apply hoare_weak; [sync_go | exact Hweak]. }
  assert (Hcmd : hoare (syncAt c notSetUp)
                   (x <- getConn c ;;
                    sid <- hb_connect c (dev_ip (device x)) ;;
                    updConn c (set_pendingConnect (Some (Heartbeat, sid, ws))))
                   (λ _, syncAt c settled) (syncAt c settled)).
  { eapply hoare_bind with (R := λ _, syncAt c notSetUp);
      [intros w H; exact H | intros x].
    eapply hoare_bind with (R := λ _, syncAt c notSetUp).
    - eapply hoare_exn; [exact Hweak|]. apply hoare_of_pres. sync_go.
    - intros sid. eapply hoare_conseq; [intros ? H; exact H | | apply at_upd].
      cbv beta. intros _ w. apply at_weaken. intros x' (x0 & (Hf & Hc & _) & ->).
      split; [split|]; unfold live; cbn; rewrite ?Hf, ?Hc; discriminate. }
  destruct Hsafe as [-> | [e ->]]; [destruct r | destruct ch];
    first [apply Hcatch | exact Hcmd].
Qed.

(** [connectToDevice] going on after the [await] for the heartbeat client,
    which reports connected. *)
Lemma at_resume_up c r ws :
  hoare (syncAt c (λ x, notSetUp x ∧ isConnectedFlag (heartbeatClient x) = true))
        (router_resume c Heartbeat r ws)
        (λ _, syncAt c settled) (syncAt c settled).
Proof.
  destruct r as [| |e].
  3: { eapply hoare_pre; [|apply at_resume; right; eauto].
       intros w. apply at_weaken. intros x [H _]. exact H. }
  all: unfold router_resume;
    apply hoare_tryCatch with (E' := syncAt c settled);
      [|intros e; apply hoare_of_pres; sync_go];
    unfold connectToDevice_resume, setupEventForwarding;
    (eapply hoare_bind; [apply at_upd | intros ?; cbv beta]);
    (eapply hoare_bind; [apply at_upd | intros ?; cbv beta]);
    (eapply hoare_pre with (P' := syncAt c settled);
       [intros w; apply at_weaken;
        intros x' (x1 & (x0 & ((Hf & Hc & Hp) & Hh) & ->) & ->);
        split; [split; cbn; auto | intros _; right; exact Hh]
       |apply hoare_of_pres; sync_go]).
Qed.

Lemma at_pending c w φ ch' sid' ws :
  pendingConnect (default blankConnection (store w !! c)) = Some (ch', sid', ws) →
  syncAt c (λ x, setupOk x ∧ φ x) w →
  syncAt c (λ x, (forwarding x = false ∧ connected x = false) ∧ φ x) w.
Proof.
  intros Hp [Ho Hc]. split; [exact Ho|]. intros x Hx. rewrite Hx in Hp. cbn in Hp.
  destruct (Hc x Hx) as [[H1 H2] Hφ]. split; [|exact Hφ].
  assert (Hf : forwarding x = false).
  { destruct (forwarding x); [|reflexivity]. rewrite H2 in Hp by reflexivity. discriminate. }
  split; [exact Hf|]. destruct (connected x); [|reflexivity].
  rewrite H1 in Hf by reflexivity. discriminate.
Qed.

Lemma sync_settle c ch sid r :
  ch = Command ∨ (∃ e, r = Rejected e) → pres syncOk (settle c ch sid r).
Proof.
  intros Hsafe. unfold settle. apply pres_bind; [sync_go | intros s].
  destruct (promise s); [|apply pres_ret..].
  apply pres_bind; [sync_go | intros _].
  intros w Hw. unfold bind at 1, getConn at 1.
  destruct (pendingConnect (default blankConnection (store w !! c)))
    as [[[ch' sid'] ws]|] eqn:Hp; [|exact Hw].
  destruct (bool_decide _); [|exact Hw].
  assert (Hrun : hoare (λ w', w' = w)
                   (updConn c (set_pendingConnect None) ;; router_resume c ch r ws)
                   (λ _, syncAt c settled) (syncAt c settled)).
  { eapply hoare_bind with (R := λ _, syncAt c notSetUp);
      [|intros ?; apply at_resume, Hsafe].
    eapply hoare_conseq with (P' := syncAt c (λ x, (forwarding x = false ∧ connected x = false)
                                                   ∧ True));
      [| |apply at_upd].
    - intros w' ->. apply (at_pending c w (λ _, True) ch' sid' ws Hp).
      eapply at_weaken, sync_at, Hw. intros x [H _]. auto.
    - cbv beta. intros _ w'. apply at_weaken. intros x' (x0 & [[Hf Hc] _] & ->).
      repeat split; assumption. }
  specialize (Hrun w eq_refl).
  destruct ((updConn c (set_pendingConnect None) ;; router_resume c ch r ws) w);
    (eapply at_sync, Hrun; intros x [Hs Hl]; auto).
Qed.

Lemma sync_settle_command c sid r : pres syncOk (settle c Command sid r).
Proof. apply sync_settle. left. reflexivity. Qed.

Lemma sync_settle_rejected c ch sid e : pres syncOk (settle c ch sid (Rejected e)).
Proof. apply sync_settle. right. eauto. Qed.
#[local] Hint Resolve sync_settle_command sync_settle_rejected : pres.

(** The promise of a heartbeat socket is settled while the heartbeat client
    reports connected. *)
Lemma at_settle_up c sid r :
  hoare (syncAt c heartbeatUp) (settle c Heartbeat sid r)
        (λ _, syncAt c settled) (syncAt c settled).
Proof.
  assert (Hweak : ∀ w, syncAt c heartbeatUp w → syncAt c settled w).
  { intros w. apply at_weaken, heartbeatUp_settled. }
  assert (Hret : hoare (syncAt c heartbeatUp) (ret tt)
                   (λ _, syncAt c settled) (syncAt c settled)).
  { intros w H. apply Hweak, H. }
  unfold settle.
  eapply hoare_bind with (R := λ _, syncAt c heartbeatUp);
    [eapply hoare_exn; [exact Hweak | apply hoare_of_pres; sync_go] | intros s].
  destruct (promise s); [|exact Hret..].
  eapply hoare_bind with (R := λ _, syncAt c heartbeatUp);
    [eapply hoare_exn; [exact Hweak | apply hoare_of_pres; sync_go] | intros ?].
  intros w Hw. unfold bind at 1, getConn at 1.
  destruct (pendingConnect (default blankConnection (store w !! c)))
    as [[[ch' sid'] ws]|] eqn:Hp; [|apply Hweak, Hw].
  destruct (bool_decide _); [|apply Hweak, Hw].
  assert (Hrun : hoare (λ w', w' = w)
                   (updConn c (set_pendingConnect None) ;; router_resume c Heartbeat r ws)
                   (λ _, syncAt c settled) (syncAt c settled)).
  { eapply hoare_bind
      with (R := λ _, syncAt c (λ x, notSetUp x
                                     ∧ isConnectedFlag (heartbeatClient x) = true));
      [|intros ?; apply at_resume_up].
    eapply hoare_conseq
      with (P' := syncAt c (λ x, (forwarding x = false ∧ connected x = false)
                                 ∧ isConnectedFlag (heartbeatClient x) = true));
      [| |apply at_upd].
    - intros w' ->.
      apply (at_pending c w (λ x, isConnectedFlag (heartbeatClient x) = true) ch' sid' ws Hp).
      exact Hw.
    - cbv beta. intros _ w'. apply at_weaken. intros x' (x0 & [[Hf Hc] Hh] & ->).
      repeat split; assumption. }
  exact (Hrun w eq_refl).
Qed.

Lemma sync_hb_onConnect c sid e :
  hoare syncOk (updSock c Heartbeat sid e ;; hb_onConnect c sid) (λ _, syncOk) (λ _, True).
Proof.
  eapply hoare_exn with (E' := syncAt c settled); [intros ? ?; exact I|].
  eapply hoare_conseq with (P' := syncAt c setupOk) (Q' := λ _, syncAt c settled).
  - intros w Hw. eapply at_weaken, sync_at, Hw. intros x [H _]. exact H.
  - intros _ w. apply at_sync. intros x [Hs Hl]. auto.
  - unfold hb_onConnect.
    eapply hoare_bind; [unfold updSock, updClient; apply at_upd | intros ?; cbv beta].
    eapply hoare_bind; [unfold updClient; apply at_upd | intros ?; cbv beta].
    eapply hoare_pre with (P' := syncAt c heartbeatUp).
    { intros w. apply at_weaken. intros x' (x1 & (x0 & Hs & ->) & ->).
      split; [exact Hs | reflexivity]. }
    assert (Hweak : ∀ w, syncAt c heartbeatUp w → syncAt c settled w).
    { intros w. apply at_weaken, heartbeatUp_settled. }
    do 4 (eapply hoare_bind with (R := λ _, syncAt c heartbeatUp);
              [eapply hoare_exn; [exact Hweak | apply hoare_of_pres; sync_go]; fail
              | intros ?]).
    apply at_settle_up.
Qed.

(** An ['error'] that nobody listens to. *)
Lemma emit_error_throws c ch e (P : World → Prop) Q :
  hoare P (emit c ch (EError e)) Q (λ _, True).
Proof. intros w _. unfold emit. unfold_ops. destruct ch; exact I. Qed.

Lemma sync_cmd_onError c sid e err :
  hoare syncOk (updSock c Command sid e ;; cmd_onError c sid err) (λ _, syncOk) (λ _, True).
Proof.
  unfold cmd_onError.
  eapply hoare_bind with (R := λ _ _, True); [intros w _; exact I | intros ?].
  eapply hoare_bind with (R := λ _ _, True); [intros w _; exact I | intros ?].
  eapply hoare_bind with (R := λ _ _, False); [apply emit_error_throws | intros ?].
  intros w [].
Qed.

Lemma sync_hb_onError c sid e err :
  hoare syncOk (updSock c Heartbeat sid e ;; hb_onError c sid err) (λ _, syncOk) (λ _, True).
Proof.
  unfold hb_onError.
  eapply hoare_bind with (R := λ _ _, True); [intros w _; exact I | intros ?].
  eapply hoare_bind with (R := λ _ _, True); [intros w _; exact I | intros ?].
  eapply hoare_bind with (R := λ _ _, True).
  { intros w _. destruct (stopHeartbeat c w); exact I. }
  intros ?.
  eapply hoare_bind with (R := λ _ _, False); [apply emit_error_throws | intros ?].
  intros w [].
Qed.

Lemma sync_hb_liveness c : hoare syncOk (hb_liveness c) (λ _, syncOk) (λ _, True).
Proof.
  unfold hb_liveness.
  eapply hoare_bind with (R := λ _, syncOk); [apply hoare_lax; sync_go | intros ?].
  eapply hoare_bind with (R := λ _, syncOk); [apply hoare_lax; sync_go | intros b].
  destruct b; cbn [when]; [|intros w H; exact H].
  eapply hoare_conseq with (P' := syncAt c setupOk) (Q' := λ _, syncAt c settled).
  - intros w Hw. eapply at_weaken, sync_at, Hw. intros x [H _]. exact H.
  - intros _ w. apply at_sync. intros x [Hs Hl]. auto.
  - at_step. apply at_disconnected.
Qed.

Ltac under_prim :=
  lazymatch goal with
  | |- pres (onlyUnder _ _) (updSock _ _ _ _) => unfold updSock, updClient, updConn
  | |- pres (onlyUnder _ _) (updClient _ _ _) => unfold updClient, updConn
  | |- pres (onlyUnder _ _) (updConn _ _) => unfold updConn
  | |- pres (onlyUnder _ _) (modify _) =>
      apply pres_modify; let H := fresh in intros ? H; exact H
  | |- pres (onlyUnder _ _) (setTimeout _ _) =>
      apply pres_setTimeout; let H := fresh in intros ? ? ? H; exact H
  end.
Ltac under_go := repeat (under_prim || pres_step).

Lemma pres_conj {A} (P Q : World → Prop) (m : M A) :
  pres P m → pres Q m → pres (λ w, P w ∧ Q w) m.
Proof. intros HP HQ w [H1 H2]. split; [apply HP, H1 | apply HQ, H2]. Qed.

Lemma snd_unique {K V} (l : list (K * V)) a b v :
  NoDup (map snd l) → (a, v) ∈ l → (b, v) ∈ l → a = b.
Proof.
  induction l as [|[k v'] l IH]; cbn; intros Hnd Ha Hb.
  - apply not_elem_of_nil in Ha. contradiction.
  - apply NoDup_cons in Hnd as [Hv Hnd].
    apply elem_of_cons in Ha as [[= -> ->]|Ha]; apply elem_of_cons in Hb as [[= ->]|Hb].
    + reflexivity.
    + exfalso. apply Hv. apply (list_elem_of_fmap_2 snd _ _ Hb).
    + subst. exfalso. apply Hv. apply (list_elem_of_fmap_2 snd _ _ Ha).
    + eauto.
Qed.

Lemma mapDelete_key {V} k (l : list (string * V)) k' v :
  (k', v) ∈ mapDelete k l → k' ≠ k.
Proof.
  unfold mapDelete. intros Hin ->. apply list_elem_of_In in Hin.
  apply List.filter_In in Hin as [_ Hk]. cbn in Hk. rewrite String.eqb_refl in Hk.
  discriminate.
Qed.

Lemma sync_closeConnection ip w :
  tableOk w → syncOk w → syncOk (final (closeConnection ip w)).
Proof.
  intros (_ & Hnd & _) Hw. unfold closeConnection, bind at 1, get.
  destruct (mapGet ip (connections w)) as [c|] eqn:Hget; [|exact Hw].
  assert (Hstart : syncAt c setupOk w ∧ onlyUnder ip c w).
  { split.
    - eapply at_weaken, sync_at, Hw. intros x [H _]. exact H.
    - intros ip' Hin. apply (snd_unique _ _ _ _ Hnd Hin). apply mapGet_elem, Hget. }
  assert (Hp : hoare (λ w', syncAt c setupOk w' ∧ onlyUnder ip c w')
                 (cmd_disconnect c ;; hb_disconnect c ;;
                  x <- getConn c ;;
                  broadcastToClients (webSocketClients x) (ConnectionClosed (device x)) ;;
                  modify (λ w, set_connections (mapDelete ip (connections w)) w))
                 (λ _, syncOk) (λ _, True)).
  { do 4 (eapply hoare_bind with (R := λ _ w', syncAt c setupOk w' ∧ onlyUnder ip c w');
            [apply hoare_lax, pres_conj; [sync_go | under_go]; fail | intros ?]).
    intros w1 [[Ho Hc] Hu]. cbn. intros c' x' Hx'. cbn in Hx'.
    destruct (decide (c' = c)) as [->|Hne].
    - split; [eapply Hc, Hx'|]. intros Ht. exfalso. unfold tabled in Ht. cbn in Ht.
      apply list_elem_of_fmap in Ht as ([ip' c1] & Hc1 & Hin). cbn in Hc1. subst c1.
      apply (mapDelete_key _ _ _ _ Hin). apply Hu. eapply mapDelete_sub, Hin.
    - destruct (Ho c' x' Hne Hx') as [Hs Hl]. split; [exact Hs|].
      intros Ht. apply Hl. unfold tabled in *. cbn in Ht. eapply mapDelete_snd, Ht. }
  assert (Hret : returns
                   (cmd_disconnect c ;; hb_disconnect c ;;
                    x <- getConn c ;;
                    broadcastToClients (webSocketClients x) (ConnectionClosed (device x)) ;;
                    modify (λ w, set_connections (mapDelete ip (connections w)) w)))
    by returns_go.
  specialize (Hp w Hstart). destruct (Hret w) as (a & w' & Hm).
  rewrite Hm in *. exact Hp.
Qed.

Lemma read_then {A B} (m : M A) (k : A → M B) (P : World → Prop) w :
  reads m → P w → (∀ a, P (final (k a w))) → P (final (bind m k w)).
Proof.
  intros Hm Hw Hk. unfold bind. destruct (Hm w) as [[a ->]|[e ->]]; [apply Hk | exact Hw].
Qed.

Lemma sync_graceClose c w : tableOk w → syncOk w → syncOk (final (graceClose c w)).
Proof.
  intros Ht Hw. unfold graceClose.
  apply read_then; [reads_go | exact Hw | intros b1].
  apply read_then; [reads_go | exact Hw | intros b2].
  destruct (negb b1 && negb b2); [|exact Hw].
  apply read_then; [reads_go | exact Hw | intros x].
  apply sync_closeConnection; assumption.
Qed.

Lemma sync_record w d t :
  mapGet (dev_ip d) (connections w) = None → syncOk w →
  syncAt (length (store w)) notSetUp
    (set_connections (mapSet (dev_ip d) (length (store w)) (connections w))
       (set_store (store w ++ [newConnection d t]) w)).
Proof.
  intros Hnew Hw. split; cbn.
  - intros c' x Hne Hx. apply lookup_app_Some in Hx as [Hx|[Hlen Hx]].
    + destruct (Hw c' x Hx) as [Hs Hl]. split; [exact Hs|]. intros Ht. apply Hl.
      unfold tabled in *. cbn in Ht. rewrite (mapSet_fresh _ _ _ Hnew), map_app in Ht.
      apply elem_of_app in Ht as [Ht|Ht]; [exact Ht|].
      apply list_elem_of_singleton in Ht. cbn in Ht. contradiction.
    + apply list_lookup_singleton_Some in Hx as [Hj _]. lia.
  - intros x Hx. rewrite lookup_app_r in Hx by lia. rewrite Nat.sub_diag in Hx.
    injection Hx as <-. repeat split.
Qed.

Lemma sync_connectDevice d ws w :
  syncOk w → syncOk (final (router_connectDevice d ws w)).
Proof.
  intros Hw.
  assert (Hp : hoare (λ w', w' = w) (router_connectDevice d ws)
                 (λ _, syncOk) syncOk).
  { unfold router_connectDevice.
    apply hoare_tryCatch with (E' := syncOk); [|intros e; apply hoare_of_pres; sync_go].
    intros w' ->. unfold connectToDevice, bind at 1, get.
    destruct (mapGet (dev_ip d) (connections w)) as [c|] eqn:Hget.
    - assert (Hq : pres syncOk (wsSend ws (ConnectionSuccess d) ;; attach c ws)) by sync_go.
      apply (hoare_of_pres _ _ Hq), Hw.
    - cbv zeta. unfold bind at 1, modify at 1. unfold bind at 1, modify at 1.
      assert (Hq : hoare (syncAt (length (store w)) notSetUp)
                     (sid <- cmd_connect (length (store w)) (dev_ip d) ;;
                      updConn (length (store w))
                              (set_pendingConnect (Some (Command, sid, ws))))
                     (λ _, syncOk) syncOk).
      { assert (Hweak : ∀ w', syncAt (length (store w)) notSetUp w' → syncOk w').
        { intros w'. apply at_sync. intros x Hx.
          destruct (notSetUp_settled x Hx) as [Hs Hl]. auto. }
        eapply hoare_bind with (R := λ _, syncAt (length (store w)) notSetUp).
        - eapply hoare_exn; [exact Hweak|]. apply hoare_of_pres. sync_go.
        - intros sid. eapply hoare_conseq; [intros ? H; exact H | | apply at_upd].
          cbv beta. intros _ w'. apply at_sync. intros x' (x0 & (Hf & Hc & _) & ->).
          split; [split|]; unfold live; cbn; rewrite ?Hf, ?Hc; discriminate. }
      exact (Hq _ (sync_record w d (now w) Hget Hw)). }
  specialize (Hp w eq_refl). destruct (router_connectDevice d ws w); exact Hp.
Qed.

Lemma pres_then {A B} (P Q : World → Prop) (m : M A) (k : A → M B) w :
  P w → pres P m → (∀ w1, P w1 → Q w1) → (∀ a w1, P w1 → Q (final (k a w1))) →
  Q (final (bind m k w)).
Proof.
  intros Hw Hm Hq Hk. specialize (Hm w Hw). unfold bind.
  destruct (m w) as [a w1|e w1]; cbn in *; [apply Hk, Hm | apply Hq, Hm].
Qed.

(** What a handler does to the marks, unless it throws. *)
Lemma sync_handler ev w m :
  handler ev w = Some m → tableOk w → syncOk w →
  match m w with Done _ w' => syncOk w' | Thrown _ _ => True end.
Proof.
  assert (Hlax : ∀ m : M unit, pres syncOk m → syncOk w →
                   match m w with Done _ w' => syncOk w' | Thrown _ _ => True end).
  { intros m' Hm Hw. exact (hoare_lax _ _ Hm w Hw). }
  assert (Hfin : ∀ m : M unit, syncOk (final (m w)) →
                   match m w with Done _ w' => syncOk w' | Thrown _ _ => True end).
  { intros m' H. destruct (m' w); [exact H | exact I]. }
  destruct ev as [ws|ws d|ws c message resp|ws|c ch sid e|t|ms]; cbn [handler];
    intros Hh Ht Hw.
  - destruct (isOpen ws w); [discriminate|]. injection Hh as <-. apply Hlax; [sync_go|exact Hw].
  - destruct (isOpen ws w); [|discriminate]. injection Hh as <-.
    apply Hfin, sync_connectDevice, Hw.
  - destruct (_ && _); [|discriminate]. injection Hh as <-. apply Hlax; [sync_go|exact Hw].
  - destruct (isOpen ws w); [|discriminate]. injection Hh as <-. apply Hlax; [sync_go|exact Hw].
  - destruct (sockOf w c ch sid) as [s|] eqn:Hs; [|discriminate].
    destruct (sockEnabled s e) eqn:Hen; [|discriminate]. injection Hh as <-.
    destruct ch, e as [|p|err| |]; cbn [onSocket].
    + apply Hlax; [sync_go|exact Hw].
    + apply Hlax; [sync_go|exact Hw].
    + apply sync_cmd_onError, Hw.
    + apply sync_cmd_onClose, Hw.
    + apply Hlax; [sync_go|exact Hw].
    + apply sync_hb_onConnect, Hw.
    + apply Hlax; [sync_go|exact Hw].
    + apply sync_hb_onError, Hw.
    + apply sync_hb_onClose, Hw.
    + apply Hlax; [sync_go|exact Hw].
  - destruct (filter _ _) as [|x l]; [discriminate|].
    destruct (due x <=? now w); [|discriminate]. injection Hh as <-.
    destruct (callback x) as [c sid|c|c|c|c|c]; cbn [runTimer].
    + apply Hlax; [sync_go|exact Hw].
    + apply Hlax; [sync_go|exact Hw].
    + refine (hoare_bind _ _ _ (λ _, syncOk) _ _ _ _ w Hw);
        [apply hoare_lax; sync_go | intros _; apply sync_hb_liveness].
    + apply Hfin.
      apply (pres_then (λ w, tableOk w ∧ syncOk w) syncOk); [split; assumption | | tauto |].
      * apply pres_conj; [|sync_go].
        apply pres_modify. intros ? H. exact H.
      * intros _ w1 [Ht1 Hw1]. apply sync_graceClose; assumption.
    + apply Hlax; [sync_go|exact Hw].
    + apply Hlax; [sync_go|exact Hw].
  - destruct (0 <=? ms); [|discriminate]. injection Hh as <-. exact Hw.
Qed.

Lemma deliver_sync w ev :
  tableOk w → (crashed w = None → syncOk w) →
  crashed (deliver w ev) = None → syncOk (deliver w ev).
Proof.
  intros Ht Hw. unfold deliver. destruct (crashed w) eqn:Hc; [intros; congruence|].
  specialize (Hw eq_refl).
  destruct (handler ev w) as [m|] eqn:Hh; [|intros _; exact Hw].
  pose proof (sync_handler ev w m Hh Ht Hw) as Hf.
  destruct (m w); [intros _; exact Hf | cbn; intros Hn; discriminate Hn].
Qed.

Lemma run_sync evs : ∀ w,
  tableOk w → (crashed w = None → syncOk w) →
  crashed (run w evs) = None → syncOk (run w evs).
Proof.
  induction evs as [|ev evs IH]; intros w Ht Hw; [exact Hw|].
  cbn. apply IH; [apply deliver_tableOk, Ht | apply deliver_sync; assumption].
Qed.

(** X19: As long as the process is alive, an address that the manager reports
    as connected has a record in the table at least one of whose TCP clients
    reports connected: when the second client goes down the mark is taken
    back in the same turn. *)
Theorem reported_connected_has_a_client_up
    (h : Host) (evs : list Event) (ip : string)
    (Hlive : crashed (run (initial h) evs) = None)
    (Hcon : isDeviceConnected ip (run (initial h) evs) = true) :
  ∃ c x,
    mapGet ip (connections (run (initial h) evs)) = Some c
    ∧ store (run (initial h) evs) !! c = Some x
    ∧ (isConnectedFlag (commandClient x) = true
       ∨ isConnectedFlag (heartbeatClient x) = true).
Proof.
  set (w := run (initial h) evs) in *.
  assert (Hsync : syncOk w).
  { apply run_sync; [apply initial_tableOk | | exact Hlive].
    intros _ c x Hx. cbn in Hx. rewrite lookup_nil in Hx. discriminate. }
  destruct (run_tableOk evs (initial h) (initial_tableOk h)) as (_ & _ & He). fold w in He.
  unfold isDeviceConnected in Hcon.
  destruct (mapGet ip (connections w)) as [c|] eqn:Hget; [|discriminate].
  pose proof (mapGet_elem _ _ _ Hget) as Hin.
  destruct (He ip c Hin) as (x & Hx & _). rewrite Hx in Hcon. cbn in Hcon.
  exists c, x. split; [reflexivity|]. split; [exact Hx|].
  destruct (Hsync c x Hx) as [_ Hl]. apply Hl; [|exact Hcon].
  unfold tabled. apply (list_elem_of_fmap_2 snd _ _ Hin).
Qed.

Lemma reported_connected_has_a_client_up_witness :
  ∃ c x,
    mapGet "192.168.1.50"
      (connections (run (initial sampleHost)
                      [EvWsOpen 1; EvWsOpen 2; EvConnectDevice 1 pixel;
                       EvSocket 0 Command 0 SConnect; EvSocket 0 Heartbeat 0 SConnect;
                       EvSocket 0 Command 0 SClose]))
    = Some c
    ∧ store (run (initial sampleHost)
               [EvWsOpen 1; EvWsOpen 2; EvConnectDevice 1 pixel;
                EvSocket 0 Command 0 SConnect; EvSocket 0 Heartbeat 0 SConnect;
                EvSocket 0 Command 0 SClose]) !! c = Some x
    ∧ (isConnectedFlag (commandClient x) = true
       ∨ isConnectedFlag (heartbeatClient x) = true).
Proof.
  apply reported_connected_has_a_client_up; vm_compute; reflexivity.
Defined.

(** *** The liveness timer of the heartbeat client *)

Lemma NoDup_tid_filter (P : Timer → Prop) `{∀ x, Decision (P x)} (l : list Timer) :
  NoDup (map tid l) → NoDup (map tid (filter P l)).
Proof.
  induction l as [|a l IH]; [intros _; apply NoDup_nil_2|]. intros Hnd.
  cbn [map] in Hnd. apply NoDup_cons in Hnd as [Ha Hnd]. rewrite filter_cons.
  destruct (decide (P a)); [|apply IH, Hnd].
  cbn [map]. apply NoDup_cons. split; [|apply IH, Hnd].
  intros Hin. apply Ha. apply list_elem_of_fmap in Hin as (b & -> & Hb).
  apply list_elem_of_fmap_2. apply list_elem_of_filter in Hb as [_ Hb]. exact Hb.
Qed.

Lemma tid_unique (l : list Timer) t1 t2 :
  NoDup (map tid l) → t1 ∈ l → t2 ∈ l → tid t1 = tid t2 → t1 = t2.
Proof.
  induction l as [|a l IH]; cbn; intros Hnd H1 H2 He.
  - apply not_elem_of_nil in H1. contradiction.
  - apply NoDup_cons in Hnd as [Ha Hnd].
    apply elem_of_cons in H1 as [->|H1]; apply elem_of_cons in H2 as [->|H2].
    + reflexivity.
    + exfalso. apply Ha. rewrite He. apply (list_elem_of_fmap_2 tid _ _ H2).
    + exfalso. apply Ha. rewrite <- He. apply (list_elem_of_fmap_2 tid _ _ H1).
    + eauto.
Qed.

Lemma lv_updConn c g :
  (∀ x, timeoutTimer (heartbeatClient (g x)) = timeoutTimer (heartbeatClient x)) →
  pres livenessOk (updConn c g).
Proof.
  intros Hg. apply pres_modify. intros w (Hnd & Hlt & Hcb).
  split; [exact Hnd|]. split; [exact Hlt|].
  intros t c' Hin Hc. destruct (Hcb t c' Hin Hc) as (Hd & x & Hx & Ht).
  split; [exact Hd|]. cbn. destruct (decide (c' = c)) as [->|Hne].
  - exists (g x). rewrite list_lookup_alter_eq, Hx. split; [reflexivity|].
    rewrite Hg. exact Ht.
  - exists x. rewrite list_lookup_alter_ne by congruence. auto.
Qed.

Lemma lv_clear t : pres livenessOk (clearTimeout t).
Proof.
  apply pres_modify. intros w (Hnd & Hlt & Hcb). split; [|split]; cbn.
  - apply NoDup_tid_filter, Hnd.
  - intros t' Hin. apply list_elem_of_filter in Hin as [_ Hin]. auto.
  - intros t' c Hin. apply list_elem_of_filter in Hin as [_ Hin]. auto.
Qed.

Lemma lv_setTimeout cb ms : (∀ c, cb ≠ HbLiveness c) → pres livenessOk (setTimeout cb ms).
Proof.
  intros Hcb w (Hnd & Hlt & Hl). unfold setTimeout. cbn. split; [|split]; cbn.
  - rewrite map_app. cbn. apply NoDup_app. split; [exact Hnd|].
    split; [|apply NoDup_singleton].
    intros n Hin Hn. apply list_elem_of_singleton in Hn as ->.
    apply list_elem_of_fmap in Hin as (t & Ht & Hin). specialize (Hlt t Hin). lia.
  - intros t Hin. apply elem_of_app in Hin as [Hin|Hin].
    + specialize (Hlt t Hin). lia.
    + apply list_elem_of_singleton in Hin as ->. cbn. lia.
  - intros t c Hin Hc. apply elem_of_app in Hin as [Hin|Hin]; [eauto|].
    apply list_elem_of_singleton in Hin as ->. cbn in Hc. exfalso. eapply Hcb, Hc.
Qed.

Lemma lv_append w x :
  livenessOk w → livenessOk (set_store (store w ++ [x]) w).
Proof.
  intros (Hnd & Hlt & Hl). split; [exact Hnd|]. split; [exact Hlt|].
  intros t c Hin Hc. destruct (Hl t c Hin Hc) as (Hd & x0 & Hx & Ht).
  split; [exact Hd|]. exists x0. cbn. split; [apply lookup_app_l_Some, Hx | exact Ht].
Qed.

Ltac lv_upd :=
  apply lv_updConn; intros ?;
  repeat match goal with
         | |- context [set_client ?ch _ _] => is_var ch; destruct ch
         end;
  reflexivity.

Ltac lv_prim :=
  lazymatch goal with
  | |- pres livenessOk (updSock _ _ _ _) => unfold updSock, updClient; lv_upd
  | |- pres livenessOk (updClient _ _ _) => unfold updClient; lv_upd
  | |- pres livenessOk (updConn _ _) => lv_upd
  | |- pres livenessOk (clearTimeout _) => apply lv_clear
  | |- pres livenessOk (modify _) =>
      apply pres_modify; let H := fresh in
      intros ? H; first [exact H | apply lv_append; exact H]
  | |- pres livenessOk (setTimeout _ _) => apply lv_setTimeout; intros ?; discriminate
  | |- pres (quiet _) (updSock _ _ _ _) => unfold updSock, updClient, updConn
  | |- pres (quiet _) (updClient _ _ _) => unfold updClient, updConn
  | |- pres (quiet _) (updConn _ _) => unfold updConn
  | |- pres (quiet _) (clearTimeout _) =>
      apply pres_modify; let H := fresh in let Hin := fresh in
      intros ? H ? Hin; cbn in Hin; apply list_elem_of_filter in Hin as [_ Hin];
      apply H, Hin
  | |- pres (quiet _) (modify _) =>
      apply pres_modify; let H := fresh in intros ? H; exact H
  | |- pres (quiet _) (setTimeout _ _) =>
      let H := fresh in let Hin := fresh in
      intros ? H; unfold setTimeout; cbn; intros ? Hin;
      apply elem_of_app in Hin as [Hin|Hin];
      [apply H, Hin | apply list_elem_of_singleton in Hin as ->; cbn; discriminate]
  end.
Ltac lv_go := repeat (lv_prim || pres_step).

(** [stopTimeoutTimer] leaves no liveness timer of the record behind. *)
Lemma lv_stop_quiet c w :
  livenessOk w →
  ∃ w', stopTimeoutTimer c w = Done tt w' ∧ livenessOk w' ∧ quiet c w'
        ∧ length (store w') = length (store w).
Proof.
  intros (Hnd & Hlt & Hl). unfold stopTimeoutTimer. unfold_ops. cbn.
  destruct (store w !! c) as [x|] eqn:Hx; cbn.
  - destruct (timeoutTimer (heartbeatClient x)) as [t0|] eqn:Ht0; cbn.
    + eexists. split; [reflexivity|]. cbn.
      assert (Hq : ∀ t, t ∈ filter (λ x, tid x ≠ t0) (timers w) → callback t ≠ HbLiveness c).
      { intros t Hin Hc. apply list_elem_of_filter in Hin as [Hne Hin].
        destruct (Hl t c Hin Hc) as (_ & x' & Hx' & Ht). rewrite Hx in Hx'.
        injection Hx' as <-. rewrite Ht0 in Ht. injection Ht as ->. contradiction. }
      split; [|split; [exact Hq | apply length_alter]].
      split; [apply NoDup_tid_filter, Hnd|]. split.
      * intros t Hin. apply list_elem_of_filter in Hin as [_ Hin]. auto.
      * intros t c' Hin Hc. pose proof (Hq t Hin) as Hne.
        apply list_elem_of_filter in Hin as [_ Hin].
        destruct (Hl t c' Hin Hc) as (Hd & x' & Hx' & Ht). split; [exact Hd|].
        assert (c' ≠ c) by congruence.
        exists x'. cbn. rewrite list_lookup_alter_ne by congruence. auto.
    + eexists. split; [reflexivity|]. split; [exact (conj Hnd (conj Hlt Hl))|].
      split; [|reflexivity]. intros t Hin Hc.
      destruct (Hl t c Hin Hc) as (_ & x' & Hx' & Ht). rewrite Hx in Hx'.
      injection Hx' as <-. rewrite Ht0 in Ht. discriminate.
  - eexists. split; [reflexivity|]. split; [exact (conj Hnd (conj Hlt Hl))|].
    split; [|reflexivity]. intros t Hin Hc.
    destruct (Hl t c Hin Hc) as (_ & x' & Hx' & _). rewrite Hx in Hx'. discriminate.
Qed.

Lemma lv_stop c : pres livenessOk (stopTimeoutTimer c).
Proof.
  intros w Hw. destruct (lv_stop_quiet c w Hw) as (w' & -> & Hl & _). exact Hl.
Qed.
#[local] Hint Resolve lv_stop : pres.

(** [startTimeoutTimer] on a record that exists. *)
Lemma lv_start c w :
  livenessOk w → (c < length (store w))%nat → livenessOk (final (startTimeoutTimer c w)).
Proof.
  intros Hw Hc. unfold startTimeoutTimer. unfold bind at 1.
  destruct (lv_stop_quiet c w Hw) as (w1 & -> & (Hnd & Hlt & Hl) & Hq & Hlen).
  rewrite <- Hlen in Hc. apply lookup_lt_is_Some_2 in Hc as [x Hx].
  unfold_ops. unfold setTimeout. cbn. split; [|split]; cbn.
  - rewrite map_app. cbn. apply NoDup_app. split; [exact Hnd|].
    split; [|apply NoDup_singleton].
    intros n Hin Hn. apply list_elem_of_singleton in Hn as ->.
    apply list_elem_of_fmap in Hin as (t & Ht & Hin). specialize (Hlt t Hin). lia.
  - intros t Hin. apply elem_of_app in Hin as [Hin|Hin].
    + specialize (Hlt t Hin). lia.
    + apply list_elem_of_singleton in Hin as ->. cbn. lia.
  - intros t c' Hin Hcb. apply elem_of_app in Hin as [Hin|Hin].
    + destruct (Hl t c' Hin Hcb) as (Hd & x' & Hx' & Ht). split; [exact Hd|].
      assert (c' ≠ c) by (intros ->; exact (Hq t Hin Hcb)).
      exists x'. cbn. rewrite list_lookup_alter_ne by congruence. auto.
    + apply list_elem_of_singleton in Hin as ->. cbn in Hcb. injection Hcb as <-.
      split; [reflexivity|]. eexists. rewrite list_lookup_alter_eq, Hx. cbn.
      split; reflexivity.
Qed.

Lemma lv_sendHeartbeat c : pres livenessOk (sendHeartbeat c).
Proof.
  intros w Hw. unfold sendHeartbeat. unfold bind at 1, getClient, bind at 1, getConn, ret.
  destruct (store w !! c) as [x|] eqn:Hx; cbn [default]; unfold id; cbn [client];
    [|exact Hw].
  destruct (socket (heartbeatClient x)) as [sid|]; [|exact Hw].
  destruct (negb _ || _); [exact Hw|].
  unfold bind at 1, get.
  apply (pres_then (λ w, livenessOk w ∧ keeps (S c) w) livenessOk);
    [split; [exact Hw | apply lookup_lt_Some in Hx; exact Hx]
    |apply pres_conj; [lv_go | keeps_go] | tauto | intros _ w1 [H1 Hk1]].
  apply (pres_then (λ w, livenessOk w ∧ keeps (S c) w) livenessOk);
    [split; assumption | apply pres_conj; [lv_go | keeps_go] | tauto | intros _ w2 [H2 Hk2]].
  apply (pres_then (λ w, livenessOk w ∧ keeps (S c) w) livenessOk);
    [split; assumption | apply pres_conj; [lv_go | keeps_go] | tauto | intros _ w3 [H3 Hk3]].
  apply (pres_then (λ w, livenessOk w ∧ keeps (S c) w) livenessOk);
    [split; assumption | apply pres_conj; [lv_go | keeps_go] | tauto | intros _ w4 [H4 Hk4]].
  apply lv_start; [exact H4 | exact Hk4].
Qed.
#[local] Hint Resolve lv_sendHeartbeat : pres.

Lemma lv_emit c ch ev : pres livenessOk (emit c ch ev).
Proof. lv_go. Qed.
#[local] Hint Resolve lv_emit : pres.

Lemma lv_resume c ch r ws : pres livenessOk (router_resume c ch r ws).
Proof. lv_go. Qed.
#[local] Hint Resolve lv_resume : pres.

Lemma lv_settle c ch sid r : pres livenessOk (settle c ch sid r).
Proof. lv_go. Qed.
#[local] Hint Resolve lv_settle : pres.

Lemma lv_closeConnection ip : pres livenessOk (closeConnection ip).
Proof. lv_go. Qed.
#[local] Hint Resolve lv_closeConnection : pres.

Lemma lv_handler ev w m : handler ev w = Some m → pres livenessOk m.
Proof.
  destruct ev as [ws|ws d|ws c message resp|ws|c ch sid e|t|ms]; cbn [handler]; intros Hh.
  - destruct (isOpen ws w); [discriminate|]. injection Hh as <-. lv_go.
  - destruct (isOpen ws w); [|discriminate]. injection Hh as <-. lv_go.
  - destruct (_ && _); [|discriminate]. injection Hh as <-. lv_go.
  - destruct (isOpen ws w); [|discriminate]. injection Hh as <-. lv_go.
  - destruct (sockOf w c ch sid) as [s|]; [|discriminate].
    destruct (sockEnabled s e); [|discriminate]. injection Hh as <-.
    destruct ch, e; lv_go.
  - destruct (filter _ _) as [|x l]; [discriminate|].
    destruct (due x <=? now w); [|discriminate]. injection Hh as <-.
    destruct (callback x); lv_go.
  - destruct (0 <=? ms); [|discriminate]. injection Hh as <-. lv_go.
Qed.

Lemma deliver_liveness w ev : livenessOk w → livenessOk (deliver w ev).
Proof.
  intros Hw. unfold deliver. destruct (crashed w); [exact Hw|].
  destruct (handler ev w) as [m|] eqn:Hh; [|exact Hw].
  pose proof (lv_handler ev w m Hh w Hw) as Hf.
  destruct (m w); exact Hf.
Qed.

Lemma run_liveness evs : ∀ w, livenessOk w → livenessOk (run w evs).
Proof.
  induction evs as [|ev evs IH]; intros w Hw; [exact Hw|].
  cbn. apply IH, deliver_liveness, Hw.
Qed.

Lemma initial_liveness h : livenessOk (initial h).
Proof.
  split; [apply NoDup_nil_2|].
  split; [intros t Hin | intros t c Hin]; apply not_elem_of_nil in Hin; contradiction.
Qed.

Lemma quiet_after_stop {A} c (k : M A) w :
  livenessOk w → pres (quiet c) k → quiet c (final ((stopTimeoutTimer c ;; k) w)).
Proof.
  intros Hw Hk. unfold bind. destruct (lv_stop_quiet c w Hw) as (w' & -> & _ & Hq & _).
  apply Hk, Hq.
Qed.

(** X20: Whatever has happened: a heartbeat client has at most one liveness
    timer pending; it is the one the client remembers in [timeoutTimer], set
    for 5000 ms; and an echo, like a disconnect, leaves none pending, so a
    heartbeat that is answered in time does not end in a timeout. *)
Theorem liveness_timer_is_single_and_cancelled (h : Host) (evs : list Event) (c : nat) :
  let w := run (initial h) evs in
  (∀ t1 t2, t1 ∈ timers w → t2 ∈ timers w →
     callback t1 = HbLiveness c → callback t2 = HbLiveness c → t1 = t2)
  ∧ (∀ t, t ∈ timers w → callback t = HbLiveness c →
       delay t = 5000
       ∧ ∃ x, store w !! c = Some x ∧ timeoutTimer (heartbeatClient x) = Some (tid t))
  ∧ (∀ sid message t,
       t ∈ timers (final (hb_onData c sid (Some message) w)) →
       callback t ≠ HbLiveness c)
  ∧ (∀ t, t ∈ timers (final (hb_disconnect c w)) → callback t ≠ HbLiveness c).
Proof.
  intros w.
  pose proof (run_liveness evs (initial h) (initial_liveness h)) as Hw. fold w in Hw.
  pose proof Hw as (Hnd & Hlt & Hl).
  split; [|split; [|split]].
  - intros t1 t2 H1 H2 Hc1 Hc2.
    destruct (Hl t1 c H1 Hc1) as (_ & x1 & Hx1 & Ht1).
    destruct (Hl t2 c H2 Hc2) as (_ & x2 & Hx2 & Ht2).
    apply (tid_unique _ _ _ Hnd H1 H2). congruence.
  - intros t Hin Hc. exact (Hl t c Hin Hc).
  - intros sid message.
    change (quiet c (final (hb_onData c sid (Some message) w))).
    unfold hb_onData, tryCatch.
    match goal with |- context [(stopTimeoutTimer c ;; ?k) w] =>
      pose proof (quiet_after_stop c k w Hw ltac:(lv_go)) as Hq;
      destruct ((stopTimeoutTimer c ;; k) w); exact Hq
    end.
  - change (quiet c (final (hb_disconnect c w))).
    unfold hb_disconnect, stopHeartbeat. apply quiet_after_stop; [exact Hw | lv_go].
Qed.

End BridgeFacts.
